(** * The pin ledger (pinstore) and the staged-pin collector (coreipfs)

    A shallow embedding of [ffs/coreipfs/internal/pinstore] and of the
    adapter [ffs/coreipfs]: [Stage], [Pin], [Unpin], [Replace] and the garbage
    collection of staged pins; and of the earlier revision of both packages,
    which kept one marker for each staged Cid.

    Go values are modelled as the program has them:
    - a [[]Pin] is a slice header (pointer, length, capacity) over a backing
      array that lives in a heap; copying a [PinnedCid] copies the header and
      shares the array, exactly as [r = cr] does in the source;
    - [map[cid.Cid]PinnedCid] is a [gmap]; the order in which [range] visits
      it is chosen by the runtime and is an explicit argument;
    - the datastore and the IPFS node are external: each call to them may
      fail, as told by a fault script carried in their state;
    - [time.Now().Unix()] is the explicit argument [now];
    - the mutex is not modelled: the methods are run one at a time. *)

From Stdlib Require Import ZArith.
From stdpp Require Import gmap strings list fin_maps.

Open Scope Z_scope.
Open Scope nat_scope.

(** ** Identifiers *)

Module cid.
(** [cid.Cid] is a comparable struct around one string. *)
Abbreviation Cid := string (only parsing).
End cid.

Module ffs.
(** [type APIID string] *)
Abbreviation APIID := string (only parsing).
End ffs.

(** ** Errors

    One constructor for each [fmt.Errorf] of the two packages. *)

Inductive error :=
  | ErrExternal               (* an error of the datastore or of the node *)
  | ErrNotPinned              (* "c1 isn't pinned" *)
  | ErrNotAllStaged           (* "all pins should be stage type" *)
  | ErrDelete (e : error)     (* "deleting from datastore: %s" *)
  | ErrPut (e : error)        (* "put in datastore: %s" *)
  | ErrNotOnlyStagePins (c : cid.Cid) (count stagedCount : nat)
                              (* "cid %s hasn't only stage-pins, total %d staged %d" *)
  | ErrUnpin (e : error)      (* "unpinning cid from ipfs node: %s" *)
  | ErrRemoveAllStaged (c : cid.Cid) (e : error)
                              (* "removing all staged pins for %s: %s" *)
  | ErrCandidates (e : error) (* "getting gc cid candidates: %s" *)
  | ErrGetStaged (e : error)  (* "get staged pins: %s" *)
  | ErrPinning (c : cid.Cid) (e : error)
                              (* "pinning cid %s: %s" *)
  | ErrStat (c : cid.Cid) (e : error)
                              (* "getting stats of cid %s: %s" *)
  | ErrSavePin (e : error)    (* "saving new pin in pinstore: %s" *)
  | ErrCidNotPinned (c : cid.Cid) (iid : ffs.APIID)
                              (* "cid %s for %s isn't pinned" *)
  | ErrRemovePin (e : error)  (* "removing cid from pinstore: %s" *)
  | ErrPopulate (e : error)   (* "populating cache: %s" *)
  | ErrQuery (e : error)      (* "executing query: %s" *)
  | ErrQueryItem              (* "query item result: %s" *)
  | ErrAddData (e : error)    (* "adding data to ipfs: %s" *)
  | ErrReplaceNotPinned       (* "c1 pin from replace isn't pinned" *)
  | ErrUpdate (c1 c2 : cid.Cid) (e : error)
                              (* "updating pin %s to %s: %s" *)
  | ErrRemoveCid (e : error)  (* "removing cid in pinstore: %s" *)
  | ErrAddCid (e : error).    (* "adding cid in pinstore: %s" *)

#[global] Instance error_eq_dec : EqDecision error.
Proof. solve_decision. Defined.

(** ** Package pinstore *)

Module pinstore.

(** Pin describes a pin of a Cid from an APIID. *)
Record Pin := mkPin {
  APIID : ffs.APIID;
  Staged : bool;
  CreatedAt : Z;
}.

#[global] Instance Pin_eq_dec : EqDecision Pin.
Proof. solve_decision. Defined.

(** The zero value [Pin{}]. *)
Definition zeroPin : Pin := mkPin "" false 0%Z.

(** A slice header. All slices of the package start at the first cell of
    their array, so the pointer is the address of the array. The nil slice
    has length and capacity 0 and its pointer is never followed. *)
Record Slice := mkSlice {
  ptr : nat;
  len : nat;
  cap : nat;
}.

Definition nilSlice : Slice := mkSlice 0 0 0.

(** PinnedCid contains information about a pinned Cid from multiple APIIDs. *)
Record PinnedCid := mkPinnedCid {
  Cid : cid.Cid;
  Pins : Slice;
}.

(** The backing arrays, by address. Allocation extends the heap. *)
Abbreviation Heap := (list (list Pin)) (only parsing).

Definition array (h : Heap) (p : nat) : list Pin := default [] (h !! p).

(** The cells [sl[0]], ..., [sl[len-1]]: what [range sl] visits. *)
Definition elems (h : Heap) (sl : Slice) : list Pin :=
  take (len sl) (array h (ptr sl)).

(** [sl[i] = x] *)
Definition store (h : Heap) (sl : Slice) (i : nat) (x : Pin) : Heap :=
  alter (λ a, <[i := x]> a) (ptr sl) h.

(** [sl[:n]] *)
Definition reslice (sl : Slice) (n : nat) : Slice :=
  mkSlice (ptr sl) n (cap sl).

Section append.
(** The capacity the runtime picks when a full slice of capacity [c] has to
    grow; it is at least the length needed whatever the policy says. *)
Variable growslice : nat → nat.

(** [append(sl, x)]: in place when there is room, else into a new array. *)
Definition append (h : Heap) (sl : Slice) (x : Pin) : Heap * Slice :=
  if decide (len sl < cap sl) then
    (store h sl (len sl) x, mkSlice (ptr sl) (S (len sl)) (cap sl))
  else
    let c := S (len sl) `max` growslice (cap sl) in
    (h ++ [elems h sl ++ x :: replicate (c - S (len sl)) zeroPin],
     mkSlice (length h) (S (len sl)) c).
End append.

(** *** The datastore

    A key-value store. The value kept under a key is the document that
    [json.Marshal] wrote: the Cid and the pins as they were at that moment.
    [faults] scripts the coming calls: the next call fails iff the head is
    [true]; an exhausted script means no further failure. *)

Record Datastore := mkDatastore {
  kv : gmap string (cid.Cid * list Pin);
  faults : list bool;
}.

Definition nextFails (fs : list bool) : bool :=
  match fs with
  | true :: _ => true
  | _ => false
  end.

Definition Put (k : string) (v : cid.Cid * list Pin) (d : Datastore)
  : Datastore * option error :=
  if nextFails (faults d)
  then (mkDatastore (kv d) (tail (faults d)), Some ErrExternal)
  else (mkDatastore (<[k := v]> (kv d)) (tail (faults d)), None).

Definition Delete (k : string) (d : Datastore) : Datastore * option error :=
  if nextFails (faults d)
  then (mkDatastore (kv d) (tail (faults d)), Some ErrExternal)
  else (mkDatastore (delete k (kv d)) (tail (faults d)), None).

(** *** The store *)

Record Store := mkStore {
  heap : list (list Pin);
  ds : Datastore;
  cache : gmap cid.Cid PinnedCid;
}.

(** [pinBaseKey.ChildString(c.String())] *)
Definition makeKey (c : cid.Cid) : string := "/pins/" +:+ c.

(** persist persists a PinnedCid in the datastore. [json.Marshal] cannot fail
    on a PinnedCid, so only the error of [Put] is modelled. *)
Definition persist (r : PinnedCid) (s : Store) : Store * option error :=
  let buf := (Cid r, elems (heap s) (Pins r)) in
  match Put (makeKey (Cid r)) buf (ds s) with
  | (d, Some err) => (mkStore (heap s) d (cache s), Some (ErrPut err))
  | (d, None) => (mkStore (heap s) d (<[Cid r := r]> (cache s)), None)
  end.

(** The lookup at the head of [AddStaged] and [Add]. *)
Definition entry (c : cid.Cid) (s : Store) : PinnedCid :=
  match cache s !! c with
  | Some cr => cr
  | None => mkPinnedCid c nilSlice
  end.

(** The loops [for i, p := range r.Pins { if p.APIID == iid { ... } }] of the
    package all leave at the first match. *)
Definition findPin (iid : ffs.APIID) (ps : list Pin) : option (nat * Pin) :=
  list_find (λ p, APIID p = iid) ps.

Section mutators.
Variable growslice : nat → nat.

Definition AddStaged (now : Z) (iid : ffs.APIID) (c : cid.Cid) (s : Store)
  : Store * option error :=
  let r := entry c s in
  match findPin iid (elems (heap s) (Pins r)) with
  | Some (i, p) =>
      if negb (Staged p) then (s, None)
      else
        let h := store (heap s) (Pins r) i (mkPin (APIID p) (Staged p) now) in
        persist r (mkStore h (ds s) (cache s))
  | None =>
      let p := mkPin iid true now in
      let '(h, sl) := append growslice (heap s) (Pins r) p in
      persist (mkPinnedCid (Cid r) sl) (mkStore h (ds s) (cache s))
  end.

Definition Add (now : Z) (iid : ffs.APIID) (c : cid.Cid) (s : Store)
  : Store * option error :=
  let r := entry c s in
  let new := mkPin iid false now in
  match findPin iid (elems (heap s) (Pins r)) with
  | Some (i, _) =>
      let h := store (heap s) (Pins r) i new in
      persist r (mkStore h (ds s) (cache s))
  | None =>
      let '(h, sl) := append growslice (heap s) (Pins r) zeroPin in
      let h := store h sl (len sl - 1) new in
      persist (mkPinnedCid (Cid r) sl) (mkStore h (ds s) (cache s))
  end.
End mutators.

(** RefCount returns two integers (total, staged). They are Go ints that
    count cells of one slice, so they never wrap. *)
Definition RefCount (c : cid.Cid) (s : Store) : Store * (nat * nat) :=
  match cache s !! c with
  | None => (s, (0, 0))
  | Some r =>
      let stagedPins :=
        foldl (λ n p, if Staged p then S n else n) 0 (elems (heap s) (Pins r)) in
      (s, (len (Pins r), stagedPins))
  end.

(** IsPinnedBy returns true if the Cid is pinned for APIID. *)
Definition IsPinnedBy (iid : ffs.APIID) (c : cid.Cid) (s : Store) : Store * bool :=
  match cache s !! c with
  | None => (s, false)
  | Some r =>
      (s, bool_decide (is_Some (findPin iid (elems (heap s) (Pins r)))))
  end.

Definition IsPinned (c : cid.Cid) (s : Store) : Store * bool :=
  (s, bool_decide (is_Some (cache s !! c))).

Definition Remove (iid : ffs.APIID) (c : cid.Cid) (s : Store)
  : Store * option error :=
  match cache s !! c with
  | None => (s, Some ErrNotPinned)
  | Some r =>
      match findPin iid (elems (heap s) (Pins r)) with
      | None => (s, None)
      | Some (c1idx, _) =>
          let last := default zeroPin (elems (heap s) (Pins r) !! (len (Pins r) - 1)) in
          let h := store (heap s) (Pins r) c1idx last in
          let sl := reslice (Pins r) (len (Pins r) - 1) in
          persist (mkPinnedCid (Cid r) sl) (mkStore h (ds s) (cache s))
      end
  end.

Definition RemoveStaged (c : cid.Cid) (s : Store) : Store * option error :=
  match cache s !! c with
  | None => (s, Some ErrNotPinned)
  | Some pc1 =>
      if forallb Staged (elems (heap s) (Pins pc1)) then
        match Delete (makeKey c) (ds s) with
        | (d, Some err) => (mkStore (heap s) d (cache s), Some (ErrDelete err))
        | (d, None) => (mkStore (heap s) d (<[c := pc1]> (cache s)), None)
        end
      else (s, Some ErrNotAllStaged)
  end.

(** [for _, v := range s.cache]: the runtime picks the order. [pref] is its
    choice: the keys named there come first, in that order, then the rest.
    Every order of the entries arises for some [pref]. *)
Fixpoint rangeMap {V} (pref : list cid.Cid) (m : gmap cid.Cid V)
  : list (cid.Cid * V) :=
  match pref with
  | [] => map_to_list m
  | k :: ks =>
      match m !! k with
      | Some v => (k, v) :: rangeMap ks (delete k m)
      | None => rangeMap ks m
      end
  end.

(** The test of the inner loop of [GetAllOnlyStaged]: no pin of [v] is a
    strong one. *)
Definition onlyStaged (h : Heap) (v : PinnedCid) : bool :=
  forallb Staged (elems h (Pins v)).

Definition GetAllOnlyStaged (pref : list cid.Cid) (s : Store)
  : Store * (list PinnedCid * option error) :=
  let res :=
    foldl (λ res v, if onlyStaged (heap s) v then res ++ [v] else res)
          [] (rangeMap pref (cache s)).*2 in
  (s, (res, None)).

(** *** Building the store from the datastore *)

Definition pinBaseKey : string := "/pins".

(** [ds.Query(query.Query{Prefix: pinBaseKey.String()})]: the entries below
    pinBaseKey, in the order the datastore delivers them ([pref], read as for
    [rangeMap]). The call itself may fail. *)
Definition Query (pref : list string) (d : Datastore)
  : Datastore * (list (string * (cid.Cid * list Pin)) * option error) :=
  if nextFails (faults d)
  then (mkDatastore (kv d) (tail (faults d)), ([], Some ErrExternal))
  else (mkDatastore (kv d) (tail (faults d)),
        (filter (λ e, String.prefix (pinBaseKey +:+ "/") e.1 = true)
                (rangeMap pref (kv d)), None)).

Section populate.
(** The capacity [json.Unmarshal] leaves a decoded slice of [n] cells; it is
    at least [n] whatever the decoder's policy says. *)
Variable jsoncap : nat → nat.

(** [json.Unmarshal(res.Value, &pc)] into a new [PinnedCid]: the pins go to
    an array of their own. The datastore keeps documents, so the decoding
    itself cannot fail here. *)
Definition Unmarshal (h : Heap) (doc : cid.Cid * list Pin) : Heap * PinnedCid :=
  let n := length doc.2 in
  let c := n `max` jsoncap n in
  (h ++ [doc.2 ++ replicate (c - n) zeroPin],
   mkPinnedCid doc.1 (mkSlice (length h) n c)).

(** The loop of [populateCache] over the results of the query. Each result
    may come as an error ([res.Error]), as the script tells. *)
Fixpoint populateLoop (items : list (string * (cid.Cid * list Pin)))
  (fs : list bool) (h : Heap) (ret : gmap cid.Cid PinnedCid)
  : list bool * (Heap * gmap cid.Cid PinnedCid * option error) :=
  match items with
  | [] => (fs, (h, ret, None))
  | res :: rest =>
      if nextFails fs then (tail fs, (h, ret, Some ErrQueryItem))
      else
        let '(h', pc) := Unmarshal h res.2 in
        populateLoop rest (tail fs) h' (<[Cid pc := pc]> ret)
  end.

Definition populateCache (pref : list string) (d : Datastore)
  : Datastore * (Heap * gmap cid.Cid PinnedCid * option error) :=
  match Query pref d with
  | (d1, (_, Some err)) => (d1, ([], ∅, Some (ErrQuery err)))
  | (d1, (items, None)) =>
      let '(fs, r) := populateLoop items (faults d1) [] ∅ in
      (mkDatastore (kv d1) fs, r)
  end.

(** [New]: the store, or the error and no store. *)
Definition New (pref : list string) (d : Datastore)
  : option Store * option error :=
  match populateCache pref d with
  | (_, (_, _, Some err)) => (None, Some (ErrPopulate err))
  | (d', (h, cache, None)) => (Some (mkStore h d' cache), None)
  end.
End populate.

End pinstore.

(** ** Package coreipfs: the collector of staged pins, [Pin] and [unpin] *)

Module coreipfs.
Import pinstore.

(** *** The IPFS node

    [Pin().Add], [Pin().Rm], [Pin().Update], [Unixfs().Add] and
    [Object().Stat]. The node records the calls
    it receives. Whether it refuses a call is told by its fault script, read
    as the datastore's; the size that its stat call answers is an argument,
    as the time is. *)

Inductive NodeCall :=
  | PinAdd (c : cid.Cid)
  | PinRm (c : cid.Cid)
  | ObjectStat (c : cid.Cid)
  | UnixfsAdd (data : string)
  | PinUpdate (c1 c2 : cid.Cid).

Record Node := mkNode {
  pinset : gset cid.Cid;
  calls : list NodeCall;
  nfaults : list bool;
}.

Definition Pin_Rm (c : cid.Cid) (n : Node) : Node * option error :=
  if nextFails (nfaults n)
  then (mkNode (pinset n) (calls n ++ [PinRm c]) (tail (nfaults n)), Some ErrExternal)
  else (mkNode (pinset n ∖ {[c]}) (calls n ++ [PinRm c]) (tail (nfaults n)), None).

Definition Pin_Add (c : cid.Cid) (n : Node) : Node * option error :=
  if nextFails (nfaults n)
  then (mkNode (pinset n) (calls n ++ [PinAdd c]) (tail (nfaults n)), Some ErrExternal)
  else (mkNode ({[c]} ∪ pinset n) (calls n ++ [PinAdd c]) (tail (nfaults n)), None).

Definition Object_Stat (c : cid.Cid) (size : nat) (n : Node)
  : Node * (nat * option error) :=
  if nextFails (nfaults n)
  then (mkNode (pinset n) (calls n ++ [ObjectStat c]) (tail (nfaults n)),
        (0, Some ErrExternal))
  else (mkNode (pinset n) (calls n ++ [ObjectStat c]) (tail (nfaults n)),
        (size, None)).

(** CoreIpfs is an implementation of HotStorage interface which saves data
    into a remote go-ipfs using the HTTP API. *)
Record CoreIpfs := mkCoreIpfs {
  ipfs : Node;
  ps : Store;
}.

(** The body of the loop of [getGCCandidates] for one [stagedPin]. *)
Definition gcable (h : Heap) (excludeMap : gset cid.Cid) (olderThan : Z)
  (stagedPin : PinnedCid) : bool :=
  if decide (Cid stagedPin ∈ excludeMap) then false
  else forallb (λ sp, negb (olderThan <? CreatedAt sp)%Z) (elems h (Pins stagedPin)).

Definition getGCCandidates (pref exclude : list cid.Cid) (olderThan : Z)
  (ci : CoreIpfs) : CoreIpfs * (list cid.Cid * option error) :=
  match GetAllOnlyStaged pref (ps ci) with
  | (s, (_, Some err)) => (mkCoreIpfs (ipfs ci) s, ([], Some (ErrGetStaged err)))
  | (s, (lst, None)) =>
      let excludeMap : gset cid.Cid := list_to_set exclude in
      let unpinList :=
        foldl (λ unpinList stagedPin,
                 if gcable (heap s) excludeMap olderThan stagedPin
                 then unpinList ++ [Cid stagedPin] else unpinList)
              [] lst in
      (mkCoreIpfs (ipfs ci) s, (unpinList, None))
  end.

Definition unpinStaged (c : cid.Cid) (ci : CoreIpfs) : CoreIpfs * option error :=
  let '(s, (count, stagedCount)) := RefCount c (ps ci) in
  if decide (count ≠ stagedCount) then
    (mkCoreIpfs (ipfs ci) s, Some (ErrNotOnlyStagePins c count stagedCount))
  else
    match Pin_Rm c (ipfs ci) with
    | (n, Some err) => (mkCoreIpfs n s, Some (ErrUnpin err))
    | (n, None) =>
        match RemoveStaged c s with
        | (s', Some err) => (mkCoreIpfs n s', Some (ErrRemoveAllStaged c err))
        | (s', None) => (mkCoreIpfs n s', None)
        end
    end.

(** The loop of [GCStaged]: it leaves at the first error. *)
Fixpoint unpinEach (unpinLst : list cid.Cid) (ci : CoreIpfs)
  : CoreIpfs * option error :=
  match unpinLst with
  | [] => (ci, None)
  | c :: rest =>
      match unpinStaged c ci with
      | (ci', Some err) => (ci', Some (ErrUnpin err))
      | (ci', None) => unpinEach rest ci'
      end
  end.

(** GCStaged unpins Cids that are only pinned by Stage() calls and all pins
    satisfy the filters. A nil slice is the empty list. *)
Definition GCStaged (pref exclude : list cid.Cid) (olderThan : Z)
  (ci : CoreIpfs) : CoreIpfs * (list cid.Cid * option error) :=
  match getGCCandidates pref exclude olderThan ci with
  | (ci1, (_, Some err)) => (ci1, ([], Some (ErrCandidates err)))
  | (ci1, (unpinLst, None)) =>
      match unpinEach unpinLst ci1 with
      | (ci2, Some err) => (ci2, ([], Some err))
      | (ci2, None) => (ci2, (unpinLst, None))
      end
  end.

(** unpin, behind [Unpin]: unpins a Cid for an APIID. *)
Definition unpin (iid : ffs.APIID) (c : cid.Cid) (ci : CoreIpfs)
  : CoreIpfs * option error :=
  let '(s, (count, _)) := RefCount c (ps ci) in
  if decide (count = 0) then
    (mkCoreIpfs (ipfs ci) s, Some (ErrCidNotPinned c iid))
  else
    let '(n, e) :=
      if decide (count = 1) then Pin_Rm c (ipfs ci) else (ipfs ci, None) in
    match e with
    | Some err => (mkCoreIpfs n s, Some (ErrUnpin err))
    | None =>
        match Remove iid c s with
        | (s', Some err) => (mkCoreIpfs n s', Some (ErrRemovePin err))
        | (s', None) => (mkCoreIpfs n s', None)
        end
    end.

(** Pin a cid for an APIID. If some APIID already pinned this Cid in the
    underlying go-ipfs node, then we don't need to call the Pin API, just
    count the reference from this APIID. The store's [IsPinned] is called
    IsPinnedInNode at this call site. *)
Definition Pin (growslice : nat → nat) (now : Z) (size : nat)
  (iid : ffs.APIID) (c : cid.Cid) (ci : CoreIpfs)
  : CoreIpfs * (nat * option error) :=
  let '(s0, pinned) := IsPinned c (ps ci) in
  let '(n1, e1) := if pinned then (ipfs ci, None) else Pin_Add c (ipfs ci) in
  match e1 with
  | Some err => (mkCoreIpfs n1 s0, (0, Some (ErrPinning c err)))
  | None =>
      match Object_Stat c size n1 with
      | (n2, (_, Some err)) => (mkCoreIpfs n2 s0, (0, Some (ErrStat c err)))
      | (n2, (sz, None)) =>
          match Add growslice now iid c s0 with
          | (s1, Some err) => (mkCoreIpfs n2 s1, (0, Some (ErrSavePin err)))
          | (s1, None) => (mkCoreIpfs n2 s1, (sz, None))
          end
      end
  end.

(** Unpin unpins a Cid for an APIID. *)
Definition Unpin (iid : ffs.APIID) (c : cid.Cid) (ci : CoreIpfs)
  : CoreIpfs * option error :=
  unpin iid c ci.

(** [Unixfs().Add(r, options.Unixfs.Pin(true))]: the node stores the data,
    pins it and answers its Cid, which [cidOf] computes from the data. *)
Definition Unixfs_Add (cidOf : string → cid.Cid) (data : string) (n : Node)
  : Node * (cid.Cid * option error) :=
  if nextFails (nfaults n)
  then (mkNode (pinset n) (calls n ++ [UnixfsAdd data]) (tail (nfaults n)),
        ("", Some ErrExternal))
  else (mkNode ({[cidOf data]} ∪ pinset n) (calls n ++ [UnixfsAdd data])
               (tail (nfaults n)),
        (cidOf data, None)).

(** [Pin().Update(p1, p2)]: the node moves the pin from [c1] to [c2]. *)
Definition Pin_Update (c1 c2 : cid.Cid) (n : Node) : Node * option error :=
  if nextFails (nfaults n)
  then (mkNode (pinset n) (calls n ++ [PinUpdate c1 c2]) (tail (nfaults n)),
        Some ErrExternal)
  else (mkNode ({[c2]} ∪ (pinset n ∖ {[c1]})) (calls n ++ [PinUpdate c1 c2])
               (tail (nfaults n)),
        None).

(** Stage creates a stage-pin for a data stream for an APIID. The store's
    [IsPinnedBy] is called IsPinned at this call site; [cid.Undef] is the
    empty Cid. *)
Definition Stage (growslice : nat → nat) (cidOf : string → cid.Cid) (now : Z)
  (iid : ffs.APIID) (data : string) (ci : CoreIpfs)
  : CoreIpfs * (cid.Cid * option error) :=
  match Unixfs_Add cidOf data (ipfs ci) with
  | (n, (_, Some err)) => (mkCoreIpfs n (ps ci), ("", Some (ErrAddData err)))
  | (n, (c, None)) =>
      let '(s0, held) := IsPinnedBy iid c (ps ci) in
      if held then (mkCoreIpfs n s0, (c, None))
      else
        match AddStaged growslice now iid c s0 with
        | (s1, Some err) => (mkCoreIpfs n s1, ("", Some (ErrSavePin err)))
        | (s1, None) => (mkCoreIpfs n s1, (c, None))
        end
  end.

(** Replace moves the pin from c1 to c2. If c2 was already pinned from a
    stage, it's considered fully-pinned. *)
Definition Replace (growslice : nat → nat) (now : Z) (size : nat)
  (iid : ffs.APIID) (c1 c2 : cid.Cid) (ci : CoreIpfs)
  : CoreIpfs * (nat * option error) :=
  let '(s1, (c1refcount, _)) := RefCount c1 (ps ci) in
  let '(s2, (c2refcount, _)) := RefCount c2 s1 in
  if decide (c1refcount = 0) then
    (mkCoreIpfs (ipfs ci) s2, (0, Some ErrReplaceNotPinned))
  else
    let '(n1, e1) :=
      if decide (c1refcount = 1 ∧ c2refcount = 0) then
        match Pin_Update c1 c2 (ipfs ci) with
        | (n, Some err) => (n, Some (ErrUpdate c1 c2 err))
        | (n, None) => (n, None)
        end
      else if decide (c2refcount = 0) then
        match Pin_Add c2 (ipfs ci) with
        | (n, Some err) => (n, Some (ErrPinning c2 err))
        | (n, None) => (n, None)
        end
      else (ipfs ci, None) in
    match e1 with
    | Some err => (mkCoreIpfs n1 s2, (0, Some err))
    | None =>
        match Object_Stat c2 size n1 with
        | (n2, (_, Some err)) => (mkCoreIpfs n2 s2, (0, Some (ErrStat c2 err)))
        | (n2, (sz, None)) =>
            match Remove iid c1 s2 with
            | (s3, Some err) => (mkCoreIpfs n2 s3, (0, Some (ErrRemoveCid err)))
            | (s3, None) =>
                match Add growslice now iid c2 s3 with
                | (s4, Some err) => (mkCoreIpfs n2 s4, (0, Some (ErrAddCid err)))
                | (s4, None) => (mkCoreIpfs n2 s4, (sz, None))
                end
            end
        end
    end.

End coreipfs.

(** * The earlier revision of the two packages

    Before pins were counted per tenant, the store kept one marker for each
    staged Cid and nothing for a pinned one, and the adapter kept a copy of
    the node's pin set. The embedding follows the same conventions: the
    datastore and the node fail as their fault scripts tell, and the time is
    an argument. *)

Module rev0.
Import pinstore.

(** One constructor for each [fmt.Errorf] of this revision. A datastore that
    keeps documents makes the marshaling errors impossible. *)
Inductive error :=
  | ErrExternal
  | ErrPut (err : error)            (* "put in datastore: %s" *)
  | ErrDelete (err : error)         (* "delete in datastore: %s" *)
  | ErrTxn (err : error)            (* "creating txn: %s" *)
  | ErrQuery (err : error)          (* "executing query: %s" *)
  | ErrQueryItem                    (* "query item result: %s" *)
  | ErrLoad (err : error)           (* "loading stroage jobstore: %s" *)
  | ErrLs (err : error)             (* "getting pins from IPFS: %s" *)
  | ErrAddData (err : error)        (* "adding data to ipfs: %s" *)
  | ErrAddTransient (err : error)   (* "adding transient pin: %s" *)
  | ErrPinning (c : cid.Cid) (err : error)  (* "pinning cid %s: %s" *)
  | ErrStat (c : cid.Cid) (err : error)     (* "getting stats of cid %s: %s" *)
  | ErrDeleteTransient (err : error)        (* "deleting transient pin: %s" *)
  | ErrUpdate (c1 c2 : cid.Cid) (err : error) (* "updating pin %s to %s: %s" *)
  | ErrRemoveTransient (err : error)        (* "removing transient pin: %s" *)
  | ErrCandidates (err : error)     (* "getting gc cid candidates: %s" *)
  | ErrUnpin (err : error)          (* "unpinning cid from ipfs node: %s" *)
  | ErrGetStaged (err : error).     (* "get staged pins: %s" *)

(** ** Package pinstore *)

Module pinstore.

(** PinnedCid describe a pinned Cid. *)
Record PinnedCid := mkPinnedCid {
  Cid : cid.Cid;
  CreatedAt : Z;
}.

Record Datastore := mkDatastore {
  kv : gmap string PinnedCid;
  faults : list bool;
}.

Definition Put (k : string) (v : PinnedCid) (d : Datastore)
  : Datastore * option error :=
  if nextFails (faults d)
  then (mkDatastore (kv d) (tail (faults d)), Some ErrExternal)
  else (mkDatastore (<[k := v]> (kv d)) (tail (faults d)), None).

Definition Delete (k : string) (d : Datastore) : Datastore * option error :=
  if nextFails (faults d)
  then (mkDatastore (kv d) (tail (faults d)), Some ErrExternal)
  else (mkDatastore (delete k (kv d)) (tail (faults d)), None).

(** [ds.NewTransaction(true)]: a read-only view of the datastore. *)
Definition NewTransaction (d : Datastore) : Datastore * option error :=
  if nextFails (faults d)
  then (mkDatastore (kv d) (tail (faults d)), Some ErrExternal)
  else (mkDatastore (kv d) (tail (faults d)), None).

Definition stagedBase : string := "/staged".

(** [stagedBase.ChildString(c.String())] *)
Definition makeStagedKey (c : cid.Cid) : string := "/staged/" +:+ c.

(** [txn.Query(query.Query{Prefix: stagedBase.String()})], in the order the
    datastore delivers the entries ([pref], read as for [rangeMap]). *)
Definition Query (pref : list string) (d : Datastore)
  : Datastore * (list (string * PinnedCid) * option error) :=
  if nextFails (faults d)
  then (mkDatastore (kv d) (tail (faults d)), ([], Some ErrExternal))
  else (mkDatastore (kv d) (tail (faults d)),
        (filter (λ e, String.prefix (stagedBase +:+ "/") e.1 = true)
                (rangeMap pref (kv d)), None)).

Record Store := mkStore {
  ds : Datastore;
}.

Definition New (d : Datastore) : Store * option error := (mkStore d, None).

Definition AddStaged (now : Z) (c : cid.Cid) (s : Store) : Store * option error :=
  let r := mkPinnedCid c now in
  let key := makeStagedKey c in
  match Put key r (ds s) with
  | (d, Some err) => (mkStore d, Some (ErrPut err))
  | (d, None) => (mkStore d, None)
  end.

Definition RemoveStaged (c : cid.Cid) (s : Store) : Store * option error :=
  let key := makeStagedKey c in
  match Delete key (ds s) with
  | (d, Some err) => (mkStore d, Some (ErrDelete err))
  | (d, None) => (mkStore d, None)
  end.

(** The loop of [GetAllStaged] over the results of the query; each result
    may come as an error. *)
Fixpoint collect (items : list (string * PinnedCid)) (fs : list bool)
  (ret : list PinnedCid) : list bool * (list PinnedCid * option error) :=
  match items with
  | [] => (fs, (ret, None))
  | res :: rest =>
      if nextFails fs then (tail fs, ([], Some ErrQueryItem))
      else collect rest (tail fs) (ret ++ [res.2])
  end.

Definition GetAllStaged (pref : list string) (s : Store)
  : Store * (list PinnedCid * option error) :=
  match NewTransaction (ds s) with
  | (d1, Some err) => (mkStore d1, ([], Some (ErrTxn err)))
  | (d1, None) =>
      match Query pref d1 with
      | (d2, (_, Some err)) => (mkStore d2, ([], Some (ErrQuery err)))
      | (d2, (items, None)) =>
          let '(fs, r) := collect items (faults d2) [] in
          (mkStore (mkDatastore (kv d2) fs), r)
      end
  end.

End pinstore.

(** ** Package coreipfs *)

Module coreipfs.
Import pinstore.

Inductive NodeCall :=
  | PinAdd (c : cid.Cid)
  | PinRm (c : cid.Cid)
  | ObjectStat (c : cid.Cid)
  | UnixfsAdd (data : string)
  | PinUpdate (c1 c2 : cid.Cid)
  | PinLs.

(** The node: the Cids it pins recursively, the calls it received and the
    script of its coming failures. *)
Record Node := mkNode {
  pins : gset cid.Cid;
  calls : list NodeCall;
  nfaults : list bool;
}.

Definition Pin_Rm (c : cid.Cid) (n : Node) : Node * option error :=
  if nextFails (nfaults n)
  then (mkNode (pins n) (calls n ++ [PinRm c]) (tail (nfaults n)), Some ErrExternal)
  else (mkNode (pins n ∖ {[c]}) (calls n ++ [PinRm c]) (tail (nfaults n)), None).

Definition Pin_Add (c : cid.Cid) (n : Node) : Node * option error :=
  if nextFails (nfaults n)
  then (mkNode (pins n) (calls n ++ [PinAdd c]) (tail (nfaults n)), Some ErrExternal)
  else (mkNode ({[c]} ∪ pins n) (calls n ++ [PinAdd c]) (tail (nfaults n)), None).

Definition Pin_Update (c1 c2 : cid.Cid) (n : Node) : Node * option error :=
  if nextFails (nfaults n)
  then (mkNode (pins n) (calls n ++ [PinUpdate c1 c2]) (tail (nfaults n)),
        Some ErrExternal)
  else (mkNode ({[c2]} ∪ (pins n ∖ {[c1]})) (calls n ++ [PinUpdate c1 c2])
               (tail (nfaults n)),
        None).

(** [Pin().Ls(ctx, options.Pin.Ls.Recursive())] *)
Definition Pin_Ls (n : Node) : Node * (gset cid.Cid * option error) :=
  if nextFails (nfaults n)
  then (mkNode (pins n) (calls n ++ [PinLs]) (tail (nfaults n)), (∅, Some ErrExternal))
  else (mkNode (pins n) (calls n ++ [PinLs]) (tail (nfaults n)), (pins n, None)).

Definition Object_Stat (c : cid.Cid) (size : nat) (n : Node)
  : Node * (nat * option error) :=
  if nextFails (nfaults n)
  then (mkNode (pins n) (calls n ++ [ObjectStat c]) (tail (nfaults n)),
        (0, Some ErrExternal))
  else (mkNode (pins n) (calls n ++ [ObjectStat c]) (tail (nfaults n)),
        (size, None)).

Definition Unixfs_Add (cidOf : string → cid.Cid) (data : string) (n : Node)
  : Node * (cid.Cid * option error) :=
  if nextFails (nfaults n)
  then (mkNode (pins n) (calls n ++ [UnixfsAdd data]) (tail (nfaults n)),
        ("", Some ErrExternal))
  else (mkNode ({[cidOf data]} ∪ pins n) (calls n ++ [UnixfsAdd data])
               (tail (nfaults n)),
        (cidOf data, None)).

(** CoreIpfs is an implementation of HotStorage interface which saves data
    into a remote go-ipfs using the HTTP API. *)
Record CoreIpfs := mkCoreIpfs {
  ipfs : Node;
  ps : Store;
  pinset : gset cid.Cid;
}.

Definition fillPinsetCache (ci : CoreIpfs) : CoreIpfs * option error :=
  match Pin_Ls (ipfs ci) with
  | (n, (_, Some err)) => (mkCoreIpfs n (ps ci) (pinset ci), Some (ErrLs err))
  | (n, (listed, None)) => (mkCoreIpfs n (ps ci) listed, None)
  end.

(** New returns a new CoreIpfs instance, or the error and no instance; the
    node is returned beside it, as the call left it. *)
Definition New (d : Datastore) (n : Node)
  : Node * (option CoreIpfs * option error) :=
  match pinstore.New d with
  | (_, Some err) => (n, (None, Some (ErrLoad err)))
  | (s, None) =>
      match fillPinsetCache (mkCoreIpfs n s ∅) with
      | (ci, Some err) => (ipfs ci, (None, Some err))
      | (ci, None) => (ipfs ci, (Some ci, None))
      end
  end.

(** IsPinned return true if a particular Cid is pinned, both for staged or
    stored cases. *)
Definition IsPinned (c : cid.Cid) (ci : CoreIpfs) : CoreIpfs * (bool * option error) :=
  (ci, (bool_decide (c ∈ pinset ci), None)).

(** Stage adds an io.Reader data as file in the IPFS node. *)
Definition Stage (cidOf : string → cid.Cid) (now : Z) (data : string)
  (ci : CoreIpfs) : CoreIpfs * (cid.Cid * option error) :=
  match Unixfs_Add cidOf data (ipfs ci) with
  | (n, (_, Some err)) =>
      (mkCoreIpfs n (ps ci) (pinset ci), ("", Some (ErrAddData err)))
  | (n, (c, None)) =>
      match AddStaged now c (ps ci) with
      | (s, Some err) =>
          (mkCoreIpfs n s (pinset ci), ("", Some (ErrAddTransient err)))
      | (s, None) => (mkCoreIpfs n s ({[c]} ∪ pinset ci), (c, None))
      end
  end.

(** Pin a cid in the underlying storage. If the cid was already pinned by a
    stage, the Cid is considered fully-pinned. *)
Definition Pin (size : nat) (c : cid.Cid) (ci : CoreIpfs)
  : CoreIpfs * (nat * option error) :=
  match Pin_Add c (ipfs ci) with
  | (n1, Some err) =>
      (mkCoreIpfs n1 (ps ci) (pinset ci), (0, Some (ErrPinning c err)))
  | (n1, None) =>
      match Object_Stat c size n1 with
      | (n2, (_, Some err)) =>
          (mkCoreIpfs n2 (ps ci) (pinset ci), (0, Some (ErrStat c err)))
      | (n2, (sz, None)) =>
          match RemoveStaged c (ps ci) with
          | (s, Some err) =>
              (mkCoreIpfs n2 s (pinset ci), (0, Some (ErrDeleteTransient err)))
          | (s, None) => (mkCoreIpfs n2 s ({[c]} ∪ pinset ci), (sz, None))
          end
      end
  end.

(** Replace moves the pin from c1 to c2. If c2 was already pinned from a
    stage, it's considered fully-pinned. *)
Definition Replace (size : nat) (c1 c2 : cid.Cid) (ci : CoreIpfs)
  : CoreIpfs * (nat * option error) :=
  match Pin_Update c1 c2 (ipfs ci) with
  | (n1, Some err) =>
      (mkCoreIpfs n1 (ps ci) (pinset ci), (0, Some (ErrUpdate c1 c2 err)))
  | (n1, None) =>
      match RemoveStaged c2 (ps ci) with
      | (s, Some err) =>
          (mkCoreIpfs n1 s (pinset ci), (0, Some (ErrRemoveTransient err)))
      | (s, None) =>
          match Object_Stat c2 size n1 with
          | (n2, (_, Some err)) =>
              (mkCoreIpfs n2 s (pinset ci), (0, Some (ErrStat c2 err)))
          | (n2, (sz, None)) =>
              (mkCoreIpfs n2 s ({[c2]} ∪ (pinset ci ∖ {[c1]})), (sz, None))
          end
      end
  end.

(** The body of the loop of [getGCCandidates] for one [stagedPin]. *)
Definition gcable (excludeMap : gset cid.Cid) (olderThan : Z)
  (stagedPin : PinnedCid) : bool :=
  if (olderThan <? CreatedAt stagedPin)%Z then false
  else if decide (Cid stagedPin ∈ excludeMap) then false
  else true.

Definition getGCCandidates (pref : list string) (exclude : list cid.Cid)
  (olderThan : Z) (ci : CoreIpfs) : CoreIpfs * (list cid.Cid * option error) :=
  match GetAllStaged pref (ps ci) with
  | (s, (_, Some err)) =>
      (mkCoreIpfs (ipfs ci) s (pinset ci), ([], Some (ErrGetStaged err)))
  | (s, (lst, None)) =>
      let excludeMap : gset cid.Cid := list_to_set exclude in
      let unpinList :=
        foldl (λ unpinList stagedPin,
                 if gcable excludeMap olderThan stagedPin
                 then unpinList ++ [Cid stagedPin] else unpinList)
              [] lst in
      (mkCoreIpfs (ipfs ci) s (pinset ci), (unpinList, None))
  end.

Definition unpin (c : cid.Cid) (ci : CoreIpfs) : CoreIpfs * option error :=
  match Pin_Rm c (ipfs ci) with
  | (n, Some err) => (mkCoreIpfs n (ps ci) (pinset ci), Some (ErrUnpin err))
  | (n, None) =>
      match RemoveStaged c (ps ci) with
      | (s, Some err) => (mkCoreIpfs n s (pinset ci), Some (ErrDeleteTransient err))
      | (s, None) => (mkCoreIpfs n s (pinset ci ∖ {[c]}), None)
      end
  end.

(** Unpin unpins a cid. *)
Definition Unpin (c : cid.Cid) (ci : CoreIpfs) : CoreIpfs * option error :=
  unpin c ci.

(** The loop of [GCStaged]: it leaves at the first error. *)
Fixpoint unpinEach (unpinLst : list cid.Cid) (ci : CoreIpfs)
  : CoreIpfs * option error :=
  match unpinLst with
  | [] => (ci, None)
  | c :: rest =>
      match unpin c ci with
      | (ci', Some err) => (ci', Some (ErrUnpin err))
      | (ci', None) => unpinEach rest ci'
      end
  end.

Definition GCStaged (pref : list string) (exclude : list cid.Cid)
  (olderThan : Z) (ci : CoreIpfs) : CoreIpfs * (list cid.Cid * option error) :=
  match getGCCandidates pref exclude olderThan ci with
  | (ci1, (_, Some err)) => (ci1, ([], Some (ErrCandidates err)))
  | (ci1, (unpinLst, None)) =>
      match unpinEach unpinLst ci1 with
      | (ci2, Some err) => (ci2, ([], Some err))
      | (ci2, None) => (ci2, (unpinLst, None))
      end
  end.

End coreipfs.

End rev0.

(** * Vocabulary of the specification *)

Import coreipfs pinstore.

(** The pin records of [c] as every reader of the cache sees them: the cells
    of the cached slice, none when [c] has no entry. *)
Definition pinsOf (c : cid.Cid) (s : Store) : list Pin :=
  elems (heap s) (Pins (entry c s)).

(** A cached entry is backed when it sits under its own Cid and its header
    fits its array. *)
Definition backedEntry (h : Heap) (c : cid.Cid) (pc : PinnedCid) : Prop :=
  Cid pc = c ∧ len (Pins pc) ≤ cap (Pins pc) ∧
  cap (Pins pc) ≤ length (array h (ptr (Pins pc))).

Definition backed (c : cid.Cid) (s : Store) : Prop :=
  ∀ pc, cache s !! c = Some pc → backedEntry (heap s) c pc.

(** Two cached entries never share an array. *)
Definition unaliased (s : Store) : Prop :=
  ∀ c1 c2 pc1 pc2, c1 ≠ c2 →
    cache s !! c1 = Some pc1 → cache s !! c2 = Some pc2 →
    0 < cap (Pins pc1) → 0 < cap (Pins pc2) →
    ptr (Pins pc1) ≠ ptr (Pins pc2).

Definition wf (s : Store) : Prop :=
  (∀ c, backed c s) ∧ unaliased s.

(** Every mutator edits the array of one entry, in place or in a fresh array,
    and hands [persist] a header for it. [mutation s c h sl] says that the
    heap [h] and the header [sl] made for [c] respect the other entries. *)
Definition mutation (s : Store) (c : cid.Cid) (h : Heap) (sl : Slice) : Prop :=
  (∀ p, length (array (heap s) p) ≤ length (array h p)) ∧
  (len sl ≤ cap sl ∧ cap sl ≤ length (array h (ptr sl))) ∧
  (∀ c0 pc0, c0 ≠ c → cache s !! c0 = Some pc0 →
     elems h (Pins pc0) = elems (heap s) (Pins pc0) ∧
     (0 < cap sl → 0 < cap (Pins pc0) → ptr sl ≠ ptr (Pins pc0))).

(** Each mutator either leaves the store as it is or persists a mutation. *)
Definition mutates (s : Store) (c : cid.Cid) (r : Store * option error) : Prop :=
  r.1 = s ∨
  ∃ h sl, mutation s c h sl ∧
          r = persist (mkPinnedCid c sl) (mkStore h (ds s) (cache s)).

(** A fault script without failure. *)
Definition quiet (fs : list bool) : Prop := Forall (λ b, b = false) fs.

(** A GC candidate for the exclusion list and the cutoff: every record of the
    entry is staged, the Cid is not excluded, and every record was created
    at or before the cutoff. *)
Definition gcCandidate (h : Heap) (exclude : list cid.Cid) (olderThan : Z)
  (pc : PinnedCid) : Prop :=
  Forall (λ p, Staged p = true) (elems h (Pins pc)) ∧
  (Cid pc ∉ exclude) ∧
  Forall (λ p, (CreatedAt p ≤ olderThan)%Z) (elems h (Pins pc)).

#[global] Instance gcCandidate_dec h exclude olderThan pc :
  Decision (gcCandidate h exclude olderThan pc).
Proof. unfold gcCandidate. apply _. Defined.

(** [c] passes the checks of [unpinStaged] and of [RemoveStaged]. *)
Definition purgeable (s : Store) (c : cid.Cid) : Prop :=
  ∃ pc, cache s !! c = Some pc ∧
        forallb Staged (elems (heap s) (Pins pc)) = true ∧
        length (elems (heap s) (Pins pc)) = len (Pins pc).

(** At most one PinRecord per TenantId in the entry of [c]. *)
Definition oneRecordPerTenant (c : cid.Cid) (s : Store) : Prop :=
  NoDup (APIID <$> pinsOf c s).

(** A ledger that has just been built over an empty datastore whose coming
    failures are [fs]. *)
Definition newLedger (fs : list bool) : Store :=
  mkStore [] (mkDatastore ∅ fs) ∅.

(** The scenario of the exclusion test: one tenant stages two Cids at the same
    time 100 on a new ledger; the node pins both; nothing is scripted to
    fail. *)
Definition twoStaged (growslice : nat → nat) : CoreIpfs :=
  let s1 := (AddStaged growslice 100 "t" "c1" (newLedger [])).1 in
  let s2 := (AddStaged growslice 100 "t" "c2" s1).1 in
  mkCoreIpfs (mkNode {[ "c1"; "c2" ]} [] []) s2.

(** One growth policy, for the concrete runs: a full slice doubles. *)
Definition doubling (c : nat) : nat := 2 * c.

(** A ledger where tenant A staged "c" at time 1 and tenant B then pinned it
    at time 2; [fs] scripts the datastore. *)
Definition ledgerAB (fs : list bool) : Store :=
  (Add doubling 2 "B" "c" (AddStaged doubling 1 "A" "c" (newLedger fs)).1).1.

(** The same, after tenant C pinned "c" at time 3. *)
Definition ledgerABC (fs : list bool) : Store :=
  (Add doubling 3 "C" "c" (ledgerAB fs)).1.

(** A ledger where tenant A alone pinned "c", at time 1. *)
Definition ledgerA : Store := (Add doubling 1 "A" "c" (newLedger [])).1.

(** Adapters for the concrete runs: over a new ledger and a node that pins
    nothing; over [ledgerA] and over [ledgerAB], with a node that pins "c".
    Nothing is scripted to fail. *)
Definition ciNew : CoreIpfs := mkCoreIpfs (mkNode ∅ [] []) (newLedger []).
Definition ciA : CoreIpfs := mkCoreIpfs (mkNode {[ "c" ]} [] []) ledgerA.
Definition ciAB : CoreIpfs := mkCoreIpfs (mkNode {[ "c" ]} [] []) (ledgerAB []).

(** The ledger states that sequences of the four mutators reach. *)
Inductive reachable (growslice : nat → nat) (fs : list bool) : Store → Prop :=
  | reach_new : reachable growslice fs (newLedger fs)
  | reach_AddStaged now iid c s :
      reachable growslice fs s →
      reachable growslice fs (AddStaged growslice now iid c s).1
  | reach_Add now iid c s :
      reachable growslice fs s →
      reachable growslice fs (Add growslice now iid c s).1
  | reach_Remove iid c s :
      reachable growslice fs s →
      reachable growslice fs (Remove iid c s).1
  | reach_RemoveStaged c s :
      reachable growslice fs s →
      reachable growslice fs (RemoveStaged c s).1.

(** What the cache shows: for each Cid with an entry, its records. *)
Definition view (s : Store) : gmap cid.Cid (list Pin) :=
  (λ pc, elems (heap s) (Pins pc)) <$> cache s.

(** The datastore mirrors the cache: it holds, under the key of each cached
    Cid, the document of the entry that the cache shows, and no other key. *)
Definition mirrors (s : Store) : Prop :=
  ∀ k v, kv (ds s) !! k = Some v ↔
         ∃ c, k = makeKey c ∧ v.1 = c ∧ view s !! c = Some v.2.

(** The documents of a scan, gathered as [populateCache] gathers them: a
    later document replaces an earlier one of the same Cid. *)
Definition gather (m : gmap cid.Cid (list Pin))
  (items : list (string * (cid.Cid * list Pin))) : gmap cid.Cid (list Pin) :=
  foldl (λ m res, <[res.2.1 := res.2.2]> m) m items.

(** The ledger states reached without any purge: by [AddStaged], [Add] and
    [Remove] alone. *)
Inductive edited (growslice : nat → nat) (fs : list bool) : Store → Prop :=
  | edit_new : edited growslice fs (newLedger fs)
  | edit_AddStaged now iid c s :
      edited growslice fs s →
      edited growslice fs (AddStaged growslice now iid c s).1
  | edit_Add now iid c s :
      edited growslice fs s →
      edited growslice fs (Add growslice now iid c s).1
  | edit_Remove iid c s :
      edited growslice fs s →
      edited growslice fs (Remove iid c s).1.

(** The identifiers that a run of the loop of [GCStaged] over [lst] unpins
    and purges before it stops. *)
Fixpoint reclaimed (lst : list cid.Cid) (ci : CoreIpfs) : list cid.Cid :=
  match lst with
  | [] => []
  | c :: rest =>
      match unpinStaged c ci with
      | (ci', None) => c :: reclaimed rest ci'
      | (_, Some _) => []
      end
  end.

(** ** Vocabulary for the earlier revision *)

Module P0 := rev0.pinstore.
Module C0 := rev0.coreipfs.

(** The marker that the store of the earlier revision keeps for [c]. *)
Definition marker (c : cid.Cid) (ci : C0.CoreIpfs) : option P0.PinnedCid :=
  P0.kv (P0.ds (C0.ps ci)) !! P0.makeStagedKey c.

(** Every marker sits under the key of its own Cid. *)
Definition keyed (ci : C0.CoreIpfs) : Prop :=
  ∀ k v, P0.kv (P0.ds (C0.ps ci)) !! k = Some v → k = P0.makeStagedKey (P0.Cid v).

(** The adapter's copy of the pin set is the pin set of the node. *)
Definition coherent (ci : C0.CoreIpfs) : Prop :=
  C0.pinset ci = C0.pins (C0.ipfs ci).

(** Neither the node nor the datastore of the adapter is scripted to fail. *)
Definition calm (ci : C0.CoreIpfs) : Prop :=
  quiet (C0.nfaults (C0.ipfs ci)) ∧ quiet (P0.faults (P0.ds (C0.ps ci))).

(** An adapter of the earlier revision as [New] makes it over an empty
    datastore and a node that pins nothing, with nothing scripted to fail. *)
Definition ciNew0 : C0.CoreIpfs :=
  C0.mkCoreIpfs (C0.mkNode ∅ [] []) (P0.mkStore (P0.mkDatastore ∅ [])) ∅.

(** The same adapter after "c" was staged at time 1. *)
Definition ciStaged0 : C0.CoreIpfs := (C0.Stage (λ d, d) 1 "c" ciNew0).1.

(** * Slices and the heap *)

Lemma array_store_same h sl i x :
  array (store h sl i x) (ptr sl) = <[i := x]> (array h (ptr sl)).
Proof.
  unfold array, store. rewrite list_lookup_alter_eq.
  by destruct (h !! ptr sl).
Qed.

Lemma array_store_other h sl i x p :
  p ≠ ptr sl → array (store h sl i x) p = array h p.
Proof.
  intros Hne. unfold array, store. by rewrite list_lookup_alter_ne.
Qed.

Lemma length_array_store h sl i x p :
  length (array (store h sl i x) p) = length (array h p).
Proof.
  destruct (decide (p = ptr sl)) as [->|Hne].
  - by rewrite array_store_same, length_insert.
  - by rewrite array_store_other.
Qed.

Lemma elems_store_same h sl sl' i x :
  ptr sl' = ptr sl →
  elems (store h sl i x) sl' = <[i := x]> (elems h sl').
Proof.
  intros Hp. unfold elems. rewrite Hp, array_store_same.
  destruct (decide (i < len sl')).
  - by rewrite take_insert_lt.
  - rewrite take_insert_ge by lia.
    rewrite list_insert_ge; [done|]. rewrite length_take. lia.
Qed.

Lemma elems_store_other h sl sl' i x :
  ptr sl' ≠ ptr sl → elems (store h sl i x) sl' = elems h sl'.
Proof. intros Hp. unfold elems. by rewrite array_store_other. Qed.

Lemma elems_store_beyond h sl sl' i x :
  len sl' ≤ i → elems (store h sl i x) sl' = elems h sl'.
Proof.
  intros Hi. destruct (decide (ptr sl' = ptr sl)) as [Hp|Hp].
  - rewrite elems_store_same by done.
    rewrite list_insert_ge; [done|]. unfold elems. rewrite length_take. lia.
  - by apply elems_store_other.
Qed.

Lemma length_elems h sl :
  len sl ≤ length (array h (ptr sl)) → length (elems h sl) = len sl.
Proof. intros. unfold elems. rewrite length_take. lia. Qed.

Lemma length_elems_le h sl : length (elems h sl) ≤ len sl.
Proof. unfold elems. rewrite length_take. lia. Qed.

Lemma array_alloc_old h a p :
  p < length h → array (h ++ [a]) p = array h p.
Proof. intros. unfold array. by rewrite lookup_app_l. Qed.

Lemma array_alloc_new h a : array (h ++ [a]) (length h) = a.
Proof. unfold array. by rewrite list_lookup_middle. Qed.

Lemma array_invalid h p : length h ≤ p → array h p = [].
Proof. intros. unfold array. by rewrite lookup_ge_None_2. Qed.

Lemma elems_alloc h a sl :
  len sl ≤ length (array h (ptr sl)) → elems (h ++ [a]) sl = elems h sl.
Proof.
  intros Hl. unfold elems.
  destruct (decide (ptr sl < length h)).
  - by rewrite array_alloc_old.
  - rewrite (array_invalid h) in * by lia. simpl in Hl.
    replace (len sl) with 0 by lia. done.
Qed.

Lemma take_insert_snoc {A} (l : list A) n x :
  n < length l → take (S n) (<[n := x]> l) = take n l ++ [x].
Proof.
  intros Hn. rewrite (take_S_r _ _ x).
  - by rewrite take_insert_ge.
  - by apply list_lookup_insert_eq.
Qed.

(** Moving the last cell over cell [i] and dropping the last cell deletes
    what cell [i] held, up to the order of the cells. *)
Lemma swap_with_last_perm {A} (l : list A) i (y : A) :
  i < length l → l !! (length l - 1) = Some y →
  take (length l - 1) (<[i := y]> l) ≡ₚ delete i l.
Proof.
  intros Hi Hy. destruct l as [|x l _] using rev_ind; [simpl in Hi; lia|].
  rewrite length_app in *; simpl in *.
  replace (length l + 1 - 1) with (length l) in * by lia.
  rewrite list_lookup_middle in Hy by done. simplify_eq.
  destruct (decide (i = length l)) as [->|Hne].
  - rewrite list_insert_id by (by apply list_lookup_middle).
    rewrite take_app_length, delete_middle. by rewrite app_nil_r.
  - assert (i < length l) as Hlt by lia.
    rewrite insert_app_l by done.
    rewrite take_app_length' by (by rewrite length_insert).
    rewrite insert_take_drop, delete_take_drop by done.
    rewrite take_app_le, drop_app_le by lia.
    by rewrite (Permutation_app_comm (drop (S i) l) [y]).
Qed.

Section append_facts.
Variable growslice : nat → nat.

Lemma append_elems h sl x :
  len sl ≤ cap sl → cap sl ≤ length (array h (ptr sl)) →
  elems (append growslice h sl x).1 (append growslice h sl x).2
  = elems h sl ++ [x].
Proof.
  intros Hlc Hca. unfold append. case_decide; simpl.
  - unfold elems; simpl. rewrite array_store_same.
    apply take_insert_snoc. lia.
  - unfold elems at 1; simpl. rewrite array_alloc_new.
    rewrite (cons_middle x), app_assoc.
    apply take_app_length'.
    rewrite length_app, length_elems; simpl; lia.
Qed.

Lemma append_old_elems h sl x sl' :
  len sl' ≤ length (array h (ptr sl')) →
  ptr sl' ≠ ptr sl ∨ len sl' ≤ len sl →
  elems (append growslice h sl x).1 sl' = elems h sl'.
Proof.
  intros Hl Hd. unfold append. case_decide; simpl.
  - destruct Hd as [Hd|Hd].
    + by apply elems_store_other.
    + by apply elems_store_beyond.
  - by apply elems_alloc.
Qed.

Lemma append_len h sl x : len (append growslice h sl x).2 = S (len sl).
Proof. unfold append. by case_decide. Qed.

Lemma append_length_array h sl x p :
  p < length h →
  length (array (append growslice h sl x).1 p) = length (array h p).
Proof.
  intros Hp. unfold append. case_decide; simpl.
  - apply length_array_store.
  - by rewrite array_alloc_old.
Qed.

Lemma append_backed h sl x :
  len sl ≤ cap sl → cap sl ≤ length (array h (ptr sl)) →
  let r := append growslice h sl x in
  len r.2 ≤ cap r.2 ∧ cap r.2 ≤ length (array r.1 (ptr r.2)).
Proof.
  intros Hlc Hca. unfold append. case_decide; simpl.
  - rewrite length_array_store. lia.
  - rewrite array_alloc_new, length_app; simpl.
    rewrite length_replicate, length_elems by lia. lia.
Qed.
End append_facts.

(** * The datastore write *)

Lemma persist_ok r s :
  nextFails (faults (ds s)) = false →
  persist r s =
    (mkStore (heap s)
       (mkDatastore (<[makeKey (Cid r) := (Cid r, elems (heap s) (Pins r))]> (kv (ds s)))
                    (tail (faults (ds s))))
       (<[Cid r := r]> (cache s)), None).
Proof. intros Hf. unfold persist, Put. by rewrite Hf. Qed.

Lemma persist_fail r s :
  nextFails (faults (ds s)) = true →
  persist r s =
    (mkStore (heap s) (mkDatastore (kv (ds s)) (tail (faults (ds s)))) (cache s),
     Some (ErrPut ErrExternal)).
Proof. intros Hf. unfold persist, Put. by rewrite Hf. Qed.

Lemma persist_heap r s : heap (persist r s).1 = heap s.
Proof. unfold persist, Put. by destruct (nextFails _). Qed.

Lemma persist_error r s :
  (persist r s).2 = if nextFails (faults (ds s)) then Some (ErrPut ErrExternal) else None.
Proof. unfold persist, Put. by destruct (nextFails _). Qed.

Lemma persist_cache r s :
  cache (persist r s).1 =
    if nextFails (faults (ds s)) then cache s else <[Cid r := r]> (cache s).
Proof. unfold persist, Put. by destruct (nextFails _). Qed.

Lemma entry_lookup c s pc : cache s !! c = Some pc → entry c s = pc.
Proof. intros H. unfold entry. by rewrite H. Qed.

Lemma entry_heap c h d s : entry c (mkStore h d (cache s)) = entry c s.
Proof. done. Qed.

Lemma entry_Cid c s : backed c s → Cid (entry c s) = c.
Proof.
  intros Hb. unfold entry. destruct (cache s !! c) as [pc|] eqn:E; [|done].
  by destruct (Hb pc E).
Qed.

Lemma entry_backed c s : backed c s → backedEntry (heap s) c (entry c s).
Proof.
  intros Hb. unfold entry. destruct (cache s !! c) as [pc|] eqn:E.
  - by apply Hb.
  - repeat split; simpl; lia.
Qed.

Lemma findPin_Some t ps i p :
  findPin t ps = Some (i, p) →
  ps !! i = Some p ∧ APIID p = t ∧ ∀ j q, ps !! j = Some q → j < i → APIID q ≠ t.
Proof. unfold findPin. by rewrite list_find_Some. Qed.

Lemma findPin_None t ps : findPin t ps = None → Forall (λ p, APIID p ≠ t) ps.
Proof. unfold findPin. by rewrite list_find_None. Qed.

(** What the cache shows for [c] once [persist r] has run, when the slice
    that was shown before is shown unchanged by the heap handed to persist
    whenever the write fails. *)
Lemma pinsOf_persist c r s :
  Cid r = c →
  pinsOf c (persist r s).1 =
    if nextFails (faults (ds s)) then pinsOf c s else elems (heap s) (Pins r).
Proof.
  intros Hc. unfold pinsOf. rewrite persist_heap.
  unfold entry at 1. rewrite persist_cache.
  destruct (nextFails _); [done|].
  by rewrite Hc, lookup_insert_eq.
Qed.

(** * The ledger *)

Section ledger.
Variable growslice : nat → nat.

(** What [AddStaged] leaves in the cache for [c], in each of its branches and
    whether or not the write to the datastore fails. *)
Lemma AddStaged_pinsOf now t c s :
  backed c s →
  pinsOf c (AddStaged growslice now t c s).1 =
    match findPin t (pinsOf c s) with
    | Some (i, p) =>
        if Staged p then <[i := mkPin t true now]> (pinsOf c s) else pinsOf c s
    | None =>
        if nextFails (faults (ds s)) then pinsOf c s
        else pinsOf c s ++ [mkPin t true now]
    end.
Proof.
  intros Hb. pose proof (entry_backed c s Hb) as (HC & Hlc & Hca).
  unfold AddStaged. fold (pinsOf c s).
  destruct (findPin t (pinsOf c s)) as [[i p]|] eqn:Hf.
  - apply findPin_Some in Hf as (Hi & Ht & _).
    destruct (Staged p) eqn:Hs; simpl; [|done].
    rewrite pinsOf_persist by done. subst t. simpl.
    unfold pinsOf at 1; simpl. rewrite entry_heap.
    rewrite !elems_store_same by done.
    by destruct (nextFails _).
  - destruct (append growslice (heap s) (Pins (entry c s)) (mkPin t true now))
      as [h sl] eqn:Ha.
    rewrite pinsOf_persist by done. simpl.
    destruct (nextFails _).
    + unfold pinsOf; simpl. rewrite entry_heap. replace h with
        (append growslice (heap s) (Pins (entry c s)) (mkPin t true now)).1
        by (by rewrite Ha).
      apply append_old_elems; [lia | by right].
    + replace h with
        (append growslice (heap s) (Pins (entry c s)) (mkPin t true now)).1
        by (by rewrite Ha).
      replace sl with
        (append growslice (heap s) (Pins (entry c s)) (mkPin t true now)).2
        by (by rewrite Ha).
      by apply append_elems.
Qed.

(** C3. [AddStaged] never downgrades a durable record: a durable record of
    the entry is the same afterwards, whatever the call did. When the record
    the ledger finds for [t] is durable the call succeeds and changes
    nothing; when it is staged and the write succeeds its CreatedAt becomes
    [now]; when [t] has no record and the write succeeds the record
    {staged: true, createdAt: now} is appended. *)
Theorem AddStaged_durable_precedence now t c s :
  backed c s →
  let r := AddStaged growslice now t c s in
  (∀ j q, pinsOf c s !! j = Some q → Staged q = false →
          pinsOf c r.1 !! j = Some q) ∧
  match findPin t (pinsOf c s) with
  | Some (i, p) =>
      if Staged p
      then nextFails (faults (ds s)) = false →
           r.2 = None ∧ pinsOf c r.1 = <[i := mkPin t true now]> (pinsOf c s)
      else r = (s, None)
  | None =>
      nextFails (faults (ds s)) = false →
      r.2 = None ∧ pinsOf c r.1 = pinsOf c s ++ [mkPin t true now]
  end.
Proof.
  intros Hb r. subst r. rewrite AddStaged_pinsOf by done. split.
  - intros j q Hj Hq.
    destruct (findPin t (pinsOf c s)) as [[i p]|] eqn:Hf.
    + apply findPin_Some in Hf as (Hi & _ & _).
      destruct (Staged p) eqn:Hs; [|done].
      rewrite list_lookup_insert_ne; [done|]. intros ->. congruence.
    + destruct (nextFails _); [done|]. by apply lookup_app_l_Some.
  - unfold AddStaged. fold (pinsOf c s).
    destruct (findPin t (pinsOf c s)) as [[i p]|] eqn:Hf.
    + destruct (Staged p) eqn:Hs; simpl; [|done].
      intros Hn. rewrite persist_error; simpl. by rewrite Hn.
    + intros Hn. rewrite Hn.
      destruct (append growslice _ _ _) as [h sl].
      rewrite persist_error; simpl. by rewrite Hn.
Qed.

(** What a successful [Remove] leaves in the cache for [c]. *)
Lemma Remove_found t c s i p :
  backed c s →
  findPin t (pinsOf c s) = Some (i, p) →
  let r := Remove t c s in
  let last := default zeroPin (pinsOf c s !! (length (pinsOf c s) - 1)) in
  r.2 = (if nextFails (faults (ds s)) then Some (ErrPut ErrExternal) else None) ∧
  pinsOf c r.1 =
    (if nextFails (faults (ds s)) then <[i := last]> (pinsOf c s)
     else take (length (pinsOf c s) - 1) (<[i := last]> (pinsOf c s))) ∧
  (nextFails (faults (ds s)) = false →
   kv (ds r.1) !! makeKey c = Some (c, pinsOf c r.1)).
Proof.
  intros Hb Hf r last. subst r last.
  pose proof (entry_backed c s Hb) as (HC & Hlc & Hca).
  assert (length (pinsOf c s) = len (Pins (entry c s))) as Hlen
    by (apply length_elems; lia).
  unfold Remove. destruct (cache s !! c) as [pc|] eqn:Hc.
  - pose proof (entry_lookup c s pc Hc) as He. subst pc.
    fold (pinsOf c s). rewrite Hf. rewrite <- Hlen.
    set (last := default zeroPin (pinsOf c s !! (length (pinsOf c s) - 1))).
    set (h := store (heap s) (Pins (entry c s)) i last).
    set (sl := reslice (Pins (entry c s)) (length (pinsOf c s) - 1)).
    assert (elems h sl = take (length (pinsOf c s) - 1) (<[i := last]> (pinsOf c s)))
      as Hel.
    { unfold elems at 1; simpl. unfold h. rewrite array_store_same.
      unfold pinsOf, elems.
      destruct (decide (i < len (Pins (entry c s)))).
      - rewrite <- take_insert_lt by done. rewrite take_take. f_equal.
        rewrite length_take. lia.
      - apply findPin_Some in Hf as (Hi & _).
        apply lookup_lt_Some in Hi. lia. }
    split; [by rewrite persist_error|]. split.
    + rewrite pinsOf_persist by done. simpl.
      destruct (nextFails _); [|done].
      unfold pinsOf at 1. simpl. rewrite entry_heap.
      by apply elems_store_same.
    + intros Hn. rewrite persist_ok by done. simpl.
      rewrite HC, lookup_insert_eq. f_equal. f_equal.
      unfold pinsOf; simpl. unfold entry at 1; simpl.
      by rewrite lookup_insert_eq.
  - unfold pinsOf, entry in Hf. rewrite Hc in Hf. done.
Qed.

(** C6. [Remove] fails with "c1 isn't pinned" exactly when [c] has no entry;
    when the entry holds no record for [t] it returns nil and changes
    nothing; otherwise, the write succeeding, it deletes the record found for
    [t], keeps every other record, and the datastore holds the new entry. *)
Theorem Remove_cases t c s :
  backed c s →
  let r := Remove t c s in
  (r.2 = Some ErrNotPinned ↔ cache s !! c = None) ∧
  (is_Some (cache s !! c) → findPin t (pinsOf c s) = None → r = (s, None)) ∧
  (∀ i p, findPin t (pinsOf c s) = Some (i, p) →
     nextFails (faults (ds s)) = false →
     r.2 = None ∧ APIID p = t ∧
     pinsOf c r.1 ≡ₚ delete i (pinsOf c s) ∧
     kv (ds r.1) !! makeKey c = Some (c, pinsOf c r.1)).
Proof.
  intros Hb r. subst r. split; [|split].
  - unfold Remove. destruct (cache s !! c) as [pc|] eqn:Hc; [|done].
    split; [|done].
    destruct (findPin _ _) as [[i p]|]; simpl; [|done].
    rewrite persist_error. by destruct (nextFails _).
  - intros [pc Hc] Hf. unfold Remove. rewrite Hc.
    unfold pinsOf in Hf. rewrite (entry_lookup c s pc Hc) in Hf.
    by rewrite Hf.
  - intros i p Hf Hn.
    destruct (Remove_found t c s i p Hb Hf) as (He & Hp & Hk).
    rewrite Hn in *.
    pose proof (findPin_Some _ _ _ _ Hf) as (Hi & Ht & _).
    repeat split; [done..| |by apply Hk].
    rewrite Hp.
    assert (i < length (pinsOf c s)) as Hlt by (by eapply lookup_lt_Some).
    destruct (pinsOf c s !! (length (pinsOf c s) - 1)) as [y|] eqn:Hy.
    + simpl. by apply swap_with_last_perm.
    + apply lookup_ge_None in Hy. lia.
Qed.

(** What [Add] leaves in the cache for [c]. *)
Lemma Add_pinsOf now t c s :
  backed c s →
  pinsOf c (Add growslice now t c s).1 =
    match findPin t (pinsOf c s) with
    | Some (i, _) => <[i := mkPin t false now]> (pinsOf c s)
    | None =>
        if nextFails (faults (ds s)) then pinsOf c s
        else pinsOf c s ++ [mkPin t false now]
    end.
Proof.
  intros Hb. pose proof (entry_backed c s Hb) as (HC & Hlc & Hca).
  unfold Add. fold (pinsOf c s).
  destruct (findPin t (pinsOf c s)) as [[i p]|] eqn:Hf.
  - rewrite pinsOf_persist by done. simpl.
    unfold pinsOf at 1; simpl. rewrite entry_heap.
    rewrite !elems_store_same by done.
    by destruct (nextFails _).
  - pose proof (append_elems growslice (heap s) (Pins (entry c s)) zeroPin Hlc Hca)
      as Hel.
    pose proof (append_len growslice (heap s) (Pins (entry c s)) zeroPin) as Hln.
    pose proof (append_old_elems growslice (heap s) (Pins (entry c s)) zeroPin
                  (Pins (entry c s))) as Hold.
    destruct (append growslice (heap s) (Pins (entry c s)) zeroPin)
      as [h sl] eqn:Ha. simpl in *.
    rewrite pinsOf_persist by done. simpl.
    rewrite Hln. replace (S (len (Pins (entry c s))) - 1)
      with (len (Pins (entry c s))) by lia.
    destruct (nextFails _).
    + unfold pinsOf; simpl. rewrite entry_heap.
      rewrite elems_store_beyond by done.
      apply Hold; [lia | by right].
    + rewrite elems_store_same by done. rewrite Hel.
      fold (pinsOf c s).
      assert (length (pinsOf c s) = len (Pins (entry c s))) as <-
        by (apply length_elems; lia).
      replace (length (pinsOf c s)) with (length (pinsOf c s) + 0) by lia.
      by rewrite insert_app_r.
Qed.

Lemma stagedPins_le (ps : list Pin) n :
  foldl (λ n p, if Staged p then S n else n) n ps ≤ n + length ps.
Proof.
  revert n. induction ps as [|p ps IH]; intros n; simpl; [lia|].
  specialize (IH (if Staged p then S n else n)).
  destruct (Staged p); lia.
Qed.

Lemma stagedPins_filter (ps : list Pin) n :
  foldl (λ n p, if Staged p then S n else n) n ps
  = n + length (filter (λ p, Staged p = true) ps).
Proof.
  revert n. induction ps as [|p ps IH]; intros n; simpl; [lia|].
  rewrite IH. rewrite filter_cons.
  destruct (Staged p); case_decide; simpl; try done; lia.
Qed.

(** [RefCount] on any store whatever: it hands the store back, its total is
    at least its staged count, and an unknown Cid counts (0, 0). *)
Lemma RefCount_any c s :
  let r := RefCount c s in
  r.1 = s ∧ r.2.2 ≤ r.2.1 ∧ (cache s !! c = None → r.2 = (0, 0)).
Proof.
  unfold RefCount. destruct (cache s !! c) as [pc|]; simpl; [|done].
  repeat split; [|done].
  pose proof (stagedPins_le (elems (heap s) (Pins pc)) 0).
  pose proof (length_elems_le (heap s) (Pins pc)). lia.
Qed.

(** On a backed entry the two counts are the derived values of the data
    model: the number of records and the number of staged records. *)
Lemma RefCount_backed c s :
  backed c s →
  (RefCount c s).2 =
    (length (pinsOf c s), length (filter (λ p, Staged p = true) (pinsOf c s))).
Proof.
  intros Hb. unfold RefCount, pinsOf, entry.
  destruct (cache s !! c) as [pc|] eqn:Hc; simpl; [|done].
  destruct (Hb pc Hc) as (_ & Hlc & Hca).
  rewrite stagedPins_filter, length_elems by lia. done.
Qed.

(** What [RemoveStaged] does to the cache: nothing, on every path. *)
Lemma RemoveStaged_cache c s :
  cache (RemoveStaged c s).1 = cache s ∧ heap (RemoveStaged c s).1 = heap s.
Proof.
  unfold RemoveStaged. destruct (cache s !! c) as [pc|] eqn:Hc; [|done].
  destruct (forallb _ _); [|done].
  unfold Delete. destruct (nextFails _); simpl; [done|].
  by rewrite insert_id.
Qed.

Lemma RemoveStaged_ok c s pc :
  cache s !! c = Some pc →
  forallb Staged (elems (heap s) (Pins pc)) = true →
  nextFails (faults (ds s)) = false →
  RemoveStaged c s =
    (mkStore (heap s)
       (mkDatastore (delete (makeKey c) (kv (ds s))) (tail (faults (ds s))))
       (cache s), None).
Proof.
  intros Hc Hs Hn. unfold RemoveStaged, Delete. rewrite Hc, Hs, Hn.
  by rewrite insert_id.
Qed.

(** ** The shape of a mutation *)

Lemma mutation_id s c pc :
  wf s → cache s !! c = Some pc → mutation s c (heap s) (Pins pc).
Proof.
  intros [Hb Hu] Hc. destruct (Hb c pc Hc) as (_ & Hlc & Hca).
  repeat split; [done..|].
  intros H1 H2. by eapply (Hu c c0).
Qed.

Lemma mutation_store s c h sl i x :
  wf s → mutation s c h sl → 0 < cap sl → mutation s c (store h sl i x) sl.
Proof.
  intros [Hb _] (Hl & [Hlc Hca] & Ho) Hcap. split; [|split].
  - intros p. rewrite length_array_store. apply Hl.
  - rewrite length_array_store. done.
  - intros c0 pc0 Hne Hc0. destruct (Ho c0 pc0 Hne Hc0) as [He Hp].
    split; [|done]. rewrite <- He.
    destruct (decide (0 < cap (Pins pc0))) as [Hc|Hc].
    + apply elems_store_other. intros Heq. by apply Hp.
    + destruct (Hb c0 pc0 Hc0) as (_ & Hlc0 & _).
      apply elems_store_beyond. lia.
Qed.

Lemma mutation_reslice s c h sl n :
  mutation s c h sl → n ≤ len sl → mutation s c h (reslice sl n).
Proof.
  intros (Hl & [Hlc Hca] & Ho) Hn. split; [done|]. split.
  - simpl. split; [lia|done].
  - intros c0 pc0 Hne Hc0. destruct (Ho c0 pc0 Hne Hc0) as [He Hp]. done.
Qed.

Lemma mutation_append s c x :
  wf s →
  mutation s c (append growslice (heap s) (Pins (entry c s)) x).1
               (append growslice (heap s) (Pins (entry c s)) x).2.
Proof.
  intros Hwf. pose proof Hwf as [Hb Hu].
  pose proof (entry_backed c s (Hb c)) as (HC & Hlc & Hca).
  split; [|split].
  - intros p. unfold append. case_decide; simpl.
    + by rewrite length_array_store.
    + destruct (decide (p < length (heap s))).
      * by rewrite array_alloc_old.
      * rewrite (array_invalid (heap s)) by lia. simpl. lia.
  - by apply append_backed.
  - intros c0 pc0 Hne Hc0. destruct (Hb c0 pc0 Hc0) as (_ & Hlc0 & Hca0).
    unfold append. case_decide as Hroom; simpl.
    + assert (is_Some (cache s !! c)) as [pc Hc].
      { unfold entry in Hroom. destruct (cache s !! c); [done|].
        simpl in Hroom. lia. }
      rewrite (entry_lookup c s pc Hc) in *.
      split.
      * destruct (decide (0 < cap (Pins pc0))).
        -- apply elems_store_other. apply (Hu c0 c pc0 pc); [done..|lia].
        -- apply elems_store_beyond. lia.
      * intros _ Hcap0. apply (Hu c c0 pc pc0); [done|done|done|lia|done].
    + split.
      * apply elems_alloc. lia.
      * intros _ Hcap0 Heq.
        destruct (decide (ptr (Pins pc0) < length (heap s))); [lia|].
        rewrite (array_invalid (heap s)) in Hca0 by lia. simpl in Hca0. lia.
Qed.

(** A mutation followed by [persist] keeps the store well formed and leaves
    the records of every other Cid as they were. *)
Lemma persist_mutation s c h sl :
  wf s → mutation s c h sl →
  let s' := (persist (mkPinnedCid c sl) (mkStore h (ds s) (cache s))).1 in
  wf s' ∧ ∀ c0, c0 ≠ c → pinsOf c0 s' = pinsOf c0 s.
Proof.
  intros [Hb Hu] (Hl & [Hlc Hca] & Ho) s'. subst s'.
  assert (∀ c0 pc0, cache s !! c0 = Some pc0 → backedEntry h c0 pc0) as Hold.
  { intros c0 pc0 Hc0. destruct (Hb c0 pc0 Hc0) as (? & ? & ?).
    repeat split; [done..|]. etrans; [done|]. apply Hl. }
  split; [split|].
  - intros c0 pc0. rewrite persist_heap, persist_cache. simpl.
    destruct (nextFails _); [by apply Hold|].
    destruct (decide (c0 = c)) as [->|Hne].
    + rewrite lookup_insert_eq. intros [= <-]. by repeat split.
    + rewrite lookup_insert_ne by done. by apply Hold.
  - intros c1 c2 pc1 pc2 Hne. rewrite persist_cache. simpl.
    destruct (nextFails _); [by apply Hu|].
    destruct (decide (c1 = c)) as [->|Hne1];
      destruct (decide (c2 = c)) as [->|Hne2]; try done.
    + rewrite lookup_insert_eq, lookup_insert_ne by done.
      intros [= <-] Hc2. simpl. by apply (Ho c2 pc2).
    + rewrite lookup_insert_eq, lookup_insert_ne by done.
      intros Hc1 [= <-] H1 H2 Heq. simpl in *.
      by apply (Ho c1 pc1 Hne1 Hc1).
    + rewrite !lookup_insert_ne by done. by apply Hu.
  - intros c0 Hne. unfold pinsOf. rewrite persist_heap. simpl.
    assert (entry c0 (persist (mkPinnedCid c sl) (mkStore h (ds s) (cache s))).1
            = entry c0 s) as ->.
    { unfold entry. rewrite persist_cache. simpl.
      destruct (nextFails _); [done|]. by rewrite lookup_insert_ne. }
    unfold entry. destruct (cache s !! c0) as [pc0|] eqn:Hc0.
    + by apply (Ho c0 pc0).
    + done.
Qed.

Lemma found_in_cache t c s i p :
  findPin t (pinsOf c s) = Some (i, p) →
  ∃ pc, cache s !! c = Some pc ∧ entry c s = pc ∧ i < len (Pins pc).
Proof.
  intros Hf. apply findPin_Some in Hf as (Hi & _).
  apply lookup_lt_Some in Hi. unfold pinsOf, entry in *.
  destruct (cache s !! c) as [pc|]; [|simpl in Hi; lia].
  exists pc. repeat split. pose proof (length_elems_le (heap s) (Pins pc)). lia.
Qed.

Lemma eta_PinnedCid c pc : Cid pc = c → pc = mkPinnedCid c (Pins pc).
Proof. intros <-. by destruct pc. Qed.

Lemma AddStaged_mutates now t c s :
  wf s → mutates s c (AddStaged growslice now t c s).
Proof.
  intros Hwf. pose proof Hwf as [Hb Hu].
  pose proof (entry_backed c s (Hb c)) as (HC & Hlc & Hca).
  unfold AddStaged. fold (pinsOf c s).
  destruct (findPin t (pinsOf c s)) as [[i p]|] eqn:Hf.
  - destruct (negb (Staged p)); [by left|]. right.
    destruct (found_in_cache _ _ _ _ _ Hf) as (pc & Hc & He & Hi).
    rewrite He in *. eexists _, (Pins pc). split.
    + apply mutation_store; [done| |lia]. by apply mutation_id.
    + by rewrite <- (eta_PinnedCid c pc).
  - right.
    pose proof (mutation_append s c (mkPin t true now) Hwf) as Hm.
    destruct (append growslice _ _ _) as [h sl]. exists h, sl.
    split; [done|]. by rewrite HC.
Qed.

Lemma Add_mutates now t c s :
  wf s → mutates s c (Add growslice now t c s).
Proof.
  intros Hwf. pose proof Hwf as [Hb Hu].
  pose proof (entry_backed c s (Hb c)) as (HC & Hlc & Hca).
  unfold Add. fold (pinsOf c s). right.
  destruct (findPin t (pinsOf c s)) as [[i p]|] eqn:Hf.
  - destruct (found_in_cache _ _ _ _ _ Hf) as (pc & Hc & He & Hi).
    rewrite He in *. eexists _, (Pins pc). split.
    + apply mutation_store; [done| |lia]. by apply mutation_id.
    + by rewrite <- (eta_PinnedCid c pc).
  - pose proof (mutation_append s c zeroPin Hwf) as Hm.
    pose proof (append_len growslice (heap s) (Pins (entry c s)) zeroPin) as Hln.
    destruct (append growslice _ _ _) as [h sl]. simpl in *.
    eexists _, sl. split; [|by rewrite HC].
    apply mutation_store; [done..|].
    destruct Hm as (_ & [? ?] & _). lia.
Qed.

Lemma Remove_mutates t c s :
  wf s → mutates s c (Remove t c s).
Proof.
  intros Hwf. pose proof Hwf as [Hb Hu].
  unfold Remove. destruct (cache s !! c) as [pc|] eqn:Hc; [|by left].
  destruct (Hb c pc Hc) as (HC & Hlc & Hca).
  destruct (findPin t _) as [[i p]|] eqn:Hf; [|by left]. right.
  assert (i < len (Pins pc)) as Hi.
  { apply findPin_Some in Hf as (Hi & _). apply lookup_lt_Some in Hi.
    pose proof (length_elems_le (heap s) (Pins pc)). lia. }
  eexists _, _. split; [|by rewrite HC].
  apply mutation_reslice; [|lia].
  apply mutation_store; [done| |lia]. by apply mutation_id.
Qed.

Lemma wf_same s s' : heap s' = heap s → cache s' = cache s → wf s → wf s'.
Proof.
  intros Hh Hc [Hb Hu]. split.
  - intros c pc. rewrite Hh, Hc. apply Hb.
  - intros c1 c2 pc1 pc2. rewrite Hc. apply Hu.
Qed.

Lemma mutates_wf s c r :
  wf s → mutates s c r →
  wf r.1 ∧ ∀ c0, c0 ≠ c → pinsOf c0 r.1 = pinsOf c0 s.
Proof.
  intros Hwf [->|(h & sl & Hm & ->)]; [done|].
  by apply persist_mutation.
Qed.

Lemma wf_newLedger fs : wf (newLedger fs).
Proof.
  split.
  - intros c pc. unfold newLedger; simpl. by rewrite lookup_empty.
  - intros c1 c2 pc1 pc2 _. unfold newLedger; simpl. by rewrite lookup_empty.
Qed.

(** Every reachable store is well formed, whatever the datastore did. *)
Lemma reachable_wf fs s : reachable growslice fs s → wf s.
Proof.
  induction 1 as [|now t c s _ IH|now t c s _ IH|t c s _ IH|c s _ IH].
  - apply wf_newLedger.
  - by apply (mutates_wf s c), AddStaged_mutates.
  - by apply (mutates_wf s c), Add_mutates.
  - by apply (mutates_wf s c), Remove_mutates.
  - destruct (RemoveStaged_cache c s) as [Hc Hh]. by apply (wf_same s).
Qed.

(** C7. In every reachable state [RefCount] returns a total that is at least
    the staged count, returns (0, 0) for a Cid without entry, hands the store
    back untouched, and its two numbers are the number of records of the entry
    and the number of its staged records. *)
Theorem RefCount_total_ge_staged fs c s :
  reachable growslice fs s →
  let r := RefCount c s in
  r.2.1 ≥ r.2.2 ∧
  (cache s !! c = None → r.2 = (0, 0)) ∧
  r.1 = s ∧
  r.2 = (length (pinsOf c s),
         length (filter (λ p, Staged p = true) (pinsOf c s))).
Proof.
  intros Hr r. subst r.
  destruct (RefCount_any c s) as (Hs & Hle & Hz).
  apply reachable_wf in Hr as [Hb _].
  repeat split; [lia|done|done|]. by apply RefCount_backed.
Qed.

(** ** One record per tenant, as long as the datastore does not fail *)

Lemma pinsOf_same c s s' :
  heap s' = heap s → cache s' = cache s → pinsOf c s' = pinsOf c s.
Proof. intros Hh Hc. unfold pinsOf, entry. by rewrite Hh, Hc. Qed.

Lemma Remove_pinsOf t c s :
  backed c s →
  pinsOf c (Remove t c s).1 =
    match findPin t (pinsOf c s) with
    | Some (i, _) =>
        let last := default zeroPin (pinsOf c s !! (length (pinsOf c s) - 1)) in
        if nextFails (faults (ds s)) then <[i := last]> (pinsOf c s)
        else take (length (pinsOf c s) - 1) (<[i := last]> (pinsOf c s))
    | None => pinsOf c s
    end.
Proof.
  intros Hb. destruct (findPin t (pinsOf c s)) as [[i p]|] eqn:Hf.
  - by destruct (Remove_found t c s i p Hb Hf) as (_ & -> & _).
  - unfold Remove. destruct (cache s !! c) as [pc|] eqn:Hc; [|done].
    unfold pinsOf in Hf. rewrite (entry_lookup c s pc Hc) in Hf.
    by rewrite Hf.
Qed.

Lemma quiet_nextFails fs : quiet fs → nextFails fs = false.
Proof. destruct 1 as [|b fs Hb _]; [done|]. by rewrite Hb. Qed.

Lemma quiet_tail fs : quiet fs → quiet (tail fs).
Proof. destruct 1; [constructor|done]. Qed.

Lemma persist_faults r s :
  faults (ds (persist r s).1) = tail (faults (ds s)).
Proof. unfold persist, Put. by destruct (nextFails _). Qed.

Lemma mutates_quiet s c r :
  mutates s c r → quiet (faults (ds s)) → quiet (faults (ds r.1)).
Proof.
  intros [->|(h & sl & _ & ->)] Hq; [done|].
  rewrite persist_faults. by apply quiet_tail.
Qed.

Lemma RemoveStaged_quiet c s :
  quiet (faults (ds s)) → quiet (faults (ds (RemoveStaged c s).1)).
Proof.
  intros Hq. unfold RemoveStaged. destruct (cache s !! c); [|done].
  destruct (forallb _ _); [|done].
  unfold Delete. destruct (nextFails _); simpl; by apply quiet_tail.
Qed.

Lemma reachable_quiet fs s :
  quiet fs → reachable growslice fs s → quiet (faults (ds s)).
Proof.
  intros Hq. induction 1 as [|now t c s Hr IH|now t c s Hr IH|t c s Hr IH|c s _ IH].
  - done.
  - eapply mutates_quiet; [|done]. by eapply AddStaged_mutates, reachable_wf.
  - eapply mutates_quiet; [|done]. by eapply Add_mutates, reachable_wf.
  - eapply mutates_quiet; [|done]. by eapply Remove_mutates, reachable_wf.
  - by apply RemoveStaged_quiet.
Qed.

Lemma NoDup_fmap_insert_same (ps : list Pin) i p x :
  ps !! i = Some p → APIID x = APIID p →
  APIID <$> <[i := x]> ps = APIID <$> ps.
Proof.
  intros Hi Hx. rewrite list_fmap_insert, Hx.
  apply list_insert_id. by rewrite list_lookup_fmap, Hi.
Qed.

Lemma NoDup_fmap_snoc (ps : list Pin) t x :
  findPin t ps = None → APIID x = t →
  NoDup (APIID <$> ps) → NoDup (APIID <$> ps ++ [x]).
Proof.
  intros Hf Hx Hnd. rewrite fmap_app. apply NoDup_app. split; [done|].
  split; [|apply NoDup_singleton].
  intros a Ha. simpl. rewrite list_elem_of_singleton. intros ->.
  apply list_elem_of_fmap in Ha as (q & Hq & Hin).
  apply findPin_None in Hf. rewrite Forall_forall in Hf.
  apply (Hf q Hin). congruence.
Qed.

(** When no write to the datastore fails, every reachable entry holds at most
    one record per tenant. *)
Lemma reachable_oneRecordPerTenant fs s :
  quiet fs → reachable growslice fs s → ∀ c, oneRecordPerTenant c s.
Proof.
  intros Hq. unfold oneRecordPerTenant.
  induction 1 as [|now t c s Hr IH|now t c s Hr IH|t c s Hr IH|c s _ IH];
    intros c0.
  - constructor.
  - pose proof (reachable_wf _ _ Hr) as Hwf.
    pose proof (quiet_nextFails _ (reachable_quiet _ _ Hq Hr)) as Hn.
    destruct (decide (c0 = c)) as [->|Hne].
    + rewrite AddStaged_pinsOf by apply Hwf. specialize (IH c).
      destruct (findPin t (pinsOf c s)) as [[i p]|] eqn:Hf.
      * destruct (Staged p); [|done].
        apply findPin_Some in Hf as (Hi & Ht & _).
        by rewrite (NoDup_fmap_insert_same _ _ p).
      * rewrite Hn. by apply (NoDup_fmap_snoc _ t).
    + destruct (mutates_wf s c _ Hwf (AddStaged_mutates now t c s Hwf))
        as [_ Ho]. by rewrite Ho.
  - pose proof (reachable_wf _ _ Hr) as Hwf.
    pose proof (quiet_nextFails _ (reachable_quiet _ _ Hq Hr)) as Hn.
    destruct (decide (c0 = c)) as [->|Hne].
    + rewrite Add_pinsOf by apply Hwf. specialize (IH c).
      destruct (findPin t (pinsOf c s)) as [[i p]|] eqn:Hf.
      * apply findPin_Some in Hf as (Hi & Ht & _).
        by rewrite (NoDup_fmap_insert_same _ _ p).
      * rewrite Hn. by apply (NoDup_fmap_snoc _ t).
    + destruct (mutates_wf s c _ Hwf (Add_mutates now t c s Hwf))
        as [_ Ho]. by rewrite Ho.
  - pose proof (reachable_wf _ _ Hr) as Hwf.
    pose proof (quiet_nextFails _ (reachable_quiet _ _ Hq Hr)) as Hn.
    destruct (decide (c0 = c)) as [->|Hne].
    + rewrite Remove_pinsOf by apply Hwf. specialize (IH c).
      destruct (findPin t (pinsOf c s)) as [[i p]|] eqn:Hf; [|done].
      simpl. rewrite Hn.
      apply findPin_Some in Hf as (Hi & _).
      pose proof (lookup_lt_Some _ _ _ Hi) as Hlt.
      destruct (pinsOf c s !! (length (pinsOf c s) - 1)) as [y|] eqn:Hy.
      * simpl. rewrite (swap_with_last_perm _ _ _ Hlt Hy).
        eapply sublist_NoDup; [done|].
        apply fmap_sublist, sublist_delete.
      * apply lookup_ge_None in Hy. lia.
    + destruct (mutates_wf s c _ Hwf (Remove_mutates t c s Hwf))
        as [_ Ho]. by rewrite Ho.
  - destruct (RemoveStaged_cache c s) as [Hc Hh].
    by rewrite (pinsOf_same c0 s).
Qed.

Lemma filter_tenant_singleton (ps : list Pin) j x :
  NoDup (APIID <$> ps) → ps !! j = Some x →
  filter (λ p, APIID p = APIID x) ps = [x].
Proof.
  revert j. induction ps as [|y ps IH]; intros j Hnd Hj; [done|].
  rewrite fmap_cons in Hnd. apply NoDup_cons in Hnd as [Hy Hnd].
  destruct j as [|j]; simpl in Hj.
  - simplify_eq. rewrite filter_cons_True by done. f_equal.
    destruct (filter (λ p, APIID p = APIID x) ps) as [|z zs] eqn:Hfl; [done|].
    assert (z ∈ filter (λ p, APIID p = APIID x) ps) as Hz
      by (rewrite Hfl; apply list_elem_of_here).
    apply list_elem_of_filter in Hz as [Hz1 Hz2].
    exfalso. apply Hy. rewrite <- Hz1. by apply list_elem_of_fmap_2.
  - rewrite filter_cons_False; [by apply (IH j)|].
    intros Heq. apply Hy. rewrite Heq.
    apply list_elem_of_fmap_2. by eapply list_elem_of_lookup_2.
Qed.

(** X1. When no write fails, two calls of [Add] for the same tenant leave exactly
    one record for it, durable, created at the time of the second call. *)
Lemma Add_repeated fs now1 now2 t c s :
  quiet fs → reachable growslice fs s →
  let s2 := (Add growslice now2 t c (Add growslice now1 t c s).1).1 in
  filter (λ p, APIID p = t) (pinsOf c s2) = [mkPin t false now2].
Proof.
  intros Hq Hr s2.
  set (s1 := (Add growslice now1 t c s).1) in *.
  assert (reachable growslice fs s1) as Hr1 by (by constructor).
  assert (reachable growslice fs s2) as Hr2 by (by constructor).
  pose proof (reachable_oneRecordPerTenant fs s2 Hq Hr2 c) as Hnd.
  pose proof (proj1 (reachable_wf fs s Hr) c) as Hb.
  pose proof (proj1 (reachable_wf fs s1 Hr1) c) as Hb1.
  assert (is_Some (findPin t (pinsOf c s1))) as [[j q] Hf].
  { unfold s1. rewrite Add_pinsOf by done.
    destruct (findPin t (pinsOf c s)) as [[i p]|] eqn:Hf.
    - apply findPin_Some in Hf as (Hi & _).
      apply (list_find_elem_of _ _ (mkPin t false now1)); [|done].
      eapply list_elem_of_lookup_2, list_lookup_insert_eq.
      by eapply lookup_lt_Some.
    - rewrite (quiet_nextFails _ (reachable_quiet fs s Hq Hr)).
      apply (list_find_elem_of _ _ (mkPin t false now1)); [|done].
      apply elem_of_app. right. apply list_elem_of_here. }
  unfold oneRecordPerTenant in Hnd. unfold s2 in *.
  rewrite Add_pinsOf, Hf in * by done.
  apply findPin_Some in Hf as (Hj & _).
  apply (filter_tenant_singleton _ j (mkPin t false now2)); [done|].
  apply list_lookup_insert_eq. by eapply lookup_lt_Some.
Qed.

End ledger.

(** * The collector *)

Lemma foldl_snoc_if {A B} (P : A → bool) (f : A → B) (l : list A) acc :
  foldl (λ r v, if P v then r ++ [f v] else r) acc l
  = acc ++ (f <$> filter (λ v, P v = true) l).
Proof.
  revert acc. induction l as [|x l IH]; intros acc; simpl.
  - by rewrite app_nil_r.
  - rewrite IH, filter_cons. destruct (P x); case_decide; try done.
    by rewrite fmap_cons, <- app_assoc.
Qed.

Lemma rangeMap_perm {V} pref (m : gmap cid.Cid V) :
  rangeMap pref m ≡ₚ map_to_list m.
Proof.
  revert m. induction pref as [|k ks IH]; intros m; simpl; [done|].
  destruct (m !! k) as [v|] eqn:Hk; [|done].
  rewrite IH. by apply map_to_list_delete.
Qed.

Lemma onlyStaged_Forall h v :
  onlyStaged h v = true ↔ Forall (λ p, Staged p = true) (elems h (Pins v)).
Proof.
  unfold onlyStaged. rewrite forallb_forall, Forall_forall.
  by setoid_rewrite list_elem_of_In.
Qed.

Lemma gcable_spec h exclude olderThan v :
  gcable h (list_to_set exclude) olderThan v = true ↔
  (Cid v ∉ exclude) ∧
  Forall (λ p, (CreatedAt p ≤ olderThan)%Z) (elems h (Pins v)).
Proof.
  unfold gcable. case_decide as Hin; rewrite elem_of_list_to_set in Hin.
  - split; [done|]. by intros [? _].
  - rewrite forallb_forall, Forall_forall.
    setoid_rewrite <- list_elem_of_In.
    setoid_rewrite negb_true_iff. setoid_rewrite Z.ltb_ge.
    split; [by intros ?|by intros [_ ?]].
Qed.

Lemma GetAllOnlyStaged_filter pref s :
  GetAllOnlyStaged pref s =
    (s, (filter (λ v, onlyStaged (heap s) v = true) (rangeMap pref (cache s)).*2,
         None)).
Proof.
  unfold GetAllOnlyStaged.
  rewrite (foldl_snoc_if (onlyStaged (heap s)) id). simpl.
  by rewrite list_fmap_id.
Qed.

Lemma getGCCandidates_filter pref exclude olderThan ci :
  getGCCandidates pref exclude olderThan ci =
    (ci, (Cid <$> filter (gcCandidate (heap (ps ci)) exclude olderThan)
                    (rangeMap pref (cache (ps ci))).*2, None)).
Proof.
  unfold getGCCandidates. rewrite GetAllOnlyStaged_filter.
  rewrite foldl_snoc_if. simpl. destruct ci as [n s]; simpl.
  f_equal. f_equal. f_equal. rewrite list_filter_filter.
  apply list_filter_iff. intros v.
  rewrite gcable_spec, onlyStaged_Forall. unfold gcCandidate.
  split; [by intros [[? ?] ?]|by intros (? & ? & ?)].
Qed.

Lemma unpinStaged_rejects c ci :
  (RefCount c (ps ci)).2.1 ≠ (RefCount c (ps ci)).2.2 →
  unpinStaged c ci =
    (ci, Some (ErrNotOnlyStagePins c (RefCount c (ps ci)).2.1
                                     (RefCount c (ps ci)).2.2)).
Proof.
  intros Hne. unfold unpinStaged.
  destruct (RefCount_any c (ps ci)) as (Hs & _).
  destruct (RefCount c (ps ci)) as [s [count stagedCount]]. simpl in *.
  subst s. rewrite decide_True by done. by destruct ci.
Qed.

Lemma unpinStaged_accepts c ci :
  (RefCount c (ps ci)).2.1 = (RefCount c (ps ci)).2.2 →
  unpinStaged c ci =
    match Pin_Rm c (ipfs ci) with
    | (n, Some err) => (mkCoreIpfs n (ps ci), Some (ErrUnpin err))
    | (n, None) =>
        (mkCoreIpfs n (RemoveStaged c (ps ci)).1,
         ErrRemoveAllStaged c <$> (RemoveStaged c (ps ci)).2)
    end.
Proof.
  intros Heq. unfold unpinStaged.
  destruct (RefCount_any c (ps ci)) as (Hs & _).
  destruct (RefCount c (ps ci)) as [s [count stagedCount]]. simpl in *.
  subst s. rewrite decide_False by (intros ?; done).
  destruct (Pin_Rm c (ipfs ci)) as [n [err|]]; [done|].
  by destruct (RemoveStaged c (ps ci)) as [s' [err|]].
Qed.

Lemma Rm_calls c n : calls (Pin_Rm c n).1 = calls n ++ [PinRm c].
Proof. unfold Pin_Rm. by destruct (nextFails _). Qed.

Lemma unpinStaged_calls c ci :
  ∃ k, k ≤ 1 ∧
       calls (ipfs (unpinStaged c ci).1) = calls (ipfs ci) ++ (PinRm <$> take k [c]) ∧
       ((unpinStaged c ci).2 = None → k = 1).
Proof.
  destruct (decide ((RefCount c (ps ci)).2.1 = (RefCount c (ps ci)).2.2)) as [Heq|Hne].
  - exists 1. split; [done|]. rewrite unpinStaged_accepts by done.
    pose proof (Rm_calls c (ipfs ci)) as Hc.
    by destruct (Pin_Rm c (ipfs ci)) as [n [err|]].
  - exists 0. split; [lia|]. rewrite unpinStaged_rejects by done. simpl.
    by rewrite app_nil_r.
Qed.

Lemma unpinEach_calls lst ci :
  ∃ k, calls (ipfs (unpinEach lst ci).1)
       = calls (ipfs ci) ++ (PinRm <$> take k lst).
Proof.
  revert ci. induction lst as [|c lst IH]; intros ci; simpl.
  - exists 0. by rewrite app_nil_r.
  - destruct (unpinStaged_calls c ci) as (k & Hle & Hk & Hone).
    destruct (unpinStaged c ci) as [ci' [e|]]; simpl in *.
    + exists k. rewrite Hk. destruct k as [|[|k]]; [done|done|lia].
    + rewrite (Hone eq_refl) in Hk. simpl in Hk.
      destruct (IH ci') as (k' & Hk'). exists (S k').
      rewrite Hk', Hk. simpl. by rewrite <- app_assoc.
Qed.

(** C4. [getGCCandidates] changes nothing, cannot fail, and returns the Cids
    of exactly the cached entries all of whose records are staged, that are
    not excluded, and whose records were all created at or before the cutoff.
    [unpinStaged] first compares the two numbers of [RefCount]: when they
    differ it fails without any call to the node or to the ledger; when they
    agree it asks the node to unpin, and only after the node agreed does it
    call [RemoveStaged]. [GCStaged] asks the node to unpin candidates only,
    one after the other in the order of the scan. *)
Theorem getGCCandidates_exact pref exclude olderThan ci :
  let r := getGCCandidates pref exclude olderThan ci in
  r.1 = ci ∧ r.2.2 = None ∧
  r.2.1 ≡ₚ Cid <$> filter (gcCandidate (heap (ps ci)) exclude olderThan)
                     (map_to_list (cache (ps ci))).*2 ∧
  (∃ k, calls (ipfs (GCStaged pref exclude olderThan ci).1)
        = calls (ipfs ci) ++ (PinRm <$> take k r.2.1)) ∧
  ∀ c, let count := (RefCount c (ps ci)).2.1 in
       let stagedCount := (RefCount c (ps ci)).2.2 in
       let u := unpinStaged c ci in
       (count ≠ stagedCount →
          u = (ci, Some (ErrNotOnlyStagePins c count stagedCount))) ∧
       (count = stagedCount →
          calls (ipfs u.1) = calls (ipfs ci) ++ [PinRm c] ∧
          (nextFails (nfaults (ipfs ci)) = true →
             u.2 = Some (ErrUnpin ErrExternal) ∧ ps u.1 = ps ci) ∧
          (nextFails (nfaults (ipfs ci)) = false →
             ps u.1 = (RemoveStaged c (ps ci)).1 ∧
             u.2 = ErrRemoveAllStaged c <$> (RemoveStaged c (ps ci)).2)).
Proof.
  intros r. subst r. unfold GCStaged. rewrite getGCCandidates_filter.
  cbn [fst snd].
  split; [done|]. split; [done|]. split; [by rewrite rangeMap_perm|].
  split.
  { set (lst := Cid <$> _). destruct (unpinEach_calls lst ci) as (k & Hk).
    exists k. by destruct (unpinEach lst ci) as [ci2 [err|]]. }
  intros c. split; [by apply unpinStaged_rejects|].
  intros Heq. rewrite unpinStaged_accepts by done. split; [|split].
  - pose proof (Rm_calls c (ipfs ci)) as Hc.
    by destruct (Pin_Rm c (ipfs ci)) as [n [err|]].
  - intros Hn. unfold Pin_Rm. by rewrite Hn.
  - intros Hn. unfold Pin_Rm. by rewrite Hn.
Qed.

(** ** A run of the collector without failures *)

Lemma stagedPins_all (ps : list Pin) n :
  forallb Staged ps = true →
  foldl (λ n p, if Staged p then S n else n) n ps = n + length ps.
Proof.
  revert n. induction ps as [|p ps IH]; intros n; simpl; [lia|].
  intros [Hp Hps]%andb_true_iff. rewrite Hp, IH by done. lia.
Qed.

Lemma purgeable_same s s' c :
  heap s' = heap s → cache s' = cache s → purgeable s c → purgeable s' c.
Proof. intros Hh Hc. unfold purgeable. by rewrite Hh, Hc. Qed.

Lemma unpinStaged_quiet c ci :
  purgeable (ps ci) c →
  nextFails (nfaults (ipfs ci)) = false →
  nextFails (faults (ds (ps ci))) = false →
  unpinStaged c ci =
    (mkCoreIpfs
       (mkNode (pinset (ipfs ci) ∖ {[c]}) (calls (ipfs ci) ++ [PinRm c])
               (tail (nfaults (ipfs ci))))
       (mkStore (heap (ps ci))
          (mkDatastore (delete (makeKey c) (kv (ds (ps ci))))
                       (tail (faults (ds (ps ci)))))
          (cache (ps ci))),
     None).
Proof.
  intros (pc & Hc & Hst & Hlen) Hn Hd.
  rewrite unpinStaged_accepts.
  - unfold Pin_Rm. rewrite Hn. by rewrite (RemoveStaged_ok c (ps ci) pc).
  - unfold RefCount. rewrite Hc. simpl.
    rewrite stagedPins_all by done. lia.
Qed.

Lemma unpinEach_quiet lst ci :
  Forall (purgeable (ps ci)) lst →
  quiet (nfaults (ipfs ci)) → quiet (faults (ds (ps ci))) →
  let r := unpinEach lst ci in
  r.2 = None ∧
  calls (ipfs r.1) = calls (ipfs ci) ++ (PinRm <$> lst) ∧
  heap (ps r.1) = heap (ps ci) ∧ cache (ps r.1) = cache (ps ci) ∧
  quiet (nfaults (ipfs r.1)) ∧ quiet (faults (ds (ps r.1))) ∧
  reclaimed lst ci = lst.
Proof.
  revert ci. induction lst as [|c lst IH]; intros ci Hp Hn Hd; simpl.
  - by rewrite app_nil_r.
  - apply Forall_cons in Hp as [Hc Hp].
    rewrite (unpinStaged_quiet c ci Hc)
      by (by apply quiet_nextFails).
    set (ci' := mkCoreIpfs _ _).
    destruct (IH ci') as (He & Hcalls & Hh & Hca & Hn' & Hd' & Hr).
    + eapply Forall_impl; [done|]. intros c0. by apply purgeable_same.
    + by apply quiet_tail.
    + by apply quiet_tail.
    + repeat split; try done.
      * rewrite Hcalls. simpl. by rewrite <- app_assoc.
      * by rewrite Hr.
Qed.

Lemma candidate_purgeable pref exclude olderThan ci c :
  wf (ps ci) →
  c ∈ (getGCCandidates pref exclude olderThan ci).2.1 →
  purgeable (ps ci) c.
Proof.
  intros [Hb _]. rewrite getGCCandidates_filter. simpl.
  intros (pc & -> & Hin)%list_elem_of_fmap.
  apply list_elem_of_filter in Hin as [(Hst & _ & _) Hin].
  apply list_elem_of_fmap in Hin as ([k pc'] & -> & Hin). simpl in *.
  rewrite rangeMap_perm in Hin. apply elem_of_map_to_list in Hin.
  destruct (Hb k pc' Hin) as (HC & Hlc & Hca).
  exists pc'. rewrite HC. split; [done|]. split.
  - by apply onlyStaged_Forall.
  - apply length_elems. lia.
Qed.

(** When neither the node nor the datastore fails, [GCStaged] unpins every
    candidate at the node, in the order of the scan, and returns them all.
    The cache is the same afterwards. *)
Lemma GCStaged_quiet pref exclude olderThan ci :
  wf (ps ci) →
  quiet (nfaults (ipfs ci)) → quiet (faults (ds (ps ci))) →
  let lst := (getGCCandidates pref exclude olderThan ci).2.1 in
  let r := GCStaged pref exclude olderThan ci in
  r.2 = (lst, None) ∧
  calls (ipfs r.1) = calls (ipfs ci) ++ (PinRm <$> lst) ∧
  heap (ps r.1) = heap (ps ci) ∧ cache (ps r.1) = cache (ps ci) ∧
  quiet (nfaults (ipfs r.1)) ∧ quiet (faults (ds (ps r.1))).
Proof.
  intros Hwf Hn Hd lst r. subst r.
  assert (Forall (purgeable (ps ci)) lst) as Hp.
  { apply Forall_forall. intros c Hc. by eapply candidate_purgeable. }
  subst lst. unfold GCStaged.
  rewrite getGCCandidates_filter in *. simpl in *.
  destruct (unpinEach_quiet _ ci Hp Hn Hd) as (He & Hc & Hh & Hca & Hn' & Hd' & _).
  destruct (unpinEach _ ci) as [ci2 [err|]]; [done|]. done.
Qed.

(** ** What [GCStaged] returns when it fails *)

Lemma unpinEach_error lst ci err :
  (unpinEach lst ci).2 = Some err →
  ∃ e, err = ErrUnpin e ∧ length (reclaimed lst ci) < length lst.
Proof.
  revert ci. induction lst as [|c lst IH]; intros ci; simpl; [done|].
  destruct (unpinStaged c ci) as [ci' [e|]]; simpl.
  - intros [= <-]. exists e. split; [done|lia].
  - intros He. destruct (IH ci' He) as (e & -> & Hl). exists e.
    split; [done|]. simpl. lia.
Qed.

Lemma unpinEach_ok lst ci :
  (unpinEach lst ci).2 = None → reclaimed lst ci = lst.
Proof.
  revert ci. induction lst as [|c lst IH]; intros ci; simpl; [done|].
  destruct (unpinStaged c ci) as [ci' [e|]]; simpl; [done|].
  intros He. by rewrite IH.
Qed.

Lemma unpinStaged_pinset c ci :
  pinset (ipfs (unpinStaged c ci).1) ⊆ pinset (ipfs ci) ∧
  ((unpinStaged c ci).2 = None → c ∉ pinset (ipfs (unpinStaged c ci).1)).
Proof.
  unfold unpinStaged.
  destruct (RefCount c (ps ci)) as [s [count stagedCount]].
  case_decide; simpl; [done|].
  unfold Pin_Rm. destruct (nextFails _); simpl; [done|].
  destruct (RemoveStaged c s) as [s' [err|]]; simpl;
    (split; [by apply subseteq_difference_l|]); [done|].
  intros _. rewrite elem_of_difference, elem_of_singleton. by intros [_ ?].
Qed.

Lemma unpinEach_pinset lst ci :
  pinset (ipfs (unpinEach lst ci).1) ⊆ pinset (ipfs ci).
Proof.
  revert ci. induction lst as [|c lst IH]; intros ci; simpl; [done|].
  destruct (unpinStaged_pinset c ci) as [Hsub _].
  destruct (unpinStaged c ci) as [ci' [e|]]; simpl in *; [done|].
  etrans; [apply IH|done].
Qed.

Lemma reclaimed_unpinned lst ci c :
  c ∈ reclaimed lst ci → c ∉ pinset (ipfs (unpinEach lst ci).1).
Proof.
  revert ci. induction lst as [|c0 lst IH]; intros ci; simpl.
  - by intros ?%elem_of_nil.
  - destruct (unpinStaged_pinset c0 ci) as [_ Hout].
    destruct (unpinStaged c0 ci) as [ci' [e|]]; simpl in *.
    + by intros ?%elem_of_nil.
    + intros [->|Hin]%elem_of_cons.
      * intros Hin. apply Hout; [done|].
        by apply (unpinEach_pinset lst ci').
      * by apply IH.
Qed.

Lemma GCStaged_success_returns_all pref exclude olderThan ci :
  let lst := (getGCCandidates pref exclude olderThan ci).2.1 in
  let r := GCStaged pref exclude olderThan ci in
  r.2.2 = None → r.2.1 = lst ∧ reclaimed lst ci = lst.
Proof.
  intros lst r. subst lst r. unfold GCStaged.
  rewrite getGCCandidates_filter. simpl.
  set (lst := Cid <$> _).
  pose proof (unpinEach_ok lst ci) as Hok.
  destruct (unpinEach lst ci) as [ci2 [err|]]; simpl in *; [done|].
  intros _. by split; [|apply Hok].
Qed.

Lemma GCStaged_failure_drops_all pref exclude olderThan ci :
  let lst := (getGCCandidates pref exclude olderThan ci).2.1 in
  let r := GCStaged pref exclude olderThan ci in
  r.2.2 ≠ None →
  r.2.1 = [] ∧
  (∃ e, r.2.2 = Some (ErrUnpin e)) ∧
  length (reclaimed lst ci) < length lst ∧
  ∀ c, c ∈ reclaimed lst ci → c ∉ pinset (ipfs r.1).
Proof.
  intros lst r. subst lst r. unfold GCStaged.
  rewrite getGCCandidates_filter. simpl.
  set (lst := Cid <$> _).
  pose proof (unpinEach_error lst ci) as Herr.
  pose proof (reclaimed_unpinned lst ci) as Hun.
  destruct (unpinEach lst ci) as [ci2 [err|]]; simpl in *; [|done].
  intros _. destruct (Herr err eq_refl) as (e & -> & Hl).
  split; [done|]. split; [by exists e|]. done.
Qed.

(** C2, as the code has it. When [GCStaged] fails it returns the error of
    the first unpin that failed and the nil list: the identifiers that were
    unpinned and purged before the failure are not reported, although they
    stay unpinned at the node. Only a run without error returns the
    identifiers it reclaimed, which are then all the candidates. *)
Theorem GCStaged_failure_returns_nil pref exclude olderThan ci :
  let lst := (getGCCandidates pref exclude olderThan ci).2.1 in
  let r := GCStaged pref exclude olderThan ci in
  (r.2.2 ≠ None →
     r.2.1 = [] ∧
     (∃ e, r.2.2 = Some (ErrUnpin e)) ∧
     length (reclaimed lst ci) < length lst ∧
     ∀ c, c ∈ reclaimed lst ci → c ∉ pinset (ipfs r.1)) ∧
  (r.2.2 = None → r.2.1 = lst ∧ reclaimed lst ci = lst).
Proof.
  split.
  - apply GCStaged_failure_drops_all.
  - apply GCStaged_success_returns_all.
Qed.

Lemma GetAllOnlyStaged_elem pref s c pc :
  cache s !! c = Some pc → onlyStaged (heap s) pc = true →
  pc ∈ (GetAllOnlyStaged pref s).2.1.
Proof.
  intros Hc Hs. rewrite GetAllOnlyStaged_filter. simpl.
  apply list_elem_of_filter. split; [done|].
  apply list_elem_of_fmap. exists (c, pc). split; [done|].
  rewrite rangeMap_perm. by apply elem_of_map_to_list.
Qed.

Section defects.
Variable growslice : nat → nat.

(** C1, as the code behaves. A successful [RemoveStaged] deletes the document
    of [c] from the datastore and puts the entry it read back into the cache:
    the cache is the same map as before, [IsPinned] still answers true,
    [RefCount] still counts the records and [GetAllOnlyStaged] still lists
    the entry. *)
Theorem RemoveStaged_keeps_cache_entry pref c s :
  (RemoveStaged c s).2 = None →
  let s' := (RemoveStaged c s).1 in
  kv (ds s') !! makeKey c = None ∧
  cache s' = cache s ∧
  (IsPinned c s').2 = true ∧
  (RefCount c s').2 = (RefCount c s).2 ∧
  entry c s ∈ (GetAllOnlyStaged pref s').2.1.
Proof.
  unfold RemoveStaged. destruct (cache s !! c) as [pc|] eqn:Hc; [|done].
  destruct (forallb Staged _) eqn:Hs; [|done].
  unfold Delete. destruct (nextFails _); [done|]. intros _.
  rewrite insert_id by done. cbn [fst snd].
  set (s' := mkStore _ _ _).
  split; [apply lookup_delete_eq|].
  split; [done|]. split; [|split].
  - unfold IsPinned. simpl. rewrite Hc. by apply bool_decide_eq_true.
  - unfold RefCount. simpl. by rewrite Hc.
  - rewrite (entry_lookup c s pc Hc).
    by apply (GetAllOnlyStaged_elem pref s' c).
Qed.

Lemma Remove_cache_found t c s pc i p :
  backed c s → cache s !! c = Some pc →
  findPin t (pinsOf c s) = Some (i, p) →
  nextFails (faults (ds s)) = false →
  cache (Remove t c s).1
  = <[c := mkPinnedCid c (reslice (Pins pc) (len (Pins pc) - 1))]> (cache s).
Proof.
  intros Hb Hc Hf Hn. destruct (Hb pc Hc) as (HC & _).
  unfold Remove. rewrite Hc.
  unfold pinsOf in Hf. rewrite (entry_lookup c s pc Hc) in Hf. rewrite Hf.
  rewrite persist_cache. simpl. by rewrite Hn, HC.
Qed.

(** C9, as the code behaves. When [Remove] deletes the only record of an
    entry it persists the entry with no pins: the Cid stays in the cache,
    [IsPinned] answers true and [GetAllOnlyStaged] lists the Cid. *)
Theorem Remove_last_record_keeps_entry pref t c s p :
  backed c s → pinsOf c s = [p] → APIID p = t →
  nextFails (faults (ds s)) = false →
  let s' := (Remove t c s).1 in
  (Remove t c s).2 = None ∧
  pinsOf c s' = [] ∧
  (RefCount c s').2 = (0, 0) ∧
  (IsPinned c s').2 = true ∧
  c ∈ Cid <$> (GetAllOnlyStaged pref s').2.1.
Proof.
  intros Hb Hp Ht Hn s'.
  assert (findPin t (pinsOf c s) = Some (0, p)) as Hf.
  { rewrite Hp. unfold findPin. simpl. by rewrite decide_True. }
  destruct (found_in_cache _ _ _ _ _ Hf) as (pc & Hc & He & _).
  destruct (Hb pc Hc) as (HC & Hlc & Hca).
  assert (len (Pins pc) = 1) as Hlen.
  { rewrite <- (length_elems (heap s) (Pins pc)) by lia.
    unfold pinsOf in Hp. rewrite He in Hp. by rewrite Hp. }
  destruct (Remove_found t c s 0 p Hb Hf) as (Herr & Hpins & _).
  rewrite Hn in Herr, Hpins. rewrite Hp in Hpins. simpl in Hpins.
  pose proof (Remove_cache_found t c s pc 0 p Hb Hc Hf Hn) as Hca'.
  rewrite Hlen in Hca'. simpl in Hca'. fold s' in Hpins, Hca'.
  split; [done|]. split; [done|].
  assert (cache s' !! c = Some (mkPinnedCid c (reslice (Pins pc) 0))) as Hc'
    by (by rewrite Hca', lookup_insert_eq).
  split; [|split].
  - unfold RefCount. by rewrite Hc'.
  - unfold IsPinned. simpl. rewrite Hc'. by apply bool_decide_eq_true.
  - apply list_elem_of_fmap.
    exists (mkPinnedCid c (reslice (Pins pc) 0)). split; [done|].
    by apply (GetAllOnlyStaged_elem pref s' c).
Qed.

Lemma Add_error now t c s :
  (Add growslice now t c s).2 =
    if nextFails (faults (ds s)) then Some (ErrPut ErrExternal) else None.
Proof.
  unfold Add. destruct (findPin _ _) as [[i p]|].
  - by rewrite persist_error.
  - destruct (append _ _ _ _) as [h sl]. by rewrite persist_error.
Qed.

(** C10, as the code behaves. The three mutators write into the array that
    the cached entry shares before they call [persist]. When the record of
    [t] exists and the write to the datastore fails, each returns the error
    and the cache nevertheless shows the edit: [Remove] has overwritten the
    record of [t] with the last record, [Add] has made it durable with a new
    CreatedAt, [AddStaged] has given a staged record a new CreatedAt. *)
Theorem failed_write_leaves_edit now t c s i p :
  backed c s →
  findPin t (pinsOf c s) = Some (i, p) →
  nextFails (faults (ds s)) = true →
  let last := default zeroPin (pinsOf c s !! (length (pinsOf c s) - 1)) in
  ((Remove t c s).2 = Some (ErrPut ErrExternal) ∧
   pinsOf c (Remove t c s).1 = <[i := last]> (pinsOf c s)) ∧
  ((Add growslice now t c s).2 = Some (ErrPut ErrExternal) ∧
   pinsOf c (Add growslice now t c s).1
     = <[i := mkPin t false now]> (pinsOf c s)) ∧
  (Staged p = true →
   (AddStaged growslice now t c s).2 = Some (ErrPut ErrExternal) ∧
   pinsOf c (AddStaged growslice now t c s).1
     = <[i := mkPin t true now]> (pinsOf c s)).
Proof.
  intros Hb Hf Hn last. subst last. split; [|split].
  - destruct (Remove_found t c s i p Hb Hf) as (He & Hp & _).
    by rewrite Hn in *.
  - rewrite Add_error, Add_pinsOf, Hf, Hn by done. done.
  - intros Hs. rewrite AddStaged_pinsOf, Hf, Hs by done. split; [|done].
    unfold AddStaged. fold (pinsOf c s). rewrite Hf, Hs. simpl.
    rewrite persist_error. simpl. by rewrite Hn.
Qed.

(** C8, as the code behaves. [Remove] copies the last record over the record
    of [t] before it persists. When the write then fails the cached entry
    keeps its length: the last tenant now has two records in it. *)
Theorem failed_Remove_duplicates_tenant fs t c s i p :
  reachable growslice fs s →
  findPin t (pinsOf c s) = Some (i, p) →
  i < length (pinsOf c s) - 1 →
  nextFails (faults (ds s)) = true →
  reachable growslice fs (Remove t c s).1 ∧
  ¬ oneRecordPerTenant c (Remove t c s).1.
Proof.
  intros Hr Hf Hi Hn. split; [by constructor|].
  pose proof (reachable_wf growslice fs s Hr) as [Hb _].
  destruct (Remove_found t c s i p (Hb c) Hf) as (_ & Hp & _).
  rewrite Hn in Hp. unfold oneRecordPerTenant. rewrite Hp.
  set (n := length (pinsOf c s)) in *.
  destruct (pinsOf c s !! (n - 1)) as [y|] eqn:Hy;
    [|apply lookup_ge_None in Hy; lia].
  simpl. rewrite NoDup_alt. intros Hnd.
  assert (i = n - 1); [|lia].
  apply (Hnd i (n - 1) (APIID y)).
  - rewrite list_lookup_fmap, list_lookup_insert_eq by lia. done.
  - rewrite list_lookup_fmap, list_lookup_insert_ne by lia.
    by rewrite Hy.
Qed.

(** C5, as the code behaves. In the scenario of the exclusion test, whatever
    order the scans follow, the first collection (c1 excluded) returns
    exactly c2, and the second collection (nothing excluded, same cutoff)
    returns c1 and c2 again, because c2 never left the cache. *)
Theorem GCStaged_exclusion_then_all pref1 pref2 :
  let r1 := GCStaged pref1 ["c1"] 100 (twoStaged growslice) in
  let r2 := GCStaged pref2 [] 100 r1.1 in
  r1.2 = (["c2"], None) ∧
  r2.2.2 = None ∧ r2.2.1 ≡ₚ ["c1"; "c2"] ∧ r2.2.1 ≠ ["c1"].
Proof.
  intros r1 r2.
  assert (wf (ps (twoStaged growslice))) as Hwf.
  { apply (reachable_wf growslice []). simpl. do 2 constructor. constructor. }
  assert (quiet (nfaults (ipfs (twoStaged growslice)))) as Hn by constructor.
  assert (quiet (faults (ds (ps (twoStaged growslice))))) as Hd.
  { apply (reachable_quiet growslice []); [constructor|].
    simpl. do 2 constructor. constructor. }
  destruct (GCStaged_quiet pref1 ["c1"] 100%Z _ Hwf Hn Hd)
    as (H1 & _ & Hh & Hc & Hn1 & Hd1).
  fold r1 in H1, Hh, Hc, Hn1, Hd1.
  assert (wf (ps r1.1)) as Hwf1 by (by apply (wf_same (ps (twoStaged growslice)))).
  destruct (GCStaged_quiet pref2 [] 100%Z _ Hwf1 Hn1 Hd1) as (H2 & _).
  fold r2 in H2.
  rewrite getGCCandidates_filter in H1, H2. cbn [fst snd] in H1, H2.
  rewrite Hh, Hc in H2.
  assert (∀ pref ex,
            Cid <$> filter (gcCandidate (heap (ps (twoStaged growslice))) ex 100%Z)
                      (rangeMap pref (cache (ps (twoStaged growslice)))).*2
            ≡ₚ Cid <$> filter (gcCandidate (heap (ps (twoStaged growslice))) ex 100%Z)
                      (map_to_list (cache (ps (twoStaged growslice)))).*2) as Hperm.
  { intros pref ex. by rewrite rangeMap_perm. }
  pose proof (Hperm pref1 ["c1"]) as Hp1. pose proof (Hperm pref2 []) as Hp2.
  rewrite H1, H2. cbn [fst snd].
  set (l1 := Cid <$> filter _ (rangeMap pref1 _).*2) in *.
  set (l2 := Cid <$> filter _ (rangeMap pref2 _).*2) in *.
  clearbody l1 l2. clear -Hp1 Hp2.
  vm_compute in Hp1. vm_compute in Hp2.
  apply Permutation_singleton_r in Hp1. subst l1.
  split; [done|]. split; [done|]. split.
  - done.
  - intros ->. apply Permutation_length in Hp2. simpl in Hp2. lia.
Qed.

End defects.

(** * Concrete runs *)

Ltac backed_by_computation :=
  let pc := fresh "pc" in
  let Hpc := fresh "Hpc" in
  intros pc Hpc; vm_compute in Hpc; injection Hpc as <-;
  vm_compute; repeat split; lia.

(** C2, as stated, fails. Two staged Cids are candidates; the node unpins the
    first and refuses the second. c1 has been reclaimed (unpinned at the node,
    deleted from the datastore), yet [GCStaged] returns the nil list with the
    error, not the list holding c1. *)
Lemma GCStaged_partial_result_lost :
  let ci := mkCoreIpfs (mkNode {[ "c1"; "c2" ]} [] [false; true])
                       (ps (twoStaged doubling)) in
  let lst := (getGCCandidates ["c1"; "c2"] [] 100 ci).2.1 in
  let r := GCStaged ["c1"; "c2"] [] 100 ci in
  lst = ["c1"; "c2"] ∧
  reclaimed lst ci = ["c1"] ∧
  calls (ipfs r.1) = [PinRm "c1"; PinRm "c2"] ∧
  kv (ds (ps r.1)) !! makeKey "c1" = None ∧
  r.2 = ([], Some (ErrUnpin (ErrUnpin ErrExternal))) ∧
  r.2.1 ≠ reclaimed lst ci.
Proof. vm_compute. repeat split. discriminate. Qed.

(** What the entry left by the last [Remove] costs. Tenant A pins "c" and
    unpins it, so the node unpins "c"; tenant B then pins "c". [Pin] finds the
    empty entry, takes "c" for pinned in the node and does not ask the node to
    pin it: the ledger counts B's durable pin of a Cid the node does not
    pin. *)
Lemma Pin_after_last_unpin_skips_node :
  let ci0 := mkCoreIpfs (mkNode ∅ [] []) (newLedger []) in
  let ci1 := (coreipfs.Pin doubling 1 7 "A" "c" ci0).1 in
  let ci2 := (unpin "A" "c" ci1).1 in
  let r := coreipfs.Pin doubling 2 7 "B" "c" ci2 in
  r.2 = (7, None) ∧
  calls (ipfs r.1) = [PinAdd "c"; ObjectStat "c"; PinRm "c"; ObjectStat "c"] ∧
  elements (pinset (ipfs r.1)) = [] ∧
  (IsPinnedBy "B" "c" (ps r.1)).2 = true ∧
  (RefCount "c" (ps r.1)).2 = (1, 0).
Proof. vm_compute. repeat split. Qed.

Lemma GCStaged_failure_returns_nil_witness :
  let ci := mkCoreIpfs (mkNode {[ "c1"; "c2" ]} [] [false; true])
                       (ps (twoStaged doubling)) in
  let r := GCStaged ["c1"; "c2"] [] 100 ci in
  r.2.2 ≠ None ∧ r.2.1 = [] ∧
  length (reclaimed (getGCCandidates ["c1"; "c2"] [] 100 ci).2.1 ci) < 2.
Proof.
  intros ci r.
  assert (r.2.2 ≠ None) as H by (vm_compute; discriminate).
  destruct (proj1 (GCStaged_failure_returns_nil ["c1"; "c2"] [] 100%Z ci) H)
    as (H1 & _ & H2 & _).
  split; [exact H|]. split; [exact H1|exact H2].
Defined.

Lemma AddStaged_durable_precedence_witness :
  backed "c" (ledgerAB []) ∧
  AddStaged doubling 9 "B" "c" (ledgerAB []) = (ledgerAB [], None) ∧
  pinsOf "c" (AddStaged doubling 9 "A" "c" (ledgerAB [])).1
    = [mkPin "A" true 9; mkPin "B" false 2] ∧
  pinsOf "c" (AddStaged doubling 9 "C" "c" (ledgerAB [])).1
    = [mkPin "A" true 1; mkPin "B" false 2; mkPin "C" true 9].
Proof.
  assert (backed "c" (ledgerAB [])) as H by backed_by_computation.
  split; [exact H|]. split; [|split].
  - exact (proj2 (AddStaged_durable_precedence doubling 9 "B" "c" (ledgerAB []) H)).
  - exact (proj2 (proj2 (AddStaged_durable_precedence doubling 9 "A" "c"
                           (ledgerAB []) H) eq_refl)).
  - exact (proj2 (proj2 (AddStaged_durable_precedence doubling 9 "C" "c"
                           (ledgerAB []) H) eq_refl)).
Defined.

Lemma Remove_cases_witness :
  backed "c" (ledgerAB []) ∧
  (Remove "A" "c" (ledgerAB [])).2 = None ∧
  pinsOf "c" (Remove "A" "c" (ledgerAB [])).1 ≡ₚ [mkPin "B" false 2] ∧
  Remove "Z" "c" (ledgerAB []) = (ledgerAB [], None) ∧
  ((Remove "A" "d" (ledgerAB [])).2 = Some ErrNotPinned ↔
   cache (ledgerAB []) !! "d" = None).
Proof.
  assert (backed "c" (ledgerAB [])) as H by backed_by_computation.
  assert (backed "d" (ledgerAB [])) as H' by (intros pc Hpc; vm_compute in Hpc; discriminate).
  destruct (Remove_cases "A" "c" (ledgerAB []) H) as (_ & _ & H3).
  destruct (H3 0 (mkPin "A" true 1) eq_refl eq_refl) as (He & _ & Hp & _).
  destruct (Remove_cases "Z" "c" (ledgerAB []) H) as (_ & H2 & _).
  destruct (Remove_cases "A" "d" (ledgerAB []) H') as (H1 & _).
  split; [exact H|]. split; [exact He|]. split; [exact Hp|].
  split; [|exact H1].
  apply H2; [|reflexivity]. vm_compute. eexists. reflexivity.
Defined.

Lemma RefCount_total_ge_staged_witness :
  reachable doubling [] (ledgerAB []) ∧
  (RefCount "c" (ledgerAB [])).2 = (2, 1) ∧
  (RefCount "d" (ledgerAB [])).2 = (0, 0).
Proof.
  assert (reachable doubling [] (ledgerAB [])) as H.
  { unfold ledgerAB. apply reach_Add, reach_AddStaged, reach_new. }
  split; [exact H|]. split.
  - exact (proj2 (proj2 (proj2 (RefCount_total_ge_staged doubling [] "c" _ H)))).
  - exact (proj1 (proj2 (RefCount_total_ge_staged doubling [] "d" _ H)) eq_refl).
Defined.

Lemma getGCCandidates_exact_witness :
  (getGCCandidates [] ["c1"] 100 (twoStaged doubling)).2.1 ≡ₚ ["c2"] ∧
  unpinStaged "c" (mkCoreIpfs (mkNode ∅ [] []) (ledgerAB []))
  = (mkCoreIpfs (mkNode ∅ [] []) (ledgerAB []),
     Some (ErrNotOnlyStagePins "c" 2 1)) ∧
  calls (ipfs (unpinStaged "c1" (twoStaged doubling)).1) = [PinRm "c1"].
Proof.
  destruct (getGCCandidates_exact [] ["c1"] 100%Z (twoStaged doubling))
    as (_ & _ & H1 & _ & H2).
  destruct (getGCCandidates_exact [] [] 100%Z
              (mkCoreIpfs (mkNode ∅ [] []) (ledgerAB []))) as (_ & _ & _ & _ & H3).
  split; [exact H1|]. split.
  - apply (proj1 (H3 "c")). vm_compute. discriminate.
  - exact (proj1 (proj2 (H2 "c1") eq_refl)).
Defined.

Lemma RemoveStaged_keeps_cache_entry_witness :
  let s := ps (twoStaged doubling) in
  let s' := (RemoveStaged "c1" s).1 in
  (RemoveStaged "c1" s).2 = None ∧
  kv (ds s') !! makeKey "c1" = None ∧
  (IsPinned "c1" s').2 = true ∧
  (RefCount "c1" s').2 = (1, 1).
Proof.
  intros s s'.
  assert ((RemoveStaged "c1" s).2 = None) as H by (vm_compute; reflexivity).
  destruct (RemoveStaged_keeps_cache_entry [] "c1" s H) as (H1 & _ & H2 & H3 & _).
  split; [exact H|]. split; [exact H1|]. split; [exact H2|exact H3].
Defined.

Lemma Remove_last_record_keeps_entry_witness :
  let s := (Add doubling 1 "A" "c" (newLedger [])).1 in
  let s' := (Remove "A" "c" s).1 in
  backed "c" s ∧ pinsOf "c" s = [mkPin "A" false 1] ∧
  (Remove "A" "c" s).2 = None ∧
  pinsOf "c" s' = [] ∧
  (IsPinned "c" s').2 = true ∧
  "c" ∈ Cid <$> (GetAllOnlyStaged [] s').2.1.
Proof.
  intros s s'.
  assert (backed "c" s) as H by backed_by_computation.
  destruct (Remove_last_record_keeps_entry [] "A" "c" s (mkPin "A" false 1)
              H eq_refl eq_refl eq_refl) as (H1 & H2 & _ & H3 & H4).
  split; [exact H|]. split; [reflexivity|].
  split; [exact H1|]. split; [exact H2|]. split; [exact H3|exact H4].
Defined.

Lemma failed_write_leaves_edit_witness :
  let s := ledgerAB [false; false; true] in
  backed "c" s ∧
  (RefCount "c" s).2 = (2, 1) ∧ (IsPinnedBy "A" "c" s).2 = true ∧
  (Remove "A" "c" s).2 = Some (ErrPut ErrExternal) ∧
  pinsOf "c" (Remove "A" "c" s).1 = [mkPin "B" false 2; mkPin "B" false 2] ∧
  (RefCount "c" (Remove "A" "c" s).1).2 = (2, 0) ∧
  (IsPinnedBy "A" "c" (Remove "A" "c" s).1).2 = false ∧
  (Add doubling 9 "A" "c" s).2 = Some (ErrPut ErrExternal) ∧
  pinsOf "c" (Add doubling 9 "A" "c" s).1 = [mkPin "A" false 9; mkPin "B" false 2] ∧
  (AddStaged doubling 9 "A" "c" s).2 = Some (ErrPut ErrExternal) ∧
  pinsOf "c" (AddStaged doubling 9 "A" "c" s).1 = [mkPin "A" true 9; mkPin "B" false 2].
Proof.
  intros s.
  assert (backed "c" s) as H by backed_by_computation.
  destruct (failed_write_leaves_edit doubling 9 "A" "c" s 0 (mkPin "A" true 1)
              H eq_refl eq_refl) as ((H1 & H2) & (H3 & H4) & H5).
  destruct (H5 eq_refl) as (H6 & H7).
  split; [exact H|]. split; [reflexivity|]. split; [reflexivity|].
  split; [exact H1|]. split; [exact H2|].
  split; [vm_compute; reflexivity|]. split; [vm_compute; reflexivity|].
  split; [exact H3|]. split; [exact H4|]. split; [exact H6|exact H7].
Defined.

Lemma failed_Remove_duplicates_tenant_witness :
  let s := ledgerABC [false; false; false; true] in
  reachable doubling [false; false; false; true] s ∧
  oneRecordPerTenant "c" s ∧
  reachable doubling [false; false; false; true] (Remove "A" "c" s).1 ∧
  pinsOf "c" (Remove "A" "c" s).1
    = [mkPin "C" false 3; mkPin "B" false 2; mkPin "C" false 3] ∧
  ¬ oneRecordPerTenant "c" (Remove "A" "c" s).1.
Proof.
  intros s.
  assert (reachable doubling [false; false; false; true] s) as H.
  { unfold s, ledgerABC, ledgerAB.
    apply reach_Add, reach_Add, reach_AddStaged, reach_new. }
  assert (2 > 0) as Hlt by lia.
  destruct (failed_Remove_duplicates_tenant doubling _ "A" "c" s 0
              (mkPin "A" true 1) H eq_refl Hlt eq_refl) as (H1 & H2).
  split; [exact H|]. split.
  { unfold oneRecordPerTenant. vm_compute. repeat constructor;
      rewrite ?list_elem_of_In; simpl; intuition discriminate. }
  split; [exact H1|]. split; [vm_compute; reflexivity|exact H2].
Defined.

(** * The datastore behind the cache *)

Lemma makeKey_inj c1 c2 : makeKey c1 = makeKey c2 → c1 = c2.
Proof. unfold makeKey. simpl. intros H. by simplify_eq. Qed.

Lemma makeKey_below_base c : String.prefix (pinBaseKey +:+ "/") (makeKey c) = true.
Proof. by destruct c. Qed.

Lemma pinsOf_view c s : pinsOf c s = default [] (view s !! c).
Proof.
  unfold pinsOf, entry, view. rewrite lookup_fmap.
  by destruct (cache s !! c).
Qed.

Lemma view_persist_mutation s c h sl :
  wf s → mutation s c h sl →
  nextFails (faults (ds s)) = false →
  let s' := (persist (mkPinnedCid c sl) (mkStore h (ds s) (cache s))).1 in
  view s' = <[c := elems h sl]> (view s) ∧
  kv (ds s') = <[makeKey c := (c, elems h sl)]> (kv (ds s)).
Proof.
  intros Hwf (_ & _ & Ho) Hn s'. subst s'.
  rewrite persist_ok by done. simpl. split; [|done].
  unfold view. simpl. rewrite fmap_insert. simpl.
  apply map_eq. intros c0. destruct (decide (c0 = c)) as [->|Hne].
  - by rewrite !lookup_insert_eq.
  - rewrite !lookup_insert_ne by done. rewrite !lookup_fmap.
    destruct (cache s !! c0) as [pc0|] eqn:Hc0; [|done]. simpl.
    f_equal. by apply (Ho c0 pc0).
Qed.

Lemma mirrors_step s c r :
  wf s → mirrors s → mutates s c r →
  nextFails (faults (ds s)) = false → mirrors r.1.
Proof.
  intros Hwf Hm [->|(h & sl & Hmu & ->)] Hn; [done|].
  destruct (view_persist_mutation s c h sl Hwf Hmu Hn) as [Hv Hk].
  intros k v. rewrite Hv, Hk.
  destruct (decide (k = makeKey c)) as [->|Hne].
  - rewrite lookup_insert_eq. split.
    + intros [= <-]. exists c. by rewrite lookup_insert_eq.
    + intros (c' & Hc' & Hv1 & Hv2). apply makeKey_inj in Hc'. subst c'.
      rewrite lookup_insert_eq in Hv2. destruct v as [v1 v2]. simpl in *.
      by simplify_eq.
  - rewrite lookup_insert_ne by done. rewrite (Hm k v).
    split; intros (c' & -> & Hv1 & Hv2); exists c'.
    + rewrite lookup_insert_ne by (by intros ->). done.
    + rewrite lookup_insert_ne in Hv2 by (by intros ->). done.
Qed.

Lemma mirrors_newLedger fs : mirrors (newLedger fs).
Proof.
  intros k v. unfold newLedger, view. simpl. rewrite lookup_empty.
  split; [done|]. intros (c & _ & _ & Hc).
  by rewrite fmap_empty, lookup_empty in Hc.
Qed.

Section datastore.
Variable growslice : nat → nat.

Lemma edited_reachable fs s :
  edited growslice fs s → reachable growslice fs s.
Proof. induction 1; by constructor. Qed.

Lemma edited_mirrors_wf fs s :
  quiet fs → edited growslice fs s → mirrors s.
Proof.
  intros Hq. induction 1 as [|now t c s He IH|now t c s He IH|t c s He IH].
  - apply mirrors_newLedger.
  - pose proof (edited_reachable _ _ He) as Hr.
    pose proof (reachable_wf growslice _ _ Hr) as Hwf.
    apply (mirrors_step s c); [done|done|by apply AddStaged_mutates|].
    by apply quiet_nextFails, (reachable_quiet growslice fs).
  - pose proof (edited_reachable _ _ He) as Hr.
    pose proof (reachable_wf growslice _ _ Hr) as Hwf.
    apply (mirrors_step s c); [done|done|by apply Add_mutates|].
    by apply quiet_nextFails, (reachable_quiet growslice fs).
  - pose proof (edited_reachable _ _ He) as Hr.
    pose proof (reachable_wf growslice _ _ Hr) as Hwf.
    apply (mirrors_step s c); [done|done|by apply Remove_mutates|].
    by apply quiet_nextFails, (reachable_quiet growslice fs).
Qed.

End datastore.

(** * Building the store *)

Lemma array_alloc_le h a p : length (array h p) ≤ length (array (h ++ [a]) p).
Proof.
  destruct (decide (p < length h)).
  - by rewrite array_alloc_old.
  - rewrite (array_invalid h) by lia. simpl. lia.
Qed.

Section building.
Variable jsoncap : nat → nat.

Lemma Unmarshal_wf h doc d ret :
  wf (mkStore h d ret) →
  let r := Unmarshal jsoncap h doc in
  wf (mkStore r.1 d (<[Cid r.2 := r.2]> ret)) ∧
  view (mkStore r.1 d (<[Cid r.2 := r.2]> ret))
  = <[doc.1 := doc.2]> (view (mkStore h d ret)).
Proof.
  intros [Hb Hu] r. subst r. unfold Unmarshal. simpl in *.
  set (n := length doc.2). set (c := n `max` jsoncap n).
  set (arr := doc.2 ++ replicate (c - n) zeroPin).
  set (pc := mkPinnedCid doc.1 (mkSlice (length h) n c)).
  assert (∀ c0 pc0, ret !! c0 = Some pc0 → backedEntry (h ++ [arr]) c0 pc0)
    as Hold.
  { intros c0 pc0 Hc0. destruct (Hb c0 pc0 Hc0) as (? & ? & ?).
    repeat split; [done..|]. etrans; [done|]. apply array_alloc_le. }
  assert (∀ c0 pc0, ret !! c0 = Some pc0 → 0 < cap (Pins pc0) →
                    ptr (Pins pc0) < length h) as Hlt.
  { intros c0 pc0 Hc0 Hcap. destruct (Hb c0 pc0 Hc0) as (_ & _ & Hca).
    simpl in Hca. destruct (decide (ptr (Pins pc0) < length h)); [done|].
    rewrite (array_invalid h) in Hca by lia. simpl in Hca. lia. }
  split; [split|].
  - intros c0 pc0. simpl. destruct (decide (c0 = doc.1)) as [->|Hne].
    + rewrite lookup_insert_eq. intros [= <-]. repeat split; simpl; [lia|].
      rewrite array_alloc_new. unfold arr.
      rewrite length_app, length_replicate. lia.
    + rewrite lookup_insert_ne by done. by apply Hold.
  - intros c1 c2 pc1 pc2 Hne. simpl.
    destruct (decide (c1 = doc.1)) as [->|Hne1];
      destruct (decide (c2 = doc.1)) as [->|Hne2]; try done.
    + rewrite lookup_insert_eq, lookup_insert_ne by done.
      intros [= <-] Hc2 _ Hcap. simpl.
      pose proof (Hlt c2 pc2 Hc2 Hcap). lia.
    + rewrite lookup_insert_eq, lookup_insert_ne by done.
      intros Hc1 [= <-] Hcap _. simpl.
      pose proof (Hlt c1 pc1 Hc1 Hcap). lia.
    + rewrite !lookup_insert_ne by done. by apply (Hu c1 c2).
  - unfold view. simpl. rewrite fmap_insert. simpl.
    apply map_eq. intros c0. destruct (decide (c0 = doc.1)) as [->|Hne].
    + rewrite !lookup_insert_eq. f_equal. unfold elems. simpl.
      rewrite array_alloc_new. unfold arr. by apply take_app_length'.
    + rewrite !lookup_insert_ne by done. rewrite !lookup_fmap.
      destruct (ret !! c0) as [pc0|] eqn:Hc0; [|done]. simpl. f_equal.
      destruct (Hb c0 pc0 Hc0) as (_ & ? & ?). simpl in *.
      apply elems_alloc. lia.
Qed.

Lemma populateLoop_spec items fs h ret d :
  wf (mkStore h d ret) →
  let r := populateLoop jsoncap items fs h ret in
  (r.2.2 = None →
     wf (mkStore r.2.1.1 d r.2.1.2) ∧
     view (mkStore r.2.1.1 d r.2.1.2) = gather (view (mkStore h d ret)) items) ∧
  (quiet fs → r.2.2 = None ∧ quiet r.1) ∧
  (∀ e, r.2.2 = Some e → e = ErrQueryItem ∧ ¬ quiet fs).
Proof.
  revert fs h ret. induction items as [|res items IH]; intros fs h ret Hwf; simpl.
  - split; [by intros _|]. split; [done|]. by intros e ?.
  - destruct (nextFails fs) eqn:Hn; simpl.
    + split; [done|]. split.
      * intros Hq. by rewrite (quiet_nextFails fs Hq) in Hn.
      * intros e [= <-]. split; [done|]. intros Hq.
        by rewrite (quiet_nextFails fs Hq) in Hn.
    + pose proof (Unmarshal_wf h res.2 d ret Hwf) as Hu.
      unfold Unmarshal in Hu. simpl in Hu. destruct Hu as [Hwf' Hv].
      destruct (IH (tail fs) _ _ Hwf') as (H1 & H2 & H3).
      split; [|split].
      * intros He. destruct (H1 He) as [? Hg]. split; [done|].
        rewrite Hg, Hv. done.
      * intros Hq. apply H2. by apply quiet_tail.
      * intros e He. destruct (H3 e He) as [-> Hnq]. split; [done|].
        intros Hq. by apply Hnq, quiet_tail.
Qed.

Lemma wf_empty d : wf (mkStore [] d ∅).
Proof.
  split.
  - intros c pc. simpl. by rewrite lookup_empty.
  - intros c1 c2 pc1 pc2 _. simpl. by rewrite lookup_empty.
Qed.

Lemma view_empty d : view (mkStore [] d ∅) = ∅.
Proof. unfold view. simpl. by rewrite fmap_empty. Qed.

Lemma gather_notin items m c :
  c ∉ (λ e : string * (cid.Cid * list Pin), e.2.1) <$> items →
  gather m items !! c = m !! c.
Proof.
  revert m. induction items as [|e items IH]; intros m Hc; [done|].
  rewrite fmap_cons, not_elem_of_cons in Hc. destruct Hc as [Hne Hc].
  unfold gather in *. simpl. rewrite IH by done. by rewrite lookup_insert_ne.
Qed.

Lemma gather_in items m e :
  NoDup ((λ e : string * (cid.Cid * list Pin), e.2.1) <$> items) →
  e ∈ items → gather m items !! e.2.1 = Some e.2.2.
Proof.
  revert m. induction items as [|e0 items IH]; intros m Hnd He.
  - by apply elem_of_nil in He.
  - rewrite fmap_cons in Hnd. apply NoDup_cons in Hnd as [Hni Hnd].
    apply elem_of_cons in He as [->|He].
    + change (gather m (e0 :: items))
        with (gather (<[e0.2.1 := e0.2.2]> m) items).
      rewrite gather_notin by done. by rewrite lookup_insert_eq.
    + change (gather m (e0 :: items))
        with (gather (<[e0.2.1 := e0.2.2]> m) items).
      by apply IH.
Qed.

Lemma New_quiet pref d :
  quiet (faults d) →
  ∃ s', New jsoncap pref d = (Some s', None) ∧ wf s' ∧ kv (ds s') = kv d ∧
        quiet (faults (ds s')) ∧
        view s' = gather ∅ (filter (λ e, String.prefix (pinBaseKey +:+ "/") e.1 = true)
                                   (rangeMap pref (kv d))).
Proof.
  intros Hq. unfold New, populateCache, Query.
  rewrite (quiet_nextFails _ Hq). simpl.
  set (items := filter _ _).
  pose proof (populateLoop_spec items (tail (faults d)) [] ∅
                (mkDatastore (kv d) (tail (faults d))) (wf_empty _))
    as (H1 & H2 & _).
  destruct (H2 (quiet_tail _ Hq)) as [He Hq'].
  destruct (populateLoop jsoncap items (tail (faults d)) [] ∅)
    as [fs [[h m] e]]; simpl in *. subst e.
  destruct (H1 eq_refl) as [Hwf Hv].
  eexists. split; [done|]. split.
  { by apply (wf_same (mkStore h (mkDatastore (kv d) (tail (faults d))) m)). }
  split; [done|]. split; [done|].
  unfold view in *. simpl in *. by rewrite Hv, fmap_empty.
Qed.

Lemma filter_all {A} (P : A → Prop) `{!∀ x, Decision (P x)} (l : list A) :
  Forall P l → filter P l = l.
Proof.
  induction 1 as [|x l Hx _ IH]; [done|].
  rewrite filter_cons_True by done. by rewrite IH.
Qed.

Lemma New_keyed pref d :
  quiet (faults d) →
  (∀ k v, kv d !! k = Some v → k = makeKey v.1) →
  ∃ s', New jsoncap pref d = (Some s', None) ∧ wf s' ∧ kv (ds s') = kv d ∧
        quiet (faults (ds s')) ∧
        ∀ c, view s' !! c = snd <$> kv d !! makeKey c.
Proof.
  intros Hq Hk. destruct (New_quiet pref d Hq) as (s' & HN & Hwf & Hkv & Hq' & Hv).
  exists s'. do 4 (split; [done|]). intros c. rewrite Hv. clear Hv.
  assert (∀ e, e ∈ rangeMap pref (kv d) ↔ kv d !! e.1 = Some e.2) as Hin.
  { intros [k v]. rewrite (rangeMap_perm pref (kv d)).
    apply elem_of_map_to_list. }
  rewrite filter_all.
  2:{ apply Forall_forall. intros e He. apply Hin, Hk in He. rewrite He.
      apply makeKey_below_base. }
  assert (NoDup ((λ e : string * (cid.Cid * list Pin), e.2.1)
                   <$> rangeMap pref (kv d))) as Hnd.
  { apply NoDup_fmap_2_strong.
    - intros [k1 v1] [k2 v2] H1 H2 Heq. simpl in Heq.
      apply Hin in H1, H2. simpl in *.
      pose proof (Hk _ _ H1) as E1. pose proof (Hk _ _ H2) as E2.
      rewrite Heq in E1. subst k1 k2. rewrite H1 in H2. by simplify_eq.
    - rewrite (rangeMap_perm pref (kv d)). apply NoDup_map_to_list. }
  destruct (kv d !! makeKey c) as [v|] eqn:Hc; simpl.
  - pose proof (Hk _ _ Hc) as E. apply makeKey_inj in E. subst c.
    apply (gather_in _ ∅ (makeKey v.1, v)); [done|]. by apply Hin.
  - rewrite gather_notin; [by rewrite lookup_empty|].
    intros He. apply list_elem_of_fmap in He as ([k v] & -> & He).
    apply Hin in He. simpl in *. rewrite (Hk _ _ He) in He. congruence.
Qed.


End building.

(** * Restarting the store *)

Lemma view_same s s' : heap s' = heap s → cache s' = cache s → view s' = view s.
Proof. intros Hh Hc. unfold view. by rewrite Hh, Hc. Qed.

Lemma IsPinned_view c s : (IsPinned c s).2 = bool_decide (is_Some (view s !! c)).
Proof.
  unfold IsPinned, view. simpl. rewrite lookup_fmap.
  apply bool_decide_ext. by rewrite fmap_is_Some.
Qed.

Lemma IsPinnedBy_pinsOf t c s :
  (IsPinnedBy t c s).2 = bool_decide (is_Some (findPin t (pinsOf c s))).
Proof.
  unfold IsPinnedBy, pinsOf, entry.
  by destruct (cache s !! c) as [pc|].
Qed.

(** Every document of the datastore sits under the key of its Cid and is the
    one the cache shows. *)
Lemma stored_step s c r :
  wf s →
  (∀ k v, kv (ds s) !! k = Some v →
          ∃ c, k = makeKey c ∧ v.1 = c ∧ view s !! c = Some v.2) →
  mutates s c r →
  nextFails (faults (ds s)) = false →
  ∀ k v, kv (ds r.1) !! k = Some v →
         ∃ c, k = makeKey c ∧ v.1 = c ∧ view r.1 !! c = Some v.2.
Proof.
  intros Hwf Hm [->|(h & sl & Hmu & ->)] Hn; [done|].
  destruct (view_persist_mutation s c h sl Hwf Hmu Hn) as [Hv Hk].
  intros k v. rewrite Hv, Hk.
  destruct (decide (k = makeKey c)) as [->|Hne].
  - rewrite lookup_insert_eq. intros [= <-]. exists c.
    by rewrite lookup_insert_eq.
  - rewrite lookup_insert_ne by done. intros Hkv.
    destruct (Hm k v Hkv) as (c' & -> & Hv1 & Hv2). exists c'.
    rewrite lookup_insert_ne by (by intros ->). done.
Qed.

Lemma RemoveStaged_kv c s :
  kv (ds (RemoveStaged c s).1) ⊆ kv (ds s) ∧
  ((RemoveStaged c s).2 = None → kv (ds (RemoveStaged c s).1) !! makeKey c = None).
Proof.
  unfold RemoveStaged. destruct (cache s !! c) as [pc|]; [|done].
  destruct (forallb _ _); [|done].
  unfold Delete. destruct (nextFails _); simpl; [done|].
  split; [apply delete_subseteq|]. intros _. apply lookup_delete_eq.
Qed.

Lemma readers_of_view s s' c :
  wf s → wf s' → view s' !! c = view s !! c →
  pinsOf c s' = pinsOf c s ∧
  (IsPinned c s').2 = (IsPinned c s).2 ∧
  (RefCount c s').2 = (RefCount c s).2 ∧
  ∀ t, (IsPinnedBy t c s').2 = (IsPinnedBy t c s).2.
Proof.
  intros [Hb _] [Hb' _] Hv.
  assert (pinsOf c s' = pinsOf c s) as Hp by (by rewrite !pinsOf_view, Hv).
  split; [done|]. split; [by rewrite !IsPinned_view, Hv|].
  split; [by rewrite !RefCount_backed, Hp|].
  intros t. by rewrite !IsPinnedBy_pinsOf, Hp.
Qed.

Section restart.
Variable growslice : nat → nat.
Variable jsoncap : nat → nat.

Lemma reachable_stored fs s :
  quiet fs → reachable growslice fs s →
  ∀ k v, kv (ds s) !! k = Some v →
         ∃ c, k = makeKey c ∧ v.1 = c ∧ view s !! c = Some v.2.
Proof.
  intros Hq. induction 1 as [|now t c s He IH|now t c s He IH|t c s He IH|c s He IH].
  - intros k v. unfold newLedger. simpl. by rewrite lookup_empty.
  - pose proof (reachable_wf growslice _ _ He) as Hwf.
    apply (stored_step s c); [done|done|by apply AddStaged_mutates|].
    by apply quiet_nextFails, (reachable_quiet growslice fs).
  - pose proof (reachable_wf growslice _ _ He) as Hwf.
    apply (stored_step s c); [done|done|by apply Add_mutates|].
    by apply quiet_nextFails, (reachable_quiet growslice fs).
  - pose proof (reachable_wf growslice _ _ He) as Hwf.
    apply (stored_step s c); [done|done|by apply Remove_mutates|].
    by apply quiet_nextFails, (reachable_quiet growslice fs).
  - intros k v Hkv.
    destruct (RemoveStaged_cache c s) as [Hc Hh].
    rewrite (view_same s _ Hh Hc). apply IH.
    by apply (lookup_weaken _ _ _ _ Hkv), RemoveStaged_kv.
Qed.

Lemma New_reachable fs pref s :
  quiet fs → reachable growslice fs s →
  ∃ s', New jsoncap pref (ds s) = (Some s', None) ∧ wf s' ∧
        kv (ds s') = kv (ds s) ∧
        ∀ c, view s' !! c =
             if decide (is_Some (kv (ds s) !! makeKey c)) then view s !! c else None.
Proof.
  intros Hq Hr.
  pose proof (reachable_stored fs s Hq Hr) as Hst.
  destruct (New_keyed jsoncap pref (ds s)) as (s' & HN & Hwf & Hkv & _ & Hv).
  { by apply (reachable_quiet growslice fs). }
  { intros k v Hk. destruct (Hst k v Hk) as (c & -> & <- & _). done. }
  exists s'. do 3 (split; [done|]). intros c. rewrite Hv.
  destruct (decide (is_Some (kv (ds s) !! makeKey c))) as [[v Hk]|Hn].
  - rewrite Hk. simpl.
    destruct (Hst _ _ Hk) as (c' & Hc' & _ & Hv'). apply makeKey_inj in Hc'.
    by subst c'.
  - destruct (kv (ds s) !! makeKey c) as [v|]; [|done].
    exfalso. apply Hn. by exists v.
Qed.

(** X3. Restart round trip. When no datastore call fails, a store that was
    edited by [AddStaged], [Add] and [Remove] alone can be rebuilt from its
    datastore: [New] returns a store without error, whatever the order of the
    scan, and every reader ([IsPinned], [RefCount], [IsPinnedBy], and the
    records themselves) answers on the rebuilt store as on the old one. *)
Theorem New_restores fs pref s :
  quiet fs → edited growslice fs s →
  ∃ s', New jsoncap pref (ds s) = (Some s', None) ∧
        kv (ds s') = kv (ds s) ∧
        ∀ c, pinsOf c s' = pinsOf c s ∧
             (IsPinned c s').2 = (IsPinned c s).2 ∧
             (RefCount c s').2 = (RefCount c s).2 ∧
             ∀ t, (IsPinnedBy t c s').2 = (IsPinnedBy t c s).2.
Proof.
  intros Hq He.
  pose proof (edited_reachable growslice fs s He) as Hr.
  pose proof (edited_mirrors_wf growslice fs s Hq He) as Hm.
  destruct (New_reachable fs pref s Hq Hr) as (s' & HN & Hwf' & Hkv & Hv).
  exists s'. do 2 (split; [done|]). intros c.
  apply readers_of_view; [by apply (reachable_wf growslice fs)|done|].
  rewrite Hv. destruct (decide _) as [|Hn]; [done|].
  destruct (view s !! c) as [ps|] eqn:Hc; [|done].
  exfalso. apply Hn. exists (c, ps). apply Hm. by exists c.
Qed.

(** X4. A restart forgets what the collector purged. When no datastore call
    fails and [RemoveStaged] succeeds on [c], the running store still counts
    [c] as pinned, while the store that [New] rebuilds from the datastore has
    no entry for it; a Cid whose document is still in the datastore reads on
    the rebuilt store as on the running one. *)
Theorem New_forgets_purged fs pref c s :
  quiet fs → reachable growslice fs s → (RemoveStaged c s).2 = None →
  let s1 := (RemoveStaged c s).1 in
  ∃ s', New jsoncap pref (ds s1) = (Some s', None) ∧
        (IsPinned c s1).2 = true ∧ (IsPinned c s').2 = false ∧
        (RefCount c s').2 = (0, 0) ∧
        ∀ c0, is_Some (kv (ds s1) !! makeKey c0) → pinsOf c0 s' = pinsOf c0 s1.
Proof.
  intros Hq Hr Hok s1.
  assert (reachable growslice fs s1) as Hr1 by (by constructor).
  destruct (New_reachable fs pref s1 Hq Hr1) as (s' & HN & Hwf' & Hkv & Hv).
  exists s'. split; [done|].
  pose proof (proj2 (RemoveStaged_kv c s) Hok) as Hgone. fold s1 in Hgone.
  assert (view s' !! c = None) as Hc.
  { rewrite Hv, Hgone. destruct (decide _) as [[? ?]|]; done. }
  split.
  { unfold s1, IsPinned. simpl. rewrite (proj1 (RemoveStaged_cache c s)).
    apply bool_decide_eq_true. unfold RemoveStaged in Hok.
    destruct (cache s !! c); [by eexists|done]. }
  split; [by rewrite IsPinned_view, Hc|].
  split.
  { apply RefCount_any. unfold view in Hc. rewrite lookup_fmap in Hc.
    by destruct (cache s' !! c). }
  intros c0 Hk. rewrite !pinsOf_view, Hv. by rewrite decide_True.
Qed.

End restart.

(** * Tenants and their records *)

Lemma findPin_is_Some t (ps : list Pin) :
  is_Some (findPin t ps) ↔ t ∈ APIID <$> ps.
Proof.
  split.
  - intros [[i p] Hf]. apply findPin_Some in Hf as (Hi & <- & _).
    apply list_elem_of_fmap_2. by eapply list_elem_of_lookup_2.
  - intros Ht. apply list_elem_of_fmap in Ht as (p & -> & Hp).
    by apply (list_find_elem_of _ _ p).
Qed.

Lemma held_iff t c s :
  (IsPinnedBy t c s).2 = true ↔ t ∈ APIID <$> pinsOf c s.
Proof.
  rewrite IsPinnedBy_pinsOf, bool_decide_eq_true. apply findPin_is_Some.
Qed.

Lemma delete_filter_tenant (ps : list Pin) i p :
  NoDup (APIID <$> ps) → ps !! i = Some p →
  filter (λ q, APIID q ≠ APIID p) ps = delete i ps.
Proof.
  revert i. induction ps as [|x ps IH]; intros i Hnd Hi; [done|].
  rewrite fmap_cons in Hnd. apply NoDup_cons in Hnd as [Hx Hnd].
  destruct i as [|i]; simpl in Hi.
  - simplify_eq. rewrite filter_cons_False by (by intros ?). simpl.
    apply filter_all, Forall_forall. intros q Hq Heq. apply Hx.
    rewrite <- Heq. by apply list_elem_of_fmap_2.
  - rewrite filter_cons_True.
    + simpl. f_equal. by apply IH.
    + intros Heq. apply Hx. rewrite Heq. apply list_elem_of_fmap_2.
      by eapply list_elem_of_lookup_2.
Qed.

Section tenants.
Variable growslice : nat → nat.

Lemma Remove_filter fs t c s :
  quiet fs → reachable growslice fs s →
  pinsOf c (Remove t c s).1 ≡ₚ filter (λ p, APIID p ≠ t) (pinsOf c s).
Proof.
  intros Hq Hr.
  pose proof (proj1 (reachable_wf growslice fs s Hr) c) as Hb.
  pose proof (reachable_oneRecordPerTenant growslice fs s Hq Hr c) as Hnd.
  unfold oneRecordPerTenant in Hnd.
  rewrite Remove_pinsOf by done.
  destruct (findPin t (pinsOf c s)) as [[i p]|] eqn:Hf.
  - rewrite (quiet_nextFails _ (reachable_quiet growslice fs s Hq Hr)).
    apply findPin_Some in Hf as (Hi & <- & _).
    rewrite (delete_filter_tenant _ i p) by done.
    pose proof (lookup_lt_Some _ _ _ Hi) as Hlt.
    destruct (lookup_lt_is_Some_2 (pinsOf c s) (length (pinsOf c s) - 1))
      as [y Hy]; [lia|].
    cbv zeta. rewrite Hy. simpl. by apply swap_with_last_perm.
  - rewrite filter_all; [done|]. by apply findPin_None.
Qed.

Lemma AddStaged_error now t c s :
  (AddStaged growslice now t c s).2 =
    match findPin t (pinsOf c s) with
    | Some (_, p) =>
        if Staged p
        then (if nextFails (faults (ds s)) then Some (ErrPut ErrExternal) else None)
        else None
    | None => if nextFails (faults (ds s)) then Some (ErrPut ErrExternal) else None
    end.
Proof.
  unfold AddStaged, pinsOf.
  destruct (findPin t _) as [[i p]|].
  - destruct (Staged p); simpl; [|done]. by rewrite persist_error.
  - destruct (append growslice _ _ _) as [h sl]. by rewrite persist_error.
Qed.

(** X5. The four mutators, called for [c], leave the records of every other
    Cid as they were, whether the datastore call fails or not: the slices of
    different entries never share an array. *)
Theorem other_entries_untouched fs now t c c0 s :
  reachable growslice fs s → c0 ≠ c →
  pinsOf c0 (AddStaged growslice now t c s).1 = pinsOf c0 s ∧
  pinsOf c0 (Add growslice now t c s).1 = pinsOf c0 s ∧
  pinsOf c0 (Remove t c s).1 = pinsOf c0 s ∧
  pinsOf c0 (RemoveStaged c s).1 = pinsOf c0 s.
Proof.
  intros Hr Hne. pose proof (reachable_wf growslice fs s Hr) as Hwf.
  split; [|split; [|split]].
  - by apply (mutates_wf s c _ Hwf (AddStaged_mutates growslice now t c s Hwf)).
  - by apply (mutates_wf s c _ Hwf (Add_mutates growslice now t c s Hwf)).
  - by apply (mutates_wf s c _ Hwf (Remove_mutates t c s Hwf)).
  - apply pinsOf_same; apply RemoveStaged_cache.
Qed.

(** X6. As long as no datastore call fails, no entry ever holds two records of
    one tenant, after any sequence of [AddStaged], [Add], [Remove] and
    [RemoveStaged]. *)
Theorem tenant_records_unique fs s c :
  quiet fs → reachable growslice fs s →
  NoDup (APIID <$> pinsOf c s) ∧
  ∀ t, length (filter (λ p, APIID p = t) (pinsOf c s)) ≤ 1.
Proof.
  intros Hq Hr.
  pose proof (reachable_oneRecordPerTenant growslice fs s Hq Hr c) as Hnd.
  split; [done|]. intros t.
  destruct (findPin t (pinsOf c s)) as [[i p]|] eqn:Hf.
  - apply findPin_Some in Hf as (Hi & <- & _).
    by rewrite (filter_tenant_singleton _ i p).
  - apply findPin_None in Hf.
    assert (filter (λ p, APIID p = t) (pinsOf c s) = []) as ->; [|simpl; lia].
    induction Hf as [|x l Hx _ IH]; [done|].
    by rewrite filter_cons_False.
Qed.

(** X7. As long as no datastore call fails, [Remove] releases the tenant: after
    [Remove iid c] the tenant holds no record of [c], the records of [c] are
    those of the other tenants, and every other tenant holds [c] exactly if
    it did before. *)
Theorem Remove_releases fs t c s :
  quiet fs → reachable growslice fs s →
  let s' := (Remove t c s).1 in
  (IsPinnedBy t c s').2 = false ∧
  pinsOf c s' ≡ₚ filter (λ p, APIID p ≠ t) (pinsOf c s) ∧
  ∀ t', t' ≠ t → (IsPinnedBy t' c s').2 = (IsPinnedBy t' c s).2.
Proof.
  intros Hq Hr s'. pose proof (Remove_filter fs t c s Hq Hr) as Hp.
  fold s' in Hp.
  assert (∀ u, u ∈ APIID <$> pinsOf c s' ↔ u ∈ APIID <$> pinsOf c s ∧ u ≠ t)
    as Hin.
  { intros u. rewrite Hp, !list_elem_of_fmap. split.
    - intros (x & -> & Hx). apply list_elem_of_filter in Hx as [Hx1 Hx2].
      split; [by exists x|done].
    - intros [(x & -> & Hx) Hne]. exists x. split; [done|].
      by apply list_elem_of_filter. }
  split; [|split; [done|]].
  - apply not_true_is_false. rewrite held_iff, Hin. by intros [_ ?].
  - intros t' Hne. apply eq_true_iff_eq. rewrite !held_iff, Hin. tauto.
Qed.

(** X8. [AddStaged] and [Add] never take a record away: a tenant that holds a
    Cid before the call holds it after the call, whether the write fails or
    not; and when the call returns no error, its tenant holds its Cid. *)
Theorem holders_kept fs now t c t' c' s :
  reachable growslice fs s →
  let r1 := AddStaged growslice now t c s in
  let r2 := Add growslice now t c s in
  ((IsPinnedBy t' c' s).2 = true →
     (IsPinnedBy t' c' r1.1).2 = true ∧ (IsPinnedBy t' c' r2.1).2 = true) ∧
  (r1.2 = None → (IsPinnedBy t c r1.1).2 = true) ∧
  (r2.2 = None → (IsPinnedBy t c r2.1).2 = true).
Proof.
  intros Hr r1 r2. pose proof (reachable_wf growslice fs s Hr) as Hwf.
  pose proof (proj1 Hwf c) as Hb.
  assert ((APIID <$> pinsOf c r1.1 = APIID <$> pinsOf c s ∧
           (r1.2 = None → t ∈ APIID <$> pinsOf c s)) ∨
          APIID <$> pinsOf c r1.1 = (APIID <$> pinsOf c s) ++ [t]) as H1.
  { unfold r1. rewrite AddStaged_pinsOf, AddStaged_error by done.
    destruct (findPin t (pinsOf c s)) as [[i p]|] eqn:Hf.
    - left. split; [|intros _; apply findPin_is_Some; by eexists].
      apply findPin_Some in Hf as (Hi & Ht & _).
      destruct (Staged p); [|done].
      by apply (NoDup_fmap_insert_same _ i p).
    - destruct (nextFails _); [by left|right].
      by rewrite fmap_app. }
  assert ((APIID <$> pinsOf c r2.1 = APIID <$> pinsOf c s ∧
           (r2.2 = None → t ∈ APIID <$> pinsOf c s)) ∨
          APIID <$> pinsOf c r2.1 = (APIID <$> pinsOf c s) ++ [t]) as H2.
  { unfold r2. rewrite Add_pinsOf, Add_error by done.
    destruct (findPin t (pinsOf c s)) as [[i p]|] eqn:Hf.
    - left. split; [|intros _; apply findPin_is_Some; by eexists].
      apply findPin_Some in Hf as (Hi & Ht & _).
      by apply (NoDup_fmap_insert_same _ i p).
    - destruct (nextFails _); [by left|right].
      by rewrite fmap_app. }
  split; [|split].
  - rewrite !held_iff. intros Hh. destruct (decide (c' = c)) as [->|Hne].
    + split.
      * destruct H1 as [[-> _]| ->]; [done|]. apply elem_of_app. by left.
      * destruct H2 as [[-> _]| ->]; [done|]. apply elem_of_app. by left.
    + unfold r1, r2.
      rewrite (proj2 (mutates_wf s c _ Hwf (AddStaged_mutates growslice now t c s Hwf)))
        by done.
      by rewrite (proj2 (mutates_wf s c _ Hwf (Add_mutates growslice now t c s Hwf)))
        by done.
  - intros Hok. rewrite held_iff.
    destruct H1 as [[-> H1]| ->]; [by apply H1|].
    apply elem_of_app. right. apply list_elem_of_here.
  - intros Hok. rewrite held_iff.
    destruct H2 as [[-> H2]| ->]; [by apply H2|].
    apply elem_of_app. right. apply list_elem_of_here.
Qed.

(** X9. A failed write of a new record is invisible. When the tenant holds no
    record of [c] and the datastore refuses the write, [AddStaged] and [Add]
    return the put error and change neither the cache, nor the documents of
    the datastore, nor the records that any reader sees. *)
Theorem failed_append_invisible fs now t c s :
  reachable growslice fs s →
  findPin t (pinsOf c s) = None →
  nextFails (faults (ds s)) = true →
  let r1 := AddStaged growslice now t c s in
  let r2 := Add growslice now t c s in
  (r1.2 = Some (ErrPut ErrExternal) ∧ cache r1.1 = cache s ∧
   kv (ds r1.1) = kv (ds s) ∧ ∀ c0, pinsOf c0 r1.1 = pinsOf c0 s) ∧
  (r2.2 = Some (ErrPut ErrExternal) ∧ cache r2.1 = cache s ∧
   kv (ds r2.1) = kv (ds s) ∧ ∀ c0, pinsOf c0 r2.1 = pinsOf c0 s).
Proof.
  intros Hr Hf Hn r1 r2. pose proof (reachable_wf growslice fs s Hr) as Hwf.
  pose proof (proj1 Hwf c) as Hb.
  split.
  - split; [unfold r1; by rewrite AddStaged_error, Hf, Hn|].
    split; [|split].
    + unfold r1, AddStaged. unfold pinsOf in Hf. rewrite Hf.
      destruct (append growslice _ _ _) as [h sl].
      by rewrite persist_fail.
    + unfold r1, AddStaged. unfold pinsOf in Hf. rewrite Hf.
      destruct (append growslice _ _ _) as [h sl].
      by rewrite persist_fail.
    + intros c0. destruct (decide (c0 = c)) as [->|Hne].
      * unfold r1. by rewrite AddStaged_pinsOf, Hf, Hn.
      * by apply (mutates_wf s c _ Hwf (AddStaged_mutates growslice now t c s Hwf)).
  - split; [unfold r2; by rewrite Add_error, Hn|].
    split; [|split].
    + unfold r2, Add. unfold pinsOf in Hf. rewrite Hf.
      destruct (append growslice _ _ _) as [h sl].
      by rewrite persist_fail.
    + unfold r2, Add. unfold pinsOf in Hf. rewrite Hf.
      destruct (append growslice _ _ _) as [h sl].
      by rewrite persist_fail.
    + intros c0. destruct (decide (c0 = c)) as [->|Hne].
      * unfold r2. by rewrite Add_pinsOf, Hf, Hn.
      * by apply (mutates_wf s c _ Hwf (Add_mutates growslice now t c s Hwf)).
Qed.

End tenants.

(** * What the collector takes and what it spares *)

Lemma candidates_iff pref exclude olderThan ci c :
  wf (ps ci) →
  c ∈ (getGCCandidates pref exclude olderThan ci).2.1 ↔
  is_Some (cache (ps ci) !! c) ∧
  Forall (λ p, Staged p = true) (pinsOf c (ps ci)) ∧
  (c ∉ exclude) ∧
  Forall (λ p, (CreatedAt p ≤ olderThan)%Z) (pinsOf c (ps ci)).
Proof.
  intros [Hb _]. rewrite getGCCandidates_filter. simpl.
  rewrite list_elem_of_fmap. split.
  - intros (pc & -> & Hpc). apply list_elem_of_filter in Hpc as [Hg Hin].
    apply list_elem_of_fmap in Hin as ([k pc'] & -> & Hin). simpl in *.
    rewrite rangeMap_perm in Hin. apply elem_of_map_to_list in Hin.
    destruct (Hb k pc' Hin) as (Hk & _). rewrite Hk in *.
    unfold pinsOf. rewrite (entry_lookup k _ pc' Hin).
    destruct Hg as (? & ? & ?). rewrite Hk in *. split; [by eexists|done].
  - intros ([pc Hc] & H1 & H2 & H3). exists pc.
    destruct (Hb c pc Hc) as (Hk & _).
    unfold pinsOf in *. rewrite (entry_lookup c _ pc Hc) in *.
    split; [done|]. apply list_elem_of_filter. split.
    + unfold gcCandidate. by rewrite Hk.
    + apply list_elem_of_fmap. exists (c, pc). split; [done|].
      rewrite rangeMap_perm. by apply elem_of_map_to_list.
Qed.

Lemma RemoveStaged_kv_other c' c s :
  c ≠ c' →
  kv (ds (RemoveStaged c' s).1) !! makeKey c = kv (ds s) !! makeKey c.
Proof.
  intros Hne. unfold RemoveStaged. destruct (cache s !! c') as [pc|]; [|done].
  destruct (forallb _ _); [|done].
  unfold Delete. destruct (nextFails _); simpl; [done|].
  apply lookup_delete_ne. intros Heq. by apply makeKey_inj in Heq.
Qed.

Lemma unpinStaged_keeps c' ci c :
  c ≠ c' →
  (c ∈ pinset (ipfs ci) → c ∈ pinset (ipfs (unpinStaged c' ci).1)) ∧
  kv (ds (ps (unpinStaged c' ci).1)) !! makeKey c
  = kv (ds (ps ci)) !! makeKey c.
Proof.
  intros Hne.
  destruct (decide ((RefCount c' (ps ci)).2.1 = (RefCount c' (ps ci)).2.2))
    as [He|He].
  - rewrite unpinStaged_accepts by done. unfold Pin_Rm.
    destruct (nextFails (nfaults (ipfs ci))); simpl; [done|].
    split; [|by apply RemoveStaged_kv_other].
    intros Hin. apply elem_of_difference. split; [done|].
    by rewrite elem_of_singleton.
  - by rewrite unpinStaged_rejects.
Qed.

Lemma unpinEach_keeps lst ci c :
  c ∉ lst →
  (c ∈ pinset (ipfs ci) → c ∈ pinset (ipfs (unpinEach lst ci).1)) ∧
  kv (ds (ps (unpinEach lst ci).1)) !! makeKey c
  = kv (ds (ps ci)) !! makeKey c.
Proof.
  revert ci. induction lst as [|c' lst IH]; intros ci Hni; [done|].
  apply not_elem_of_cons in Hni as [Hne Hni]. simpl.
  destruct (unpinStaged_keeps c' ci c Hne) as [H1 H2].
  destruct (unpinStaged c' ci) as [ci' [err|]]; simpl in *; [done|].
  destruct (IH ci' Hni) as [H3 H4]. split.
  - intros Hin. by apply H3, H1.
  - by rewrite H4.
Qed.

Lemma unpinEach_quiet_effect lst ci :
  Forall (purgeable (ps ci)) lst →
  quiet (nfaults (ipfs ci)) → quiet (faults (ds (ps ci))) →
  pinset (ipfs (unpinEach lst ci).1) = pinset (ipfs ci) ∖ list_to_set lst ∧
  ∀ k, kv (ds (ps (unpinEach lst ci).1)) !! k =
       if decide (k ∈ makeKey <$> lst) then None else kv (ds (ps ci)) !! k.
Proof.
  revert ci. induction lst as [|c lst IH]; intros ci Hp Hn Hd; simpl.
  - split; [|done]. apply set_eq. intros x.
    rewrite elem_of_difference, elem_of_empty. tauto.
  - apply Forall_cons in Hp as [Hc Hp].
    rewrite (unpinStaged_quiet c ci Hc)
      by (by apply quiet_nextFails).
    set (ci' := mkCoreIpfs _ _).
    destruct (IH ci') as (Hps & Hkv).
    + eapply Forall_impl; [done|]. intros c0. by apply purgeable_same.
    + by apply quiet_tail.
    + by apply quiet_tail.
    + split.
      * rewrite Hps. simpl. apply set_eq. intros x.
        rewrite !elem_of_difference, elem_of_union, elem_of_singleton. tauto.
      * intros k. rewrite Hkv. simpl.
        destruct (decide (k ∈ makeKey <$> lst)) as [Hin|Hni].
        -- rewrite decide_True; [done|]. by apply elem_of_cons; right.
        -- destruct (decide (k = makeKey c)) as [->|Hne].
           ++ rewrite decide_True by (apply list_elem_of_here).
              apply lookup_delete_eq.
           ++ rewrite decide_False.
              ** by apply lookup_delete_ne.
              ** intros [?|?]%elem_of_cons; done.
Qed.

Lemma GCStaged_unfold pref exclude olderThan ci :
  GCStaged pref exclude olderThan ci =
    let lst := (getGCCandidates pref exclude olderThan ci).2.1 in
    match unpinEach lst ci with
    | (ci2, Some err) => (ci2, ([], Some err))
    | (ci2, None) => (ci2, (lst, None))
    end.
Proof. unfold GCStaged. by rewrite getGCCandidates_filter. Qed.

Lemma GCStaged_not_candidate pref exclude olderThan ci c :
  c ∉ (getGCCandidates pref exclude olderThan ci).2.1 →
  let r := GCStaged pref exclude olderThan ci in
  (c ∉ r.2.1) ∧
  (∃ issued, calls (ipfs r.1) = calls (ipfs ci) ++ issued ∧ PinRm c ∉ issued) ∧
  (c ∈ pinset (ipfs ci) → c ∈ pinset (ipfs r.1)) ∧
  kv (ds (ps r.1)) !! makeKey c = kv (ds (ps ci)) !! makeKey c.
Proof.
  intros Hnc r. subst r. rewrite GCStaged_unfold. cbv zeta.
  set (lst := (getGCCandidates pref exclude olderThan ci).2.1) in *.
  destruct (unpinEach_keeps lst ci c Hnc) as [H1 H2].
  destruct (unpinEach_calls lst ci) as [k Hk].
  assert (PinRm c ∉ PinRm <$> take k lst) as Hni.
  { intros Hin. apply list_elem_of_fmap in Hin as (x & [= <-] & Hx).
    apply Hnc. by apply (subseteq_take k lst). }
  destruct (unpinEach lst ci) as [ci2 [err|]]; simpl in *.
  - split; [apply not_elem_of_nil|]. split; [by eexists|]. done.
  - split; [done|]. split; [by eexists|]. done.
Qed.

Lemma GCStaged_quiet_effect pref exclude olderThan ci :
  wf (ps ci) →
  quiet (nfaults (ipfs ci)) → quiet (faults (ds (ps ci))) →
  let lst := (getGCCandidates pref exclude olderThan ci).2.1 in
  let r := GCStaged pref exclude olderThan ci in
  pinset (ipfs r.1) = pinset (ipfs ci) ∖ list_to_set lst ∧
  ∀ c, kv (ds (ps r.1)) !! makeKey c =
       if decide (c ∈ lst) then None else kv (ds (ps ci)) !! makeKey c.
Proof.
  intros Hwf Hn Hd lst r. subst r.
  assert (Forall (purgeable (ps ci)) lst) as Hp.
  { apply Forall_forall. intros c Hc. by eapply candidate_purgeable. }
  rewrite GCStaged_unfold. cbv zeta. fold lst.
  destruct (unpinEach_quiet_effect lst ci Hp Hn Hd) as [H1 H2].
  assert (∀ c, kv (ds (ps (unpinEach lst ci).1)) !! makeKey c =
               if decide (c ∈ lst) then None else kv (ds (ps ci)) !! makeKey c)
    as H3.
  { intros c. rewrite H2.
    destruct (decide (c ∈ lst)) as [Hin|Hni].
    - rewrite decide_True; [done|]. by apply list_elem_of_fmap_2.
    - rewrite decide_False; [done|].
      intros Hin. apply list_elem_of_fmap in Hin as (x & Hx & Hin).
      apply makeKey_inj in Hx. by subst x. }
  by destruct (unpinEach lst ci) as [ci2 [err|]].
Qed.

(** X10. The collector spares what is no candidate. A Cid that is excluded, or
    that has a record that is durable or younger than the cutoff, is not in
    the result of [GCStaged]; the node is not asked to unpin it and keeps it
    pinned, and its document stays in the datastore. This holds whatever
    fails during the collection. *)
Theorem GCStaged_spares pref exclude olderThan ci c :
  wf (ps ci) →
  (c ∈ exclude ∨
   ∃ p, p ∈ pinsOf c (ps ci) ∧
        (Staged p = false ∨ (olderThan < CreatedAt p)%Z)) →
  let r := GCStaged pref exclude olderThan ci in
  (c ∉ r.2.1) ∧
  (∃ issued, calls (ipfs r.1) = calls (ipfs ci) ++ issued ∧ PinRm c ∉ issued) ∧
  (c ∈ pinset (ipfs ci) → c ∈ pinset (ipfs r.1)) ∧
  kv (ds (ps r.1)) !! makeKey c = kv (ds (ps ci)) !! makeKey c.
Proof.
  intros Hwf Hex. apply GCStaged_not_candidate.
  rewrite candidates_iff by done. intros (_ & Hst & Hne & Hold).
  destruct Hex as [?|(p & Hp & [Hs|Ho])]; [done| |].
  - rewrite Forall_forall in Hst. specialize (Hst p Hp). congruence.
  - rewrite Forall_forall in Hold. specialize (Hold p Hp). simpl in Hold. lia.
Qed.

(** X11. When neither the node nor the datastore fails, [GCStaged] returns the
    candidates, the node's pin set loses exactly them, and the datastore
    loses exactly their documents; the cache is not touched, so every record
    reads as before the collection. *)
Theorem GCStaged_effect pref exclude olderThan ci :
  wf (ps ci) →
  quiet (nfaults (ipfs ci)) → quiet (faults (ds (ps ci))) →
  let lst := (getGCCandidates pref exclude olderThan ci).2.1 in
  let r := GCStaged pref exclude olderThan ci in
  r.2 = (lst, None) ∧
  pinset (ipfs r.1) = pinset (ipfs ci) ∖ list_to_set lst ∧
  (∀ c, kv (ds (ps r.1)) !! makeKey c =
        if decide (c ∈ lst) then None else kv (ds (ps ci)) !! makeKey c) ∧
  ∀ c, pinsOf c (ps r.1) = pinsOf c (ps ci).
Proof.
  intros Hwf Hn Hd lst r.
  destruct (GCStaged_quiet pref exclude olderThan ci Hwf Hn Hd)
    as (H1 & _ & Hh & Hc & _).
  destruct (GCStaged_quiet_effect pref exclude olderThan ci Hwf Hn Hd)
    as (H2 & H3).
  split; [done|]. split; [done|]. split; [done|].
  intros c. by apply pinsOf_same.
Qed.

(** * The adapter: Stage, Pin, Unpin and Replace *)

Lemma pinsOf_uncached c s : cache s !! c = None → pinsOf c s = [].
Proof. unfold pinsOf, entry. by intros ->. Qed.

Lemma pinsOf_cached c s : pinsOf c s ≠ [] → is_Some (cache s !! c).
Proof.
  intros Hne. destruct (cache s !! c) as [pc|] eqn:Hc; [by eexists|].
  by rewrite pinsOf_uncached in Hne.
Qed.

Lemma RefCount_run c s :
  backed c s →
  ∃ staged, RefCount c s = (s, (length (pinsOf c s), staged)).
Proof.
  intros Hb. pose proof (RefCount_backed c s Hb) as H2.
  destruct (RefCount_any c s) as (H1 & _).
  destruct (RefCount c s) as [s' [n m]]. simpl in *. simplify_eq.
  by eexists.
Qed.

Section adapter.
Variable growslice : nat → nat.

Lemma Pin_quiet now size t c ci :
  quiet (nfaults (ipfs ci)) →
  let cached := bool_decide (is_Some (cache (ps ci) !! c)) in
  let a := Add growslice now t c (ps ci) in
  let r := coreipfs.Pin growslice now size t c ci in
  ps r.1 = a.1 ∧
  r.2 = match a.2 with
        | Some err => (0, Some (ErrSavePin err))
        | None => (size, None)
        end ∧
  pinset (ipfs r.1)
  = (if cached then pinset (ipfs ci) else {[c]} ∪ pinset (ipfs ci)) ∧
  calls (ipfs r.1)
  = calls (ipfs ci) ++ (if cached then [] else [PinAdd c]) ++ [ObjectStat c] ∧
  quiet (nfaults (ipfs r.1)).
Proof.
  intros Hq cached a r. subst r a cached.
  unfold coreipfs.Pin, IsPinned.
  destruct (bool_decide (is_Some (cache (ps ci) !! c))).
  - unfold Object_Stat. rewrite (quiet_nextFails _ Hq).
    destruct (Add growslice now t c (ps ci)) as [s1 [err|]]; simpl;
      repeat split; try done; by apply quiet_tail.
  - unfold Pin_Add. rewrite (quiet_nextFails _ Hq).
    unfold Object_Stat. simpl.
    rewrite (quiet_nextFails _ (quiet_tail _ Hq)).
    destruct (Add growslice now t c (ps ci)) as [s1 [err|]]; simpl;
      rewrite <- ?app_assoc; repeat split; try done;
      by apply quiet_tail, quiet_tail.
Qed.

Lemma unpin_quiet t c ci :
  backed c (ps ci) → quiet (nfaults (ipfs ci)) →
  let n := length (pinsOf c (ps ci)) in
  let r := unpin t c ci in
  (n = 0 → r = (ci, Some (ErrCidNotPinned c t))) ∧
  (0 < n →
     ps r.1 = (Remove t c (ps ci)).1 ∧
     r.2 = ErrRemovePin <$> (Remove t c (ps ci)).2 ∧
     pinset (ipfs r.1)
     = (if decide (n = 1) then pinset (ipfs ci) ∖ {[c]} else pinset (ipfs ci)) ∧
     calls (ipfs r.1)
     = calls (ipfs ci) ++ (if decide (n = 1) then [PinRm c] else []) ∧
     quiet (nfaults (ipfs r.1))).
Proof.
  intros Hb Hq n r. subst r. unfold unpin.
  destruct (RefCount_run c (ps ci) Hb) as [staged ->]. fold n.
  split.
  - intros H0. rewrite decide_True by done. by destruct ci.
  - intros Hpos. rewrite decide_False by lia.
    destruct (decide (n = 1)) as [H1|H1].
    + unfold Pin_Rm. rewrite (quiet_nextFails _ Hq).
      destruct (Remove t c (ps ci)) as [s' [err|]]; simpl;
        repeat split; try done; by apply quiet_tail.
    + destruct (Remove t c (ps ci)) as [s' [err|]]; simpl;
        rewrite ?app_nil_r; repeat split; done.
Qed.

Lemma Stage_run cidOf now t data ci :
  nextFails (nfaults (ipfs ci)) = false →
  let c := cidOf data in
  let a := AddStaged growslice now t c (ps ci) in
  let r := Stage growslice cidOf now t data ci in
  pinset (ipfs r.1) = {[c]} ∪ pinset (ipfs ci) ∧
  calls (ipfs r.1) = calls (ipfs ci) ++ [UnixfsAdd data] ∧
  nfaults (ipfs r.1) = tail (nfaults (ipfs ci)) ∧
  if (IsPinnedBy t c (ps ci)).2
  then r.2 = (c, None) ∧ ps r.1 = ps ci
  else ps r.1 = a.1 ∧
       r.2 = match a.2 with
             | Some err => ("", Some (ErrSavePin err))
             | None => (c, None)
             end.
Proof.
  intros Hn c a r. subst r a c. unfold Stage, Unixfs_Add. rewrite Hn.
  unfold IsPinnedBy.
  destruct (cache (ps ci) !! cidOf data) as [pc|]; simpl.
  - destruct (bool_decide _); simpl; [done|].
    by destruct (AddStaged growslice now t (cidOf data) (ps ci)) as [s1 [err|]].
  - by destruct (AddStaged growslice now t (cidOf data) (ps ci)) as [s1 [err|]].
Qed.

Lemma Pin_ok now size t c ci :
  (coreipfs.Pin growslice now size t c ci).2.2 = None →
  ps (coreipfs.Pin growslice now size t c ci).1
  = (Add growslice now t c (ps ci)).1 ∧
  (Add growslice now t c (ps ci)).2 = None ∧
  (cache (ps ci) !! c = None →
   c ∈ pinset (ipfs (coreipfs.Pin growslice now size t c ci).1)).
Proof.
  unfold coreipfs.Pin, IsPinned.
  destruct (bool_decide (is_Some (cache (ps ci) !! c))) eqn:Hc.
  - unfold Object_Stat. destruct (nextFails _); [done|].
    destruct (Add growslice now t c (ps ci)) as [s1 [err|]]; simpl; [done|].
    intros _. do 2 (split; [done|]). intros Hn.
    apply bool_decide_eq_true in Hc as [? Hc]. congruence.
  - unfold Pin_Add. destruct (nextFails _); [done|].
    unfold Object_Stat. simpl. destruct (nextFails _); [done|].
    destruct (Add growslice now t c (ps ci)) as [s1 [err|]]; simpl; [done|].
    intros _. do 2 (split; [done|]). intros _.
    apply elem_of_union. left. by apply elem_of_singleton.
Qed.

(** X12. What [Stage] does to the pin set and to the ledger. If the node refuses
    the data, nothing changes. Otherwise the node pins the data; a tenant
    that already holds the Cid gets it back with the ledger untouched, so a
    repeated [Stage] does not renew the time of its stage-pin; for a tenant
    that does not hold it a staged record made at the time of the call is
    appended, unless the datastore refuses the write: then the node pins a
    Cid for which the ledger got no record. *)
Theorem Stage_cases fs cidOf now t data ci :
  reachable growslice fs (ps ci) →
  let c := cidOf data in
  let r := Stage growslice cidOf now t data ci in
  (nextFails (nfaults (ipfs ci)) = true →
     r.2 = ("", Some (ErrAddData ErrExternal)) ∧ ps r.1 = ps ci ∧
     pinset (ipfs r.1) = pinset (ipfs ci)) ∧
  (nextFails (nfaults (ipfs ci)) = false →
     c ∈ pinset (ipfs r.1) ∧
     ((IsPinnedBy t c (ps ci)).2 = true → r.2 = (c, None) ∧ ps r.1 = ps ci) ∧
     ((IsPinnedBy t c (ps ci)).2 = false →
        if nextFails (faults (ds (ps ci)))
        then r.2 = ("", Some (ErrSavePin (ErrPut ErrExternal))) ∧
             pinsOf c (ps r.1) = pinsOf c (ps ci)
        else r.2 = (c, None) ∧
             pinsOf c (ps r.1) = pinsOf c (ps ci) ++ [mkPin t true now])).
Proof.
  intros Hr c r. pose proof (proj1 (reachable_wf growslice fs _ Hr) c) as Hb.
  split.
  - intros Hn. subst r. unfold Stage, Unixfs_Add. by rewrite Hn.
  - intros Hn.
    destruct (Stage_run cidOf now t data ci Hn) as (Hp & _ & _ & Hif).
    fold c r in Hp, Hif. split.
    { rewrite Hp. apply elem_of_union. left. by apply elem_of_singleton. }
    split.
    + intros Hh. by rewrite Hh in Hif.
    + intros Hh. rewrite Hh in Hif. destruct Hif as [Hps Hres].
      rewrite Hres, Hps, AddStaged_error, AddStaged_pinsOf by done.
      rewrite IsPinnedBy_pinsOf in Hh. apply bool_decide_eq_false in Hh.
      destruct (findPin t (pinsOf c (ps ci))) as [x|]; [by destruct Hh|].
      by destruct (nextFails (faults (ds (ps ci)))).
Qed.

(** X13. Staging and collecting. A tenant stages data whose Cid the ledger does
    not know, and nothing fails. A later [GCStaged] returns that Cid and
    makes the node unpin it exactly if the Cid is not excluded and the
    cutoff is not before the time of the stage; otherwise the node keeps it
    pinned. *)
Theorem Stage_then_GCStaged fs cidOf now t data ci pref exclude olderThan :
  quiet fs → reachable growslice fs (ps ci) → quiet (nfaults (ipfs ci)) →
  cache (ps ci) !! cidOf data = None →
  let c := cidOf data in
  let ci1 := (Stage growslice cidOf now t data ci).1 in
  let r := GCStaged pref exclude olderThan ci1 in
  (Stage growslice cidOf now t data ci).2 = (c, None) ∧
  c ∈ pinset (ipfs ci1) ∧
  r.2.2 = None ∧
  (c ∈ r.2.1 ↔ (c ∉ exclude) ∧ (now ≤ olderThan)%Z) ∧
  (c ∈ pinset (ipfs r.1) ↔ ¬ ((c ∉ exclude) ∧ (now ≤ olderThan)%Z)).
Proof.
  intros Hq Hr Hn Hc c ci1 r.
  pose proof (proj1 (reachable_wf growslice fs _ Hr) c) as Hb.
  pose proof (reachable_quiet growslice fs _ Hq Hr) as Hd.
  destruct (Stage_run cidOf now t data ci (quiet_nextFails _ Hn))
    as (Hp & _ & Hnf & Hif).
  fold c ci1 in Hp, Hnf, Hif.
  assert ((IsPinnedBy t c (ps ci)).2 = false) as Hh.
  { unfold IsPinnedBy. fold c in Hc. by rewrite Hc. }
  rewrite Hh in Hif. destruct Hif as [Hps Hres].
  assert (pinsOf c (ps ci1) = [mkPin t true now]) as Hrec.
  { rewrite Hps, AddStaged_pinsOf by done.
    rewrite (pinsOf_uncached c _ Hc). simpl.
    by rewrite (quiet_nextFails _ Hd). }
  assert (reachable growslice fs (ps ci1)) as Hr1.
  { rewrite Hps. by constructor. }
  pose proof (reachable_wf growslice fs _ Hr1) as Hwf1.
  pose proof (reachable_quiet growslice fs _ Hq Hr1) as Hd1.
  assert (quiet (nfaults (ipfs ci1))) as Hn1.
  { rewrite Hnf. by apply quiet_tail. }
  assert (c ∈ pinset (ipfs ci1)) as Hin.
  { rewrite Hp. apply elem_of_union. left. by apply elem_of_singleton. }
  destruct (GCStaged_quiet pref exclude olderThan ci1 Hwf1 Hn1 Hd1)
    as (Hres2 & _).
  destruct (GCStaged_quiet_effect pref exclude olderThan ci1 Hwf1 Hn1 Hd1)
    as (Hps2 & _).
  fold r in Hres2, Hps2.
  assert (c ∈ (getGCCandidates pref exclude olderThan ci1).2.1 ↔
          (c ∉ exclude) ∧ (now ≤ olderThan)%Z) as Hcand.
  { rewrite candidates_iff by done. rewrite Hrec. split.
    - intros (_ & _ & Hne & Ho). split; [done|].
      rewrite Forall_singleton in Ho. exact Ho.
    - intros [Hne Ho]. split.
      + apply pinsOf_cached. by rewrite Hrec.
      + split; [by apply Forall_singleton|]. split; [done|].
        by apply Forall_singleton. }
  split.
  { rewrite Hres, AddStaged_error.
    rewrite (pinsOf_uncached c _ Hc). simpl.
    by rewrite (quiet_nextFails _ Hd). }
  split; [done|]. rewrite Hres2. simpl. split; [done|]. split; [done|].
  rewrite Hps2, elem_of_difference, elem_of_list_to_set, Hcand. tauto.
Qed.

(** X14. A pin protects from the collector. After [Pin] returned without error
    the tenant holds the Cid, and no later [GCStaged] returns that Cid or
    makes the node unpin it, whatever the exclusion list and the cutoff. *)
Theorem Pin_protects_from_GC fs now size t c ci pref exclude olderThan :
  reachable growslice fs (ps ci) →
  (coreipfs.Pin growslice now size t c ci).2.2 = None →
  let ci1 := (coreipfs.Pin growslice now size t c ci).1 in
  let r := GCStaged pref exclude olderThan ci1 in
  (IsPinnedBy t c (ps ci1)).2 = true ∧
  (c ∉ r.2.1) ∧
  (∃ issued, calls (ipfs r.1) = calls (ipfs ci1) ++ issued ∧ PinRm c ∉ issued) ∧
  (c ∈ pinset (ipfs ci1) → c ∈ pinset (ipfs r.1)) ∧
  (cache (ps ci) !! c = None → c ∈ pinset (ipfs ci1)).
Proof.
  intros Hr Hok ci1 r.
  pose proof (proj1 (reachable_wf growslice fs _ Hr) c) as Hb.
  destruct (Pin_ok now size t c ci Hok) as (Hps & Ha & Hin). fold ci1 in Hps, Hin.
  assert (reachable growslice fs (ps ci1)) as Hr1.
  { rewrite Hps. by constructor. }
  pose proof (reachable_wf growslice fs _ Hr1) as Hwf1.
  assert (mkPin t false now ∈ pinsOf c (ps ci1)) as Hrec.
  { rewrite Hps, Add_pinsOf by done. rewrite Add_error in Ha.
    destruct (findPin t (pinsOf c (ps ci))) as [[i p]|] eqn:Hf.
    - apply findPin_Some in Hf as (Hi & _).
      eapply list_elem_of_lookup_2, list_lookup_insert_eq.
      by eapply lookup_lt_Some.
    - destruct (nextFails _); [done|].
      apply elem_of_app. right. apply list_elem_of_here. }
  split.
  { apply held_iff. by apply (list_elem_of_fmap_2 APIID) in Hrec. }
  assert (c ∉ (getGCCandidates pref exclude olderThan ci1).2.1) as Hnc.
  { rewrite candidates_iff by done. intros (_ & Hst & _).
    rewrite Forall_forall in Hst. by specialize (Hst _ Hrec). }
  destruct (GCStaged_not_candidate pref exclude olderThan ci1 c Hnc)
    as (H1 & H2 & H3 & _).
  done.
Qed.

(** X15. [unpin] does not ask who holds the pin. When a Cid has one record and
    that record belongs to another tenant, [unpin] for a tenant that holds
    nothing still makes the node unpin the Cid and returns no error, while
    the ledger stays as it was: the other tenant still holds a Cid that the
    node no longer pins. *)
Theorem unpin_by_stranger fs t c ci p :
  reachable growslice fs (ps ci) →
  pinsOf c (ps ci) = [p] → APIID p ≠ t →
  nextFails (nfaults (ipfs ci)) = false →
  let r := unpin t c ci in
  r.2 = None ∧ ps r.1 = ps ci ∧
  (c ∉ pinset (ipfs r.1)) ∧
  calls (ipfs r.1) = calls (ipfs ci) ++ [PinRm c] ∧
  (IsPinnedBy (APIID p) c (ps r.1)).2 = true.
Proof.
  intros Hr Hp Hne Hn r. subst r.
  pose proof (proj1 (reachable_wf growslice fs _ Hr) c) as Hb.
  assert (Remove t c (ps ci) = (ps ci, None)) as HR.
  { destruct (pinsOf_cached c (ps ci)) as [pc Hc]; [by rewrite Hp|].
    unfold Remove. rewrite Hc.
    unfold pinsOf in Hp. rewrite (entry_lookup _ _ _ Hc) in Hp. rewrite Hp.
    unfold findPin. simpl. by rewrite decide_False. }
  unfold unpin. destruct (RefCount_run c (ps ci) Hb) as [staged ->].
  rewrite Hp. simpl. unfold Pin_Rm. rewrite Hn, HR. simpl.
  split; [done|]. split; [done|]. split.
  { rewrite elem_of_difference, elem_of_singleton. tauto. }
  split; [done|]. apply held_iff. rewrite Hp. apply list_elem_of_here.
Qed.

Lemma findPin_singleton_same t (p : Pin) :
  APIID p = t → findPin t [p] = Some (0, p).
Proof. intros Ht. unfold findPin. simpl. by rewrite decide_True. Qed.

(** X16. The entry that the last [Remove] leaves makes the next [Pin] skip the
    node. A tenant pins a Cid that the ledger does not know and unpins it
    again, and nothing fails: the node pins the Cid and then unpins it, the
    count of the Cid is back to zero, but the ledger still takes the Cid for
    pinned in the node. So the next [Pin] of that Cid, by any tenant, does
    not ask the node to pin it: it returns the size and records a durable
    pin of a Cid that the node does not pin. *)
Theorem Pin_after_Unpin_skips_node fs now1 now2 size t t' c ci :
  quiet fs → reachable growslice fs (ps ci) → quiet (nfaults (ipfs ci)) →
  cache (ps ci) !! c = None →
  let ci1 := (coreipfs.Pin growslice now1 size t c ci).1 in
  let ci2 := (Unpin t c ci1).1 in
  let r := coreipfs.Pin growslice now2 size t' c ci2 in
  c ∈ pinset (ipfs ci1) ∧
  ((Unpin t c ci1).2 = None ∧ (c ∉ pinset (ipfs ci2)) ∧
   (RefCount c (ps ci2)).2 = (0, 0) ∧ (IsPinned c (ps ci2)).2 = true) ∧
  (r.2 = (size, None) ∧ (IsPinnedBy t' c (ps r.1)).2 = true ∧
   (c ∉ pinset (ipfs r.1)) ∧
   calls (ipfs r.1)
   = calls (ipfs ci) ++ [PinAdd c; ObjectStat c; PinRm c; ObjectStat c]).
Proof.
  intros Hq Hr Hn Hc ci1 ci2 r.
  pose proof (proj1 (reachable_wf growslice fs _ Hr) c) as Hb.
  pose proof (reachable_quiet growslice fs _ Hq Hr) as Hd.
  (* the first Pin *)
  destruct (Pin_quiet now1 size t c ci Hn) as (Hps1 & _ & Hpin1 & Hcalls1 & Hn1).
  fold ci1 in Hps1, Hpin1, Hcalls1, Hn1.
  rewrite bool_decide_eq_false_2 in Hpin1, Hcalls1
    by (rewrite Hc; by intros [? ?]).
  assert (reachable growslice fs (ps ci1)) as Hr1 by (rewrite Hps1; by constructor).
  pose proof (proj1 (reachable_wf growslice fs _ Hr1) c) as Hb1.
  pose proof (reachable_quiet growslice fs _ Hq Hr1) as Hd1.
  assert (pinsOf c (ps ci1) = [mkPin t false now1]) as Hrec1.
  { rewrite Hps1, Add_pinsOf by done. rewrite (pinsOf_uncached c _ Hc).
    simpl. by rewrite (quiet_nextFails _ Hd). }
  (* the Unpin *)
  destruct (unpin_quiet t c ci1 Hb1 Hn1) as [_ Hu].
  rewrite Hrec1 in Hu. simpl in Hu.
  destruct (Hu (Nat.lt_0_1)) as (Hps2 & Hres2 & Hpin2 & Hcalls2 & Hn2).
  clear Hu. change (unpin t c ci1) with (Unpin t c ci1) in *.
  fold ci2 in Hps2, Hpin2, Hcalls2, Hn2.
  assert (findPin t (pinsOf c (ps ci1)) = Some (0, mkPin t false now1)) as Hf.
  { rewrite Hrec1. by apply findPin_singleton_same. }
  destruct (Remove_found t c (ps ci1) 0 _ Hb1 Hf) as (Hrm & _).
  rewrite (quiet_nextFails _ Hd1) in Hrm.
  assert (reachable growslice fs (ps ci2)) as Hr2 by (rewrite Hps2; by constructor).
  pose proof (proj1 (reachable_wf growslice fs _ Hr2) c) as Hb2.
  pose proof (reachable_quiet growslice fs _ Hq Hr2) as Hd2.
  assert (pinsOf c (ps ci2) = []) as Hrec2.
  { pose proof (Remove_filter growslice fs t c (ps ci1) Hq Hr1) as Hp.
    rewrite <- Hps2, Hrec1 in Hp.
    rewrite filter_cons_False in Hp by (by intros ?).
    by apply Permutation_nil_r in Hp. }
  assert (is_Some (cache (ps ci2) !! c)) as Hc2.
  { destruct (pinsOf_cached c (ps ci1)) as [pc Hpc]; [by rewrite Hrec1|].
    rewrite Hps2.
    rewrite (Remove_cache_found t c (ps ci1) pc 0 _ Hb1 Hpc Hf
               (quiet_nextFails _ Hd1)).
    rewrite lookup_insert_eq. by eexists. }
  (* the second Pin *)
  destruct (Pin_quiet now2 size t' c ci2 Hn2) as (Hps3 & Hres3 & Hpin3 & Hcalls3 & _).
  fold r in Hps3, Hres3, Hpin3, Hcalls3.
  rewrite bool_decide_eq_true_2 in Hpin3, Hcalls3 by done.
  rewrite Add_error, (quiet_nextFails _ Hd2) in Hres3.
  split.
  { rewrite Hpin1. apply elem_of_union. left. by apply elem_of_singleton. }
  split.
  { split; [by rewrite Hres2, Hrm|]. split.
    - rewrite Hpin2, elem_of_difference, elem_of_singleton. tauto.
    - split; [by rewrite RefCount_backed, Hrec2|].
      unfold IsPinned. simpl. by apply bool_decide_eq_true. }
  split; [done|]. split.
  { apply held_iff. rewrite Hps3, Add_pinsOf, Hrec2 by done. simpl.
    rewrite (quiet_nextFails _ Hd2). simpl. apply list_elem_of_here. }
  split.
  { rewrite Hpin3, Hpin2, elem_of_difference, elem_of_singleton. tauto. }
  rewrite Hcalls3, Hcalls2, Hcalls1. simpl. by rewrite <- !app_assoc.
Qed.

Lemma Replace_quiet now size t c1 c2 ci :
  backed c1 (ps ci) → backed c2 (ps ci) → quiet (nfaults (ipfs ci)) →
  let n1 := length (pinsOf c1 (ps ci)) in
  let n2 := length (pinsOf c2 (ps ci)) in
  let s3 := Remove t c1 (ps ci) in
  let s4 := Add growslice now t c2 s3.1 in
  let r := Replace growslice now size t c1 c2 ci in
  (n1 = 0 → r = (ci, (0, Some ErrReplaceNotPinned))) ∧
  (0 < n1 →
     calls (ipfs r.1)
     = calls (ipfs ci)
       ++ (if decide (n2 = 0)
           then [if decide (n1 = 1) then PinUpdate c1 c2 else PinAdd c2]
           else [])
       ++ [ObjectStat c2] ∧
     pinset (ipfs r.1)
     = (if decide (n2 = 0)
        then (if decide (n1 = 1)
              then {[c2]} ∪ (pinset (ipfs ci) ∖ {[c1]})
              else {[c2]} ∪ pinset (ipfs ci))
        else pinset (ipfs ci)) ∧
     match s3.2 with
     | Some err => r.2 = (0, Some (ErrRemoveCid err)) ∧ ps r.1 = s3.1
     | None =>
         ps r.1 = s4.1 ∧
         r.2 = match s4.2 with
               | Some err => (0, Some (ErrAddCid err))
               | None => (size, None)
               end
     end).
Proof.
  intros Hb1 Hb2 Hq n1 n2 s3 s4 r. subst r s4 s3. unfold Replace.
  destruct (RefCount_run c1 (ps ci) Hb1) as [st1 ->]. cbv beta iota zeta.
  destruct (RefCount_run c2 (ps ci) Hb2) as [st2 ->]. cbv beta iota zeta.
  fold n1 n2. split.
  - intros H0. rewrite decide_True by done. by destruct ci.
  - intros Hpos. rewrite decide_False by lia.
    pose proof (quiet_nextFails _ Hq) as Hn.
    pose proof (quiet_nextFails _ (quiet_tail _ Hq)) as Hn'.
    destruct (decide (n2 = 0)) as [H2|H2].
    + destruct (decide (n1 = 1)) as [H1|H1].
      * rewrite decide_True by done. unfold Pin_Update. rewrite Hn.
        unfold Object_Stat. simpl. rewrite Hn'.
        destruct (Remove t c1 (ps ci)) as [s3 [e3|]]; simpl.
        { by rewrite <- app_assoc. }
        destruct (Add growslice now t c2 s3) as [s4 [e4|]]; simpl;
          by rewrite <- app_assoc.
      * rewrite decide_False by (by intros [? _]). unfold Pin_Add. rewrite Hn.
        unfold Object_Stat. simpl. rewrite Hn'.
        destruct (Remove t c1 (ps ci)) as [s3 [e3|]]; simpl.
        { by rewrite <- app_assoc. }
        destruct (Add growslice now t c2 s3) as [s4 [e4|]]; simpl;
          by rewrite <- app_assoc.
    + rewrite decide_False by (by intros [_ ?]).
      unfold Object_Stat. rewrite Hn.
      destruct (Remove t c1 (ps ci)) as [s3 [e3|]]; simpl; [done|].
      by destruct (Add growslice now t c2 s3) as [s4 [e4|]].
Qed.

Lemma Add_ok_record now t c s :
  backed c s → (Add growslice now t c s).2 = None →
  ∃ j, pinsOf c (Add growslice now t c s).1 !! j = Some (mkPin t false now).
Proof.
  intros Hb Ha. rewrite Add_pinsOf by done. rewrite Add_error in Ha.
  destruct (findPin t (pinsOf c s)) as [[i p]|] eqn:Hf.
  - apply findPin_Some in Hf as (Hi & _). exists i.
    apply list_lookup_insert_eq. by eapply lookup_lt_Some.
  - destruct (nextFails _); [done|]. exists (length (pinsOf c s)).
    by rewrite lookup_app_r, Nat.sub_diag.
Qed.

Lemma Add_tenants now t c s :
  backed c s →
  ∀ t', t' ≠ t →
    (t' ∈ APIID <$> pinsOf c (Add growslice now t c s).1) ↔
    (t' ∈ APIID <$> pinsOf c s).
Proof.
  intros Hb t' Hne. rewrite Add_pinsOf by done.
  destruct (findPin t (pinsOf c s)) as [[i p]|] eqn:Hf.
  - apply findPin_Some in Hf as (Hi & Ht & _).
    by rewrite (NoDup_fmap_insert_same _ i p).
  - destruct (nextFails _); [done|]. rewrite fmap_app, elem_of_app. simpl.
    rewrite list_elem_of_singleton. tauto.
Qed.

(** X17. What [Replace] does when nothing fails and the tenant holds [c1]. It
    returns the size of [c2]. The node is asked to move the pin when [c1] has
    one record and [c2] none, to pin [c2] when [c1] has more records and [c2]
    none, and only for the size when [c2] has a record already. Afterwards
    the tenant holds no record of [c1] and exactly one record of [c2], a
    durable one made at the time of the call; what the other tenants hold,
    and the records of the other Cids, are as before. *)
Theorem Replace_moves fs now size t c1 c2 ci :
  quiet fs → reachable growslice fs (ps ci) → quiet (nfaults (ipfs ci)) →
  c1 ≠ c2 → (IsPinnedBy t c1 (ps ci)).2 = true →
  let n1 := length (pinsOf c1 (ps ci)) in
  let n2 := length (pinsOf c2 (ps ci)) in
  let r := Replace growslice now size t c1 c2 ci in
  r.2 = (size, None) ∧
  calls (ipfs r.1)
  = calls (ipfs ci)
    ++ (if decide (n2 = 0)
        then [if decide (n1 = 1) then PinUpdate c1 c2 else PinAdd c2]
        else [])
    ++ [ObjectStat c2] ∧
  (IsPinnedBy t c1 (ps r.1)).2 = false ∧
  filter (λ p, APIID p = t) (pinsOf c2 (ps r.1)) = [mkPin t false now] ∧
  (∀ t', t' ≠ t →
     (IsPinnedBy t' c1 (ps r.1)).2 = (IsPinnedBy t' c1 (ps ci)).2 ∧
     (IsPinnedBy t' c2 (ps r.1)).2 = (IsPinnedBy t' c2 (ps ci)).2) ∧
  ∀ c0, c0 ≠ c1 → c0 ≠ c2 → pinsOf c0 (ps r.1) = pinsOf c0 (ps ci).
Proof.
  intros Hq Hr Hn Hne Hh n1 n2 r.
  pose proof (reachable_wf growslice fs _ Hr) as Hwf.
  pose proof (reachable_quiet growslice fs _ Hq Hr) as Hd.
  assert (0 < n1) as Hpos.
  { apply held_iff in Hh. unfold n1.
    destruct (pinsOf c1 (ps ci)); [by apply elem_of_nil in Hh|simpl; lia]. }
  destruct (Replace_quiet now size t c1 c2 ci (proj1 Hwf c1) (proj1 Hwf c2) Hn)
    as [_ HR].
  destruct (HR Hpos) as (Hcalls & _ & Hm). clear HR. fold r n1 n2 in Hcalls, Hm.
  set (s3 := (Remove t c1 (ps ci)).1) in *.
  assert (reachable growslice fs s3) as Hr3 by (by constructor).
  pose proof (reachable_wf growslice fs _ Hr3) as Hwf3.
  pose proof (reachable_quiet growslice fs _ Hq Hr3) as Hd3.
  assert ((Remove t c1 (ps ci)).2 = None) as Hrm.
  { apply held_iff, findPin_is_Some in Hh as [[i p] Hf].
    destruct (Remove_found t c1 (ps ci) i p (proj1 Hwf c1) Hf) as (-> & _).
    by rewrite (quiet_nextFails _ Hd). }
  rewrite Hrm in Hm. destruct Hm as [Hps Hres].
  rewrite Add_error, (quiet_nextFails _ Hd3) in Hres.
  set (s4 := (Add growslice now t c2 s3).1) in *.
  assert (reachable growslice fs s4) as Hr4 by (by constructor).
  assert (pinsOf c1 s4 = pinsOf c1 s3) as H14.
  { by apply (mutates_wf s3 c2 _ Hwf3 (Add_mutates growslice now t c2 s3 Hwf3)). }
  assert (pinsOf c2 s3 = pinsOf c2 (ps ci)) as H23.
  { apply (mutates_wf (ps ci) c1 _ Hwf (Remove_mutates t c1 (ps ci) Hwf)).
    by intros ->. }
  pose proof (Remove_filter growslice fs t c1 (ps ci) Hq Hr) as Hp1.
  fold s3 in Hp1.
  assert (∀ u, u ∈ APIID <$> pinsOf c1 s4 ↔
               u ∈ APIID <$> pinsOf c1 (ps ci) ∧ u ≠ t) as Hin1.
  { intros u. rewrite H14, Hp1, !list_elem_of_fmap. split.
    - intros (x & -> & Hx). apply list_elem_of_filter in Hx as [Hx1 Hx2].
      split; [by exists x|done].
    - intros [(x & -> & Hx) Hnx]. exists x. split; [done|].
      by apply list_elem_of_filter. }
  split; [done|]. split; [done|]. rewrite Hps. split.
  { apply not_true_is_false. rewrite held_iff, Hin1. by intros [_ ?]. }
  split.
  { destruct (Add_ok_record now t c2 s3 (proj1 Hwf3 c2)) as [j Hj].
    - by rewrite Add_error, (quiet_nextFails _ Hd3).
    - fold s4 in Hj.
      apply (filter_tenant_singleton _ j (mkPin t false now)); [|done].
      by apply (reachable_oneRecordPerTenant growslice fs s4 Hq Hr4 c2). }
  split.
  - intros t' Hne'. split.
    + apply eq_true_iff_eq. rewrite !held_iff, Hin1. tauto.
    + apply eq_true_iff_eq. rewrite !held_iff. unfold s4.
      rewrite (Add_tenants now t c2 s3 (proj1 Hwf3 c2) t' Hne').
      by rewrite H23.
  - intros c0 H01 H02. unfold s4.
    rewrite (proj2 (mutates_wf s3 c2 _ Hwf3 (Add_mutates growslice now t c2 s3 Hwf3)))
      by done.
    by apply (mutates_wf (ps ci) c1 _ Hwf (Remove_mutates t c1 (ps ci) Hwf)).
Qed.

Lemma Remove_stranger t c s p :
  pinsOf c s = [p] → APIID p ≠ t → Remove t c s = (s, None).
Proof.
  intros Hp Hne.
  destruct (pinsOf_cached c s) as [pc Hc]; [by rewrite Hp|].
  unfold Remove. rewrite Hc.
  unfold pinsOf in Hp. rewrite (entry_lookup _ _ _ Hc) in Hp. rewrite Hp.
  unfold findPin. simpl. by rewrite decide_False.
Qed.

(** X18. [Replace] does not ask who holds [c1] either. When [c1] has a single
    record and it belongs to another tenant, and [c2] has none, [Replace] for
    a tenant that holds nothing moves the node's pin from [c1] to [c2] and
    returns the size: the other tenant still holds [c1] in the ledger, which
    the node no longer pins, and the caller holds a durable pin of [c2]. *)
Theorem Replace_by_stranger fs now size t c1 c2 ci p :
  quiet fs → reachable growslice fs (ps ci) → quiet (nfaults (ipfs ci)) →
  c1 ≠ c2 →
  pinsOf c1 (ps ci) = [p] → APIID p ≠ t → pinsOf c2 (ps ci) = [] →
  let r := Replace growslice now size t c1 c2 ci in
  r.2 = (size, None) ∧
  calls (ipfs r.1) = calls (ipfs ci) ++ [PinUpdate c1 c2; ObjectStat c2] ∧
  (c1 ∉ pinset (ipfs r.1)) ∧ c2 ∈ pinset (ipfs r.1) ∧
  pinsOf c1 (ps r.1) = [p] ∧
  pinsOf c2 (ps r.1) = [mkPin t false now].
Proof.
  intros Hq Hr Hn Hne Hp1 Hnt Hp2 r.
  pose proof (reachable_wf growslice fs _ Hr) as Hwf.
  pose proof (reachable_quiet growslice fs _ Hq Hr) as Hd.
  destruct (Replace_quiet now size t c1 c2 ci (proj1 Hwf c1) (proj1 Hwf c2) Hn)
    as [_ HR].
  rewrite Hp1, Hp2 in HR. simpl in HR.
  destruct (HR Nat.lt_0_1) as (Hcalls & Hpin & Hm). clear HR.
  fold r in Hcalls, Hpin, Hm.
  rewrite (Remove_stranger t c1 (ps ci) p Hp1 Hnt) in Hm. simpl in Hm.
  destruct Hm as [Hps Hres].
  rewrite Add_error, (quiet_nextFails _ Hd) in Hres.
  split; [done|]. split; [done|]. split.
  { rewrite Hpin, elem_of_union, elem_of_singleton, elem_of_difference,
      elem_of_singleton. tauto. }
  split.
  { rewrite Hpin. apply elem_of_union. left. by apply elem_of_singleton. }
  rewrite Hps. split.
  - rewrite <- Hp1.
    by apply (mutates_wf (ps ci) c2 _ Hwf (Add_mutates growslice now t c2 _ Hwf)).
  - rewrite Add_pinsOf, Hp2 by apply Hwf. simpl.
    by rewrite (quiet_nextFails _ Hd).
Qed.

End adapter.

(** * Shared pins and the write-through *)

Lemma Remove_quiet_ok t c s :
  is_Some (cache s !! c) → nextFails (faults (ds s)) = false →
  (Remove t c s).2 = None.
Proof.
  intros [pc Hc] Hn. unfold Remove. rewrite Hc.
  destruct (findPin t _) as [[i p]|]; [|done].
  rewrite persist_error. simpl. by rewrite Hn.
Qed.

Section shared.
Variable growslice : nat → nat.

Lemma Remove_tenants fs t c s u :
  quiet fs → reachable growslice fs s →
  u ∈ APIID <$> pinsOf c (Remove t c s).1 ↔
  u ∈ APIID <$> pinsOf c s ∧ u ≠ t.
Proof.
  intros Hq Hr. rewrite (Remove_filter growslice fs t c s Hq Hr).
  rewrite !list_elem_of_fmap. split.
  - intros (x & -> & Hx). apply list_elem_of_filter in Hx as [Hx1 Hx2].
    split; [by exists x|done].
  - intros [(x & -> & Hx) Hnx]. exists x. split; [done|].
    by apply list_elem_of_filter.
Qed.

(** X19. Unpinning a shared Cid leaves the node alone. When a Cid has two records
    or more and the datastore does not fail, [Unpin] sends nothing to the
    node and returns no error; afterwards its tenant holds no record of the
    Cid and every other tenant holds it exactly if it did before. *)
Theorem Unpin_shared fs t c ci :
  quiet fs → reachable growslice fs (ps ci) →
  1 < length (pinsOf c (ps ci)) →
  let r := Unpin t c ci in
  r.2 = None ∧ ipfs r.1 = ipfs ci ∧
  (IsPinnedBy t c (ps r.1)).2 = false ∧
  ∀ t', t' ≠ t → (IsPinnedBy t' c (ps r.1)).2 = (IsPinnedBy t' c (ps ci)).2.
Proof.
  intros Hq Hr Hlen r.
  pose proof (proj1 (reachable_wf growslice fs _ Hr) c) as Hb.
  pose proof (reachable_quiet growslice fs _ Hq Hr) as Hd.
  assert (is_Some (cache (ps ci) !! c)) as Hc.
  { apply pinsOf_cached. intros E. rewrite E in Hlen. simpl in Hlen. lia. }
  pose proof (Remove_quiet_ok t c (ps ci) Hc (quiet_nextFails _ Hd)) as Hok.
  assert (ps r.1 = (Remove t c (ps ci)).1 ∧ r.2 = None ∧ ipfs r.1 = ipfs ci)
    as (Hps & Hres & Hn).
  { subst r. unfold Unpin, unpin.
    destruct (RefCount_run c (ps ci) Hb) as [staged ->].
    rewrite !decide_False by lia.
    by destruct (Remove t c (ps ci)) as [s' [err|]]. }
  split; [done|]. split; [done|]. rewrite Hps. split.
  - apply not_true_is_false. rewrite held_iff, (Remove_tenants fs) by done.
    by intros [_ ?].
  - intros t' Hne. apply eq_true_iff_eq.
    rewrite !held_iff, (Remove_tenants fs) by done. tauto.
Qed.

(** X20. The write-through. As long as no datastore call fails and nothing is
    purged, the datastore holds under the key of each Cid the document of
    the entry that the cache has for it, and nothing for a Cid without
    entry; every document sits under the key of its own Cid. *)
Theorem datastore_follows_cache fs s :
  quiet fs → edited growslice fs s →
  (∀ c, kv (ds s) !! makeKey c
        = (λ pc, (c, elems (heap s) (Pins pc))) <$> cache s !! c) ∧
  (∀ k v, kv (ds s) !! k = Some v → k = makeKey v.1).
Proof.
  intros Hq He. pose proof (edited_mirrors_wf growslice fs s Hq He) as Hm.
  split.
  - intros c. destruct (cache s !! c) as [pc|] eqn:Hc; simpl.
    + apply Hm. exists c. split; [done|]. split; [done|].
      unfold view. by rewrite lookup_fmap, Hc.
    + destruct (kv (ds s) !! makeKey c) as [v|] eqn:Hk; [|done].
      apply Hm in Hk as (c' & Hc' & _ & Hv). apply makeKey_inj in Hc'.
      subst c'. unfold view in Hv. by rewrite lookup_fmap, Hc in Hv.
  - intros k v Hk. by apply Hm in Hk as (c & -> & <- & _).
Qed.

End shared.

(** * Concrete runs of the further properties *)

Lemma quiet_nil : quiet [].
Proof. constructor. Defined.

Lemma edited_ledgerAB : edited doubling [] (ledgerAB []).
Proof. apply edit_Add, edit_AddStaged, edit_new. Defined.

Lemma reachable_ledgerAB : reachable doubling [] (ledgerAB []).
Proof. apply reach_Add, reach_AddStaged, reach_new. Defined.

Lemma reachable_ledgerA : reachable doubling [] ledgerA.
Proof. apply reach_Add, reach_new. Defined.

Lemma New_restores_witness :
  quiet [] ∧ edited doubling [] (ledgerAB []) ∧
  ∃ s', New (λ n, n) [] (ds (ledgerAB [])) = (Some s', None) ∧
        pinsOf "c" s' = pinsOf "c" (ledgerAB []) ∧
        (RefCount "c" s').2 = (RefCount "c" (ledgerAB [])).2.
Proof.
  split; [exact quiet_nil|]. split; [exact edited_ledgerAB|].
  destruct (New_restores doubling (λ n, n) [] [] _ quiet_nil edited_ledgerAB)
    as (s' & HN & _ & Hall).
  exists s'. split; [exact HN|].
  destruct (Hall "c") as (H1 & _ & H2 & _). split; [exact H1|exact H2].
Defined.

Lemma New_forgets_purged_witness :
  let s := (AddStaged doubling 1 "A" "c" (newLedger [])).1 in
  quiet [] ∧ reachable doubling [] s ∧ (RemoveStaged "c" s).2 = None ∧
  ∃ s', New (λ n, n) [] (ds (RemoveStaged "c" s).1) = (Some s', None) ∧
        (IsPinned "c" (RemoveStaged "c" s).1).2 = true ∧
        (IsPinned "c" s').2 = false.
Proof.
  intros s.
  assert (reachable doubling [] s) as Hr by apply reach_AddStaged, reach_new.
  assert ((RemoveStaged "c" s).2 = None) as Hok by (vm_compute; reflexivity).
  split; [exact quiet_nil|]. split; [exact Hr|]. split; [exact Hok|].
  destruct (New_forgets_purged doubling (λ n, n) [] [] "c" s quiet_nil Hr Hok)
    as (s' & HN & H1 & H2 & _).
  exists s'. split; [exact HN|]. split; [exact H1|exact H2].
Defined.

Lemma other_entries_untouched_witness :
  reachable doubling [] (ledgerAB []) ∧ "c" ≠ "d" ∧
  pinsOf "c" (Add doubling 3 "A" "d" (ledgerAB [])).1 = pinsOf "c" (ledgerAB []) ∧
  pinsOf "c" (Remove "A" "d" (ledgerAB [])).1 = pinsOf "c" (ledgerAB []).
Proof.
  assert ("c" ≠ "d") as Hne by discriminate.
  split; [exact reachable_ledgerAB|]. split; [exact Hne|].
  destruct (other_entries_untouched doubling [] 3%Z "A" "d" "c" _
              reachable_ledgerAB Hne) as (_ & H2 & H3 & _).
  split; [exact H2|exact H3].
Defined.

Lemma tenant_records_unique_witness :
  quiet [] ∧ reachable doubling [] (ledgerAB []) ∧
  NoDup (APIID <$> pinsOf "c" (ledgerAB [])).
Proof.
  split; [exact quiet_nil|]. split; [exact reachable_ledgerAB|].
  exact (proj1 (tenant_records_unique doubling [] _ "c" quiet_nil
                  reachable_ledgerAB)).
Defined.

Lemma Remove_releases_witness :
  quiet [] ∧ reachable doubling [] (ledgerAB []) ∧
  (IsPinnedBy "A" "c" (Remove "A" "c" (ledgerAB [])).1).2 = false.
Proof.
  split; [exact quiet_nil|]. split; [exact reachable_ledgerAB|].
  exact (proj1 (Remove_releases doubling [] "A" "c" _ quiet_nil
                  reachable_ledgerAB)).
Defined.

Lemma holders_kept_witness :
  reachable doubling [] (ledgerAB []) ∧
  (IsPinnedBy "A" "c" (ledgerAB [])).2 = true ∧
  (IsPinnedBy "A" "c" (AddStaged doubling 3 "C" "c" (ledgerAB [])).1).2 = true ∧
  (IsPinnedBy "A" "c" (Add doubling 3 "C" "c" (ledgerAB [])).1).2 = true.
Proof.
  assert ((IsPinnedBy "A" "c" (ledgerAB [])).2 = true) as Hh
    by (vm_compute; reflexivity).
  split; [exact reachable_ledgerAB|]. split; [exact Hh|].
  exact (proj1 (holders_kept doubling [] 3%Z "C" "c" "A" "c" _
                  reachable_ledgerAB) Hh).
Defined.

Lemma failed_append_invisible_witness :
  reachable doubling [true] (newLedger [true]) ∧
  findPin "A" (pinsOf "c" (newLedger [true])) = None ∧
  nextFails (faults (ds (newLedger [true]))) = true ∧
  (AddStaged doubling 1 "A" "c" (newLedger [true])).2
  = Some (ErrPut ErrExternal) ∧
  cache (AddStaged doubling 1 "A" "c" (newLedger [true])).1
  = cache (newLedger [true]).
Proof.
  assert (findPin "A" (pinsOf "c" (newLedger [true])) = None) as Hf
    by reflexivity.
  assert (nextFails (faults (ds (newLedger [true]))) = true) as Hn
    by reflexivity.
  split; [apply reach_new|]. split; [exact Hf|]. split; [exact Hn|].
  destruct (failed_append_invisible doubling [true] 1%Z "A" "c" _
              (reach_new doubling [true]) Hf Hn) as ((H1 & H2 & _) & _).
  split; [exact H1|exact H2].
Defined.

Lemma Add_repeated_witness :
  quiet [] ∧ reachable doubling [] (ledgerAB []) ∧
  filter (λ p, APIID p = "A")
         (pinsOf "c" (Add doubling 4 "A" "c"
                        (Add doubling 3 "A" "c" (ledgerAB [])).1).1)
  = [mkPin "A" false 4].
Proof.
  split; [exact quiet_nil|]. split; [exact reachable_ledgerAB|].
  exact (Add_repeated doubling [] 3%Z 4%Z "A" "c" _ quiet_nil reachable_ledgerAB).
Defined.

Lemma wf_ledgerAB : wf (ps ciAB).
Proof. exact (reachable_wf doubling [] _ reachable_ledgerAB). Defined.

Lemma GCStaged_spares_witness :
  wf (ps ciAB) ∧
  mkPin "B" false 2 ∈ pinsOf "c" (ps ciAB) ∧
  ("c" ∉ (GCStaged [] [] 100 ciAB).2.1) ∧
  "c" ∈ pinset (ipfs (GCStaged [] [] 100 ciAB).1).
Proof.
  assert (mkPin "B" false 2 ∈ pinsOf "c" (ps ciAB)) as Hp.
  { change (pinsOf "c" (ps ciAB)) with [mkPin "A" true 1; mkPin "B" false 2].
    apply list_elem_of_further, list_elem_of_here. }
  assert ("c" ∈ pinset (ipfs ciAB)) as Hin.
  { change ("c" ∈ ({[ "c" ]} : gset cid.Cid)). by apply elem_of_singleton. }
  split; [exact wf_ledgerAB|]. split; [exact Hp|].
  destruct (GCStaged_spares [] [] 100%Z ciAB "c" wf_ledgerAB) as (H1 & _ & H3 & _).
  { right. exists (mkPin "B" false 2). split; [exact Hp|]. by left. }
  split; [exact H1|exact (H3 Hin)].
Defined.

Lemma GCStaged_effect_witness :
  let ci := twoStaged doubling in
  wf (ps ci) ∧ quiet (nfaults (ipfs ci)) ∧ quiet (faults (ds (ps ci))) ∧
  (GCStaged [] [] 100 ci).2 = ((getGCCandidates [] [] 100 ci).2.1, None) ∧
  pinset (ipfs (GCStaged [] [] 100 ci).1)
  = pinset (ipfs ci) ∖ list_to_set (getGCCandidates [] [] 100 ci).2.1.
Proof.
  intros ci.
  assert (wf (ps ci)) as Hwf.
  { apply (reachable_wf doubling []).
    change (ps ci) with
      (AddStaged doubling 100 "t" "c2"
         (AddStaged doubling 100 "t" "c1" (newLedger [])).1).1.
    apply reach_AddStaged, reach_AddStaged, reach_new. }
  assert (quiet (nfaults (ipfs ci))) as Hn by constructor.
  assert (quiet (faults (ds (ps ci)))) as Hd by (vm_compute; constructor).
  split; [exact Hwf|]. split; [exact Hn|]. split; [exact Hd|].
  destruct (GCStaged_effect [] [] 100%Z ci Hwf Hn Hd) as (H1 & H2 & _).
  split; [exact H1|exact H2].
Defined.

Lemma Stage_cases_witness :
  reachable doubling [] (ps ciNew) ∧
  (Stage doubling (λ d, d) 1 "A" "c" ciNew).2 = ("c", None) ∧
  pinsOf "c" (ps (Stage doubling (λ d, d) 1 "A" "c" ciNew).1)
  = [mkPin "A" true 1].
Proof.
  split; [apply reach_new|].
  destruct (Stage_cases doubling [] (λ d, d) 1%Z "A" "c" ciNew
              (reach_new doubling [])) as (_ & H).
  destruct (H eq_refl) as (_ & _ & H2).
  exact (H2 eq_refl).
Defined.

Lemma Stage_then_GCStaged_witness :
  quiet [] ∧ reachable doubling [] (ps ciNew) ∧ quiet (nfaults (ipfs ciNew)) ∧
  cache (ps ciNew) !! "c" = None ∧
  "c" ∈ (GCStaged [] [] 5 (Stage doubling (λ d, d) 1 "A" "c" ciNew).1).2.1 ∧
  ("c" ∉ pinset (ipfs (GCStaged [] [] 5
                         (Stage doubling (λ d, d) 1 "A" "c" ciNew).1).1)).
Proof.
  assert (cache (ps ciNew) !! "c" = None) as Hc by reflexivity.
  assert (("c" ∉ @nil string) ∧ (1 ≤ 5)%Z) as Hcond.
  { split; [apply not_elem_of_nil|lia]. }
  split; [exact quiet_nil|]. split; [apply reach_new|].
  split; [exact quiet_nil|]. split; [exact Hc|].
  destruct (Stage_then_GCStaged doubling [] (λ d, d) 1%Z "A" "c" ciNew [] [] 5%Z
              quiet_nil (reach_new doubling []) quiet_nil Hc)
    as (_ & _ & _ & H1 & H2).
  split; [exact (proj2 H1 Hcond)|].
  intros Hin. exact (proj1 H2 Hin Hcond).
Defined.

Lemma Pin_protects_from_GC_witness :
  reachable doubling [] (ps ciNew) ∧
  (coreipfs.Pin doubling 1 7 "A" "c" ciNew).2.2 = None ∧
  ("c" ∉ (GCStaged [] [] 100 (coreipfs.Pin doubling 1 7 "A" "c" ciNew).1).2.1) ∧
  "c" ∈ pinset (ipfs (GCStaged [] [] 100
                        (coreipfs.Pin doubling 1 7 "A" "c" ciNew).1).1).
Proof.
  assert ((coreipfs.Pin doubling 1 7 "A" "c" ciNew).2.2 = None) as Hok
    by (vm_compute; reflexivity).
  split; [apply reach_new|]. split; [exact Hok|].
  destruct (Pin_protects_from_GC doubling [] 1%Z 7 "A" "c" ciNew [] [] 100%Z
              (reach_new doubling []) Hok) as (_ & H1 & _ & H2 & H3).
  split; [exact H1|exact (H2 (H3 eq_refl))].
Defined.

Lemma unpin_by_stranger_witness :
  reachable doubling [] (ps ciA) ∧
  pinsOf "c" (ps ciA) = [mkPin "A" false 1] ∧
  "A" ≠ "B" ∧ nextFails (nfaults (ipfs ciA)) = false ∧
  (unpin "B" "c" ciA).2 = None ∧
  ("c" ∉ pinset (ipfs (unpin "B" "c" ciA).1)) ∧
  (IsPinnedBy "A" "c" (ps (unpin "B" "c" ciA).1)).2 = true.
Proof.
  assert (pinsOf "c" (ps ciA) = [mkPin "A" false 1]) as Hp by reflexivity.
  assert ("A" ≠ "B") as Hne by discriminate.
  split; [exact reachable_ledgerA|]. split; [exact Hp|]. split; [exact Hne|].
  split; [reflexivity|].
  destruct (unpin_by_stranger doubling [] "B" "c" ciA (mkPin "A" false 1)
              reachable_ledgerA Hp Hne eq_refl) as (H1 & _ & H3 & _ & H5).
  split; [exact H1|]. split; [exact H3|exact H5].
Defined.

Lemma Pin_after_Unpin_skips_node_witness :
  let ci1 := (coreipfs.Pin doubling 1 7 "A" "c" ciNew).1 in
  let ci2 := (Unpin "A" "c" ci1).1 in
  let r := coreipfs.Pin doubling 2 7 "B" "c" ci2 in
  quiet [] ∧ reachable doubling [] (ps ciNew) ∧ quiet (nfaults (ipfs ciNew)) ∧
  cache (ps ciNew) !! "c" = None ∧
  r.2 = (7, None) ∧ (IsPinnedBy "B" "c" (ps r.1)).2 = true ∧
  ("c" ∉ pinset (ipfs r.1)).
Proof.
  intros ci1 ci2 r.
  split; [exact quiet_nil|]. split; [apply reach_new|].
  split; [exact quiet_nil|]. split; [reflexivity|].
  destruct (Pin_after_Unpin_skips_node doubling [] 1%Z 2%Z 7 "A" "B" "c" ciNew
              quiet_nil (reach_new doubling []) quiet_nil eq_refl)
    as (_ & _ & H1 & H2 & H3 & _).
  split; [exact H1|]. split; [exact H2|exact H3].
Defined.

Lemma Replace_moves_witness :
  let r := Replace doubling 2 7 "A" "c" "d" ciA in
  quiet [] ∧ reachable doubling [] (ps ciA) ∧ quiet (nfaults (ipfs ciA)) ∧
  "c" ≠ "d" ∧ (IsPinnedBy "A" "c" (ps ciA)).2 = true ∧
  r.2 = (7, None) ∧
  (IsPinnedBy "A" "c" (ps r.1)).2 = false ∧
  filter (λ p, APIID p = "A") (pinsOf "d" (ps r.1)) = [mkPin "A" false 2].
Proof.
  intros r.
  assert ("c" ≠ "d") as Hne by discriminate.
  assert ((IsPinnedBy "A" "c" (ps ciA)).2 = true) as Hh by reflexivity.
  split; [exact quiet_nil|]. split; [exact reachable_ledgerA|].
  split; [exact quiet_nil|]. split; [exact Hne|]. split; [exact Hh|].
  destruct (Replace_moves doubling [] 2%Z 7 "A" "c" "d" ciA
              quiet_nil reachable_ledgerA quiet_nil Hne Hh)
    as (H1 & _ & H3 & H4 & _).
  split; [exact H1|]. split; [exact H3|exact H4].
Defined.

Lemma Replace_by_stranger_witness :
  let r := Replace doubling 2 7 "B" "c" "d" ciA in
  quiet [] ∧ reachable doubling [] (ps ciA) ∧ quiet (nfaults (ipfs ciA)) ∧
  "c" ≠ "d" ∧ pinsOf "c" (ps ciA) = [mkPin "A" false 1] ∧ "A" ≠ "B" ∧
  pinsOf "d" (ps ciA) = [] ∧
  r.2 = (7, None) ∧ ("c" ∉ pinset (ipfs r.1)) ∧
  pinsOf "c" (ps r.1) = [mkPin "A" false 1].
Proof.
  intros r.
  assert ("c" ≠ "d") as Hne by discriminate.
  assert (pinsOf "c" (ps ciA) = [mkPin "A" false 1]) as Hp1 by reflexivity.
  assert ("A" ≠ "B") as Hnt by discriminate.
  assert (pinsOf "d" (ps ciA) = []) as Hp2 by reflexivity.
  split; [exact quiet_nil|]. split; [exact reachable_ledgerA|].
  split; [exact quiet_nil|]. split; [exact Hne|]. split; [exact Hp1|].
  split; [exact Hnt|]. split; [exact Hp2|].
  destruct (Replace_by_stranger doubling [] 2%Z 7 "B" "c" "d" ciA
              (mkPin "A" false 1) quiet_nil reachable_ledgerA quiet_nil
              Hne Hp1 Hnt Hp2) as (H1 & _ & H3 & _ & H5 & _).
  split; [exact H1|]. split; [exact H3|exact H5].
Defined.

Lemma Unpin_shared_witness :
  quiet [] ∧ reachable doubling [] (ps ciAB) ∧
  1 < length (pinsOf "c" (ps ciAB)) ∧
  (Unpin "A" "c" ciAB).2 = None ∧
  ipfs (Unpin "A" "c" ciAB).1 = ipfs ciAB ∧
  (IsPinnedBy "A" "c" (ps (Unpin "A" "c" ciAB).1)).2 = false.
Proof.
  assert (1 < length (pinsOf "c" (ps ciAB))) as Hlen.
  { change (pinsOf "c" (ps ciAB)) with [mkPin "A" true 1; mkPin "B" false 2].
    simpl. lia. }
  split; [exact quiet_nil|]. split; [exact reachable_ledgerAB|].
  split; [exact Hlen|].
  destruct (Unpin_shared doubling [] "A" "c" ciAB quiet_nil reachable_ledgerAB
              Hlen) as (H1 & H2 & H3 & _).
  split; [exact H1|]. split; [exact H2|exact H3].
Defined.

Lemma datastore_follows_cache_witness :
  quiet [] ∧ edited doubling [] (ledgerAB []) ∧
  kv (ds (ledgerAB [])) !! makeKey "c"
  = (λ pc, ("c", elems (heap (ledgerAB [])) (Pins pc)))
      <$> cache (ledgerAB []) !! "c".
Proof.
  split; [exact quiet_nil|]. split; [exact edited_ledgerAB|].
  exact (proj1 (datastore_follows_cache doubling [] _ quiet_nil
                  edited_ledgerAB) "c").
Defined.

(** * The earlier revision: markers, the pin set and the collector *)

Lemma makeStagedKey_inj c1 c2 : P0.makeStagedKey c1 = P0.makeStagedKey c2 → c1 = c2.
Proof. unfold P0.makeStagedKey. simpl. intros H. by simplify_eq. Qed.

Lemma makeStagedKey_below_base c :
  String.prefix (P0.stagedBase +:+ "/") (P0.makeStagedKey c) = true.
Proof. by destruct c. Qed.

Lemma collect_quiet items fs ret :
  quiet fs →
  ∃ fs', quiet fs' ∧ P0.collect items fs ret = (fs', (ret ++ items.*2, None)).
Proof.
  revert fs ret. induction items as [|res items IH]; intros fs ret Hq; simpl.
  - exists fs. by rewrite app_nil_r.
  - rewrite (quiet_nextFails _ Hq).
    destruct (IH (tail fs) (ret ++ [res.2]) (quiet_tail _ Hq)) as (fs' & Hq' & ->).
    exists fs'. split; [done|]. by rewrite <- app_assoc.
Qed.

Lemma GetAllStaged_quiet pref s :
  quiet (P0.faults (P0.ds s)) →
  ∃ fs', quiet fs' ∧
    P0.GetAllStaged pref s =
      (P0.mkStore (P0.mkDatastore (P0.kv (P0.ds s)) fs'),
       ((filter (λ e, String.prefix (P0.stagedBase +:+ "/") e.1 = true)
                (rangeMap pref (P0.kv (P0.ds s)))).*2, None)).
Proof.
  intros Hq. unfold P0.GetAllStaged, P0.NewTransaction, P0.Query.
  rewrite (quiet_nextFails _ Hq). simpl.
  rewrite (quiet_nextFails _ (quiet_tail _ Hq)). simpl.
  set (items := filter _ _).
  destruct (collect_quiet items (tail (tail (P0.faults (P0.ds s)))) [])
    as (fs' & Hq' & ->); [by apply quiet_tail, quiet_tail|].
  by exists fs'.
Qed.

Lemma gcable0_spec exclude olderThan v :
  C0.gcable (list_to_set exclude) olderThan v = true ↔
  (P0.CreatedAt v ≤ olderThan)%Z ∧ P0.Cid v ∉ exclude.
Proof.
  unfold C0.gcable. destruct (Z.ltb_spec olderThan (P0.CreatedAt v)).
  - split; [done|]. intros [? _]. lia.
  - destruct (decide _) as [Hin|Hni].
    + apply elem_of_list_to_set in Hin. split; [done|]. by intros [_ ?].
    + rewrite elem_of_list_to_set in Hni. done.
Qed.

Lemma getGCCandidates0_quiet pref exclude olderThan ci :
  calm ci → keyed ci →
  let r := C0.getGCCandidates pref exclude olderThan ci in
  r.2.2 = None ∧
  C0.ipfs r.1 = C0.ipfs ci ∧ C0.pinset r.1 = C0.pinset ci ∧
  P0.kv (P0.ds (C0.ps r.1)) = P0.kv (P0.ds (C0.ps ci)) ∧
  quiet (P0.faults (P0.ds (C0.ps r.1))) ∧
  NoDup r.2.1 ∧
  ∀ c, c ∈ r.2.1 ↔
       ∃ t, marker c ci = Some (P0.mkPinnedCid c t) ∧
            (t ≤ olderThan)%Z ∧ c ∉ exclude.
Proof.
  intros [_ Hd] Hk r. subst r. unfold C0.getGCCandidates.
  destruct (GetAllStaged_quiet pref (C0.ps ci) Hd) as (fs' & Hq' & ->).
  cbv beta iota zeta. rewrite foldl_snoc_if. simpl.
  set (m := P0.kv (P0.ds (C0.ps ci))) in *.
  assert (∀ e, e ∈ rangeMap pref m ↔ m !! e.1 = Some e.2) as Hin.
  { intros [k v]. rewrite (rangeMap_perm pref m). apply elem_of_map_to_list. }
  assert (filter (λ e : string * P0.PinnedCid,
                    String.prefix (P0.stagedBase +:+ "/") e.1 = true)
                 (rangeMap pref m) = rangeMap pref m) as ->.
  { apply filter_all, Forall_forall. intros e He. apply Hin, Hk in He.
    rewrite He. apply makeStagedKey_below_base. }
  do 5 (split; [done|]).
  assert (NoDup ((rangeMap pref m).*2)) as Hnd2.
  { apply NoDup_fmap_2_strong.
    - intros [k1 v1] [k2 v2] H1 H2 Heq. simpl in Heq. subst v2.
      apply Hin in H1, H2. simpl in *.
      rewrite (Hk _ _ H1). by rewrite (Hk _ _ H2).
    - rewrite (rangeMap_perm pref m). apply NoDup_map_to_list. }
  split.
  - apply NoDup_fmap_2_strong; [|by apply NoDup_filter].
    intros v1 v2 H1 H2 Heq.
    apply list_elem_of_filter in H1 as [_ H1], H2 as [_ H2].
    apply list_elem_of_fmap in H1 as ([k1 v1'] & -> & H1).
    apply list_elem_of_fmap in H2 as ([k2 v2'] & -> & H2).
    apply Hin in H1, H2. simpl in *.
    pose proof (Hk _ _ H1) as E1. pose proof (Hk _ _ H2) as E2.
    rewrite Heq in E1. subst k1 k2. rewrite H1 in H2. by simplify_eq.
  - intros c. rewrite list_elem_of_fmap. split.
    + intros (v & -> & Hv). apply list_elem_of_filter in Hv as [Hg Hv].
      apply gcable0_spec in Hg as [Ht Hne].
      apply list_elem_of_fmap in Hv as ([k v'] & -> & Hv). simpl in *.
      apply Hin in Hv. simpl in Hv. pose proof (Hk _ _ Hv) as ->.
      exists (P0.CreatedAt v'). unfold marker. fold m. rewrite Hv.
      by destruct v'.
    + intros (t & Hm & Ht & Hne). exists (P0.mkPinnedCid c t). split; [done|].
      apply list_elem_of_filter. split; [by apply gcable0_spec|].
      apply list_elem_of_fmap. exists (P0.makeStagedKey c, P0.mkPinnedCid c t).
      split; [done|]. by apply Hin.
Qed.

Lemma keyed_insert ci ci' c t :
  keyed ci →
  P0.kv (P0.ds (C0.ps ci'))
  = <[P0.makeStagedKey c := P0.mkPinnedCid c t]> (P0.kv (P0.ds (C0.ps ci))) →
  keyed ci'.
Proof.
  intros Hk Hkv k v. rewrite Hkv.
  destruct (decide (k = P0.makeStagedKey c)) as [->|Hne].
  - rewrite lookup_insert_eq. by intros [= <-].
  - rewrite lookup_insert_ne by done. apply Hk.
Qed.

Lemma keyed_subseteq ci ci' :
  keyed ci →
  P0.kv (P0.ds (C0.ps ci')) ⊆ P0.kv (P0.ds (C0.ps ci)) →
  keyed ci'.
Proof.
  intros Hk Hsub k v Hkv. apply Hk. by eapply lookup_weaken.
Qed.

Lemma Stage0_calm cidOf now data ci :
  calm ci →
  let c := cidOf data in
  let r := C0.Stage cidOf now data ci in
  r.2 = (c, None) ∧
  C0.pins (C0.ipfs r.1) = {[c]} ∪ C0.pins (C0.ipfs ci) ∧
  C0.pinset r.1 = {[c]} ∪ C0.pinset ci ∧
  P0.kv (P0.ds (C0.ps r.1))
  = <[P0.makeStagedKey c := P0.mkPinnedCid c now]> (P0.kv (P0.ds (C0.ps ci))) ∧
  calm r.1.
Proof.
  intros [Hn Hd] c r. subst r c.
  unfold C0.Stage, C0.Unixfs_Add, P0.AddStaged, P0.Put.
  rewrite (quiet_nextFails _ Hn), (quiet_nextFails _ Hd). simpl.
  do 4 (split; [done|]). split; by apply quiet_tail.
Qed.

Lemma Pin0_calm size c ci :
  calm ci →
  let r := C0.Pin size c ci in
  r.2 = (size, None) ∧
  C0.pins (C0.ipfs r.1) = {[c]} ∪ C0.pins (C0.ipfs ci) ∧
  C0.pinset r.1 = {[c]} ∪ C0.pinset ci ∧
  P0.kv (P0.ds (C0.ps r.1))
  = delete (P0.makeStagedKey c) (P0.kv (P0.ds (C0.ps ci))) ∧
  calm r.1.
Proof.
  intros [Hn Hd] r. subst r.
  unfold C0.Pin, C0.Pin_Add, C0.Object_Stat, P0.RemoveStaged, P0.Delete.
  rewrite (quiet_nextFails _ Hn). simpl.
  rewrite (quiet_nextFails _ (quiet_tail _ Hn)), (quiet_nextFails _ Hd). simpl.
  do 4 (split; [done|]). split; [by apply quiet_tail, quiet_tail|by apply quiet_tail].
Qed.

Lemma unpin0_calm c ci :
  calm ci →
  let r := C0.unpin c ci in
  r.2 = None ∧
  C0.pins (C0.ipfs r.1) = C0.pins (C0.ipfs ci) ∖ {[c]} ∧
  C0.pinset r.1 = C0.pinset ci ∖ {[c]} ∧
  P0.kv (P0.ds (C0.ps r.1))
  = delete (P0.makeStagedKey c) (P0.kv (P0.ds (C0.ps ci))) ∧
  calm r.1.
Proof.
  intros [Hn Hd] r. subst r.
  unfold C0.unpin, C0.Pin_Rm, P0.RemoveStaged, P0.Delete.
  rewrite (quiet_nextFails _ Hn), (quiet_nextFails _ Hd). simpl.
  do 4 (split; [done|]). split; by apply quiet_tail.
Qed.

Lemma unpinEach0_calm lst ci :
  calm ci →
  let r := C0.unpinEach lst ci in
  r.2 = None ∧
  C0.pins (C0.ipfs r.1) = C0.pins (C0.ipfs ci) ∖ list_to_set lst ∧
  C0.pinset r.1 = C0.pinset ci ∖ list_to_set lst ∧
  (∀ c, marker c r.1 = if decide (c ∈ lst) then None else marker c ci) ∧
  P0.kv (P0.ds (C0.ps r.1)) ⊆ P0.kv (P0.ds (C0.ps ci)) ∧
  calm r.1.
Proof.
  revert ci. induction lst as [|c lst IH]; intros ci Hc; simpl.
  - split; [done|]. split.
    { apply set_eq. intros x. rewrite elem_of_difference, elem_of_empty. tauto. }
    split.
    { apply set_eq. intros x. rewrite elem_of_difference, elem_of_empty. tauto. }
    done.
  - destruct (unpin0_calm c ci Hc) as (He & Hp & Hs & Hkv & Hc').
    destruct (C0.unpin c ci) as [ci' [err|]]; simpl in *; [done|].
    destruct (IH ci' Hc') as (He2 & Hp2 & Hs2 & Hm2 & Hsub2 & Hc2).
    split; [done|]. split.
    { rewrite Hp2, Hp. apply set_eq. intros x.
      rewrite !elem_of_difference, elem_of_union, elem_of_singleton. tauto. }
    split.
    { rewrite Hs2, Hs. apply set_eq. intros x.
      rewrite !elem_of_difference, elem_of_union, elem_of_singleton. tauto. }
    split.
    { intros c0. rewrite Hm2. unfold marker. rewrite Hkv.
      destruct (decide (c0 ∈ lst)) as [Hin|Hni].
      - rewrite decide_True; [done|]. by apply elem_of_cons; right.
      - destruct (decide (c0 = c)) as [->|Hne].
        + rewrite decide_True by apply list_elem_of_here.
          apply lookup_delete_eq.
        + rewrite decide_False.
          * apply lookup_delete_ne. intros E. by apply makeStagedKey_inj in E.
          * intros [?|?]%elem_of_cons; done. }
    split; [|done].
    etrans; [exact Hsub2|]. rewrite Hkv. apply delete_subseteq.
Qed.

Lemma GCStaged0_calm pref exclude olderThan ci :
  calm ci → keyed ci →
  let r := C0.GCStaged pref exclude olderThan ci in
  r.2.2 = None ∧
  NoDup r.2.1 ∧
  (∀ c, c ∈ r.2.1 ↔
        ∃ t, marker c ci = Some (P0.mkPinnedCid c t) ∧
             (t ≤ olderThan)%Z ∧ c ∉ exclude) ∧
  C0.pins (C0.ipfs r.1) = C0.pins (C0.ipfs ci) ∖ list_to_set r.2.1 ∧
  C0.pinset r.1 = C0.pinset ci ∖ list_to_set r.2.1 ∧
  (∀ c, marker c r.1 = if decide (c ∈ r.2.1) then None else marker c ci) ∧
  calm r.1 ∧ keyed r.1.
Proof.
  intros Hc Hk r. subst r. unfold C0.GCStaged.
  destruct (getGCCandidates0_quiet pref exclude olderThan ci Hc Hk)
    as (He & Hn & Hs & Hkv & Hq & Hnd & Hin).
  destruct (C0.getGCCandidates pref exclude olderThan ci) as [ci1 [lst err]].
  simpl in *. subst err.
  assert (calm ci1) as Hc1.
  { split; [|done]. rewrite Hn. apply Hc. }
  destruct (unpinEach0_calm lst ci1 Hc1) as (He2 & Hp2 & Hs2 & Hm2 & Hsub2 & Hc2).
  destruct (C0.unpinEach lst ci1) as [ci2 [err|]]; simpl in *; [done|].
  split; [done|]. split; [done|]. split; [done|].
  split; [by rewrite Hp2, Hn|]. split; [by rewrite Hs2, Hs|].
  split.
  { intros c. rewrite Hm2. unfold marker. by rewrite Hkv. }
  split; [done|].
  apply (keyed_subseteq ci); [done|]. by rewrite <- Hkv.
Qed.

(** X21. The collector of the earlier revision, when nothing fails and every
    marker sits under its own key: [GCStaged] returns, each once, the Cids
    that have a marker not younger than the cutoff and are not excluded; the
    node and the adapter's copy of the pin set lose exactly them, and so does
    the store of markers. *)
Theorem GCStaged0_effect pref exclude olderThan ci :
  calm ci → keyed ci →
  let r := C0.GCStaged pref exclude olderThan ci in
  r.2.2 = None ∧
  NoDup r.2.1 ∧
  (∀ c, c ∈ r.2.1 ↔
        ∃ t, marker c ci = Some (P0.mkPinnedCid c t) ∧
             (t ≤ olderThan)%Z ∧ c ∉ exclude) ∧
  C0.pins (C0.ipfs r.1) = C0.pins (C0.ipfs ci) ∖ list_to_set r.2.1 ∧
  C0.pinset r.1 = C0.pinset ci ∖ list_to_set r.2.1 ∧
  (∀ c, marker c r.1 = if decide (c ∈ r.2.1) then None else marker c ci).
Proof.
  intros Hc Hk r.
  destruct (GCStaged0_calm pref exclude olderThan ci Hc Hk)
    as (H1 & H2 & H3 & H4 & H5 & H6 & _).
  done.
Qed.

(** X22. In the earlier revision a collection leaves nothing for the next one:
    when nothing fails, a second [GCStaged] with the same exclusion list and
    a cutoff that is not later returns no Cid and unpins nothing. *)
Theorem GCStaged0_twice pref pref' exclude olderThan olderThan' ci :
  calm ci → keyed ci → (olderThan' ≤ olderThan)%Z →
  let ci1 := (C0.GCStaged pref exclude olderThan ci).1 in
  let r := C0.GCStaged pref' exclude olderThan' ci1 in
  r.2 = ([], None) ∧
  C0.pins (C0.ipfs r.1) = C0.pins (C0.ipfs ci1) ∧
  C0.pinset r.1 = C0.pinset ci1.
Proof.
  intros Hc Hk Hle ci1 r.
  destruct (GCStaged0_calm pref exclude olderThan ci Hc Hk)
    as (_ & _ & Hin & _ & _ & Hm & Hc1 & Hk1).
  fold ci1 in Hm, Hc1, Hk1.
  destruct (GCStaged0_calm pref' exclude olderThan' ci1 Hc1 Hk1)
    as (He & _ & Hin' & Hp & Hs & _).
  fold r in He, Hin', Hp, Hs.
  assert (r.2.1 = []) as Hnil.
  { apply elem_of_nil_inv. intros c Hc'.
    apply Hin' in Hc' as (t & Hmk & Ht & Hne). rewrite Hm in Hmk.
    destruct (decide _) as [|Hni]; [done|].
    apply Hni, Hin. exists t. split; [done|]. split; [lia|done]. }
  rewrite Hnil in Hp, Hs. split.
  { destruct r as [ci2 [lst err]]. simpl in *. by subst. }
  split.
  - rewrite Hp. apply set_eq. intros x.
    rewrite elem_of_difference, elem_of_list_to_set, elem_of_nil. tauto.
  - rewrite Hs. apply set_eq. intros x.
    rewrite elem_of_difference, elem_of_list_to_set, elem_of_nil. tauto.
Qed.

Lemma getGCCandidates0_frame pref exclude olderThan ci :
  C0.ipfs (C0.getGCCandidates pref exclude olderThan ci).1 = C0.ipfs ci ∧
  C0.pinset (C0.getGCCandidates pref exclude olderThan ci).1 = C0.pinset ci.
Proof.
  unfold C0.getGCCandidates.
  by destruct (P0.GetAllStaged pref (C0.ps ci)) as [s [lst [err|]]].
Qed.

Lemma unpin0_coherent c ci :
  coherent ci → (C0.unpin c ci).2 = None → coherent (C0.unpin c ci).1.
Proof.
  unfold coherent, C0.unpin, C0.Pin_Rm. intros Hco.
  destruct (nextFails _); [done|]. simpl.
  destruct (P0.RemoveStaged c (C0.ps ci)) as [s [err|]]; [done|]. simpl.
  intros _. by rewrite Hco.
Qed.

Lemma unpinEach0_coherent lst ci :
  coherent ci → (C0.unpinEach lst ci).2 = None →
  coherent (C0.unpinEach lst ci).1.
Proof.
  revert ci. induction lst as [|c lst IH]; intros ci Hco; simpl; [done|].
  pose proof (unpin0_coherent c ci Hco) as Hu.
  destruct (C0.unpin c ci) as [ci' [err|]]; simpl in *; [done|].
  apply IH. by apply Hu.
Qed.

(** X23. The adapter's copy of the pin set follows the node. [New] returns an
    adapter whose copy is the node's pin set, and every call of [Stage],
    [Pin], [Replace], [Unpin] and [GCStaged] that returns no error keeps it
    so; then [IsPinned] tells what the node pins. *)
Theorem pinset_follows_node :
  (∀ d n ci, (C0.New d n).2 = (Some ci, None) → coherent ci) ∧
  ∀ ci, coherent ci →
    (∀ c, (C0.IsPinned c ci).2.1 = bool_decide (c ∈ C0.pins (C0.ipfs ci))) ∧
    (∀ cidOf now data, (C0.Stage cidOf now data ci).2.2 = None →
       coherent (C0.Stage cidOf now data ci).1) ∧
    (∀ size c, (C0.Pin size c ci).2.2 = None → coherent (C0.Pin size c ci).1) ∧
    (∀ size c1 c2, (C0.Replace size c1 c2 ci).2.2 = None →
       coherent (C0.Replace size c1 c2 ci).1) ∧
    (∀ c, (C0.Unpin c ci).2 = None → coherent (C0.Unpin c ci).1) ∧
    (∀ pref exclude olderThan,
       (C0.GCStaged pref exclude olderThan ci).2.2 = None →
       coherent (C0.GCStaged pref exclude olderThan ci).1).
Proof.
  split.
  { intros d n ci. unfold C0.New, C0.fillPinsetCache, C0.Pin_Ls. simpl.
    destruct (nextFails _); simpl; [done|]. by intros [= <-]. }
  intros ci Hco. unfold coherent in Hco. split; [|split; [|split; [|split; [|split]]]].
  - intros c. unfold C0.IsPinned. simpl. by rewrite Hco.
  - intros cidOf now data. unfold coherent, C0.Stage, C0.Unixfs_Add.
    destruct (nextFails _); [done|]. simpl.
    destruct (P0.AddStaged _ _ _) as [s [err|]]; [done|]. simpl.
    intros _. by rewrite Hco.
  - intros size c. unfold coherent, C0.Pin, C0.Pin_Add, C0.Object_Stat.
    destruct (nextFails _); [done|]. simpl.
    destruct (nextFails _); [done|]. simpl.
    destruct (P0.RemoveStaged _ _) as [s [err|]]; [done|]. simpl.
    intros _. by rewrite Hco.
  - intros size c1 c2. unfold coherent, C0.Replace, C0.Pin_Update, C0.Object_Stat.
    destruct (nextFails _); [done|]. simpl.
    destruct (P0.RemoveStaged _ _) as [s [err|]]; [done|]. simpl.
    destruct (nextFails _); [done|]. simpl.
    intros _. by rewrite Hco.
  - intros c. by apply unpin0_coherent.
  - intros pref exclude olderThan. unfold C0.GCStaged.
    destruct (getGCCandidates0_frame pref exclude olderThan ci) as [Hn Hs].
    destruct (C0.getGCCandidates pref exclude olderThan ci) as [ci1 [lst [err|]]];
      [done|]. simpl in *.
    assert (coherent ci1) as Hco1 by (unfold coherent; by rewrite Hn, Hs).
    pose proof (unpinEach0_coherent lst ci1 Hco1) as Hu.
    destruct (C0.unpinEach lst ci1) as [ci2 [err|]]; [done|]. simpl in *.
    intros _. by apply Hu.
Qed.

Lemma IsPinned0_pinset c ci :
  (C0.IsPinned c ci).2 = (bool_decide (c ∈ C0.pinset ci), None).
Proof. done. Qed.

(** X24. Stage, pin, unpin in the earlier revision, when nothing fails. After
    [Stage] the node pins the Cid, [IsPinned] says so, and the Cid is a
    candidate of the collector for every cutoff that is not before the stage
    and every exclusion list without it. After [Pin] the node still pins it
    and it is no candidate any more, whatever the cutoff. After [Unpin] the
    node does not pin it and [IsPinned] says so. *)
Theorem Stage_Pin_Unpin0 cidOf now data size ci :
  calm ci → keyed ci →
  let c := cidOf data in
  let s1 := C0.Stage cidOf now data ci in
  let s2 := C0.Pin size c s1.1 in
  let s3 := C0.Unpin c s2.1 in
  (s1.2 = (c, None) ∧ c ∈ C0.pins (C0.ipfs s1.1) ∧
   (C0.IsPinned c s1.1).2 = (true, None) ∧
   ∀ pref exclude olderThan,
     c ∈ (C0.getGCCandidates pref exclude olderThan s1.1).2.1 ↔
     (now ≤ olderThan)%Z ∧ c ∉ exclude) ∧
  (s2.2 = (size, None) ∧ c ∈ C0.pins (C0.ipfs s2.1) ∧
   (C0.IsPinned c s2.1).2 = (true, None) ∧
   ∀ pref exclude olderThan,
     c ∉ (C0.getGCCandidates pref exclude olderThan s2.1).2.1) ∧
  (s3.2 = None ∧ (c ∉ C0.pins (C0.ipfs s3.1)) ∧
   (C0.IsPinned c s3.1).2 = (false, None)).
Proof.
  intros Hc Hk c s1 s2 s3.
  destruct (Stage0_calm cidOf now data ci Hc) as (E1 & P1 & S1 & K1 & C1).
  fold c s1 in E1, P1, S1, K1, C1.
  pose proof (keyed_insert ci s1.1 c now Hk K1) as Hk1.
  destruct (Pin0_calm size c s1.1 C1) as (E2 & P2 & S2 & K2 & C2).
  fold s2 in E2, P2, S2, K2, C2.
  assert (keyed s2.1) as Hk2.
  { apply (keyed_subseteq s1.1); [done|]. rewrite K2. apply delete_subseteq. }
  destruct (unpin0_calm c s2.1 C2) as (E3 & P3 & S3 & _).
  change (C0.unpin c s2.1) with s3 in E3, P3, S3.
  assert (∀ X : gset cid.Cid, c ∈ {[c]} ∪ X) as Hin.
  { intros X. apply elem_of_union. left. by apply elem_of_singleton. }
  assert (∀ X : gset cid.Cid, c ∉ X ∖ {[c]}) as Hout.
  { intros X. rewrite elem_of_difference, elem_of_singleton. tauto. }
  split; [|split].
  - split; [done|]. split; [by rewrite P1|]. split.
    { rewrite IsPinned0_pinset, S1. by rewrite bool_decide_eq_true_2. }
    intros pref exclude olderThan.
    destruct (getGCCandidates0_quiet pref exclude olderThan s1.1 C1 Hk1)
      as (_ & _ & _ & _ & _ & _ & Hiff).
    rewrite Hiff. unfold marker. rewrite K1, lookup_insert_eq. split.
    + by intros (t & [= <-] & Ht & Hne).
    + intros [Ht Hne]. by exists now.
  - split; [done|]. split; [by rewrite P2|]. split.
    { rewrite IsPinned0_pinset, S2. by rewrite bool_decide_eq_true_2. }
    intros pref exclude olderThan.
    destruct (getGCCandidates0_quiet pref exclude olderThan s2.1 C2 Hk2)
      as (_ & _ & _ & _ & _ & _ & Hiff).
    rewrite Hiff. unfold marker. rewrite K2, lookup_delete_eq.
    by intros (t & ? & _).
  - split; [done|]. split; [by rewrite P3|].
    rewrite IsPinned0_pinset, S3. by rewrite bool_decide_eq_false_2.
Qed.

(** X25. In the earlier revision staging again what is pinned gives the pin away.
    [Pin] a Cid, then [Stage] data with that Cid, nothing failing: the next
    [GCStaged] whose cutoff is not before the stage and whose exclusion list
    does not name the Cid returns it and makes the node unpin it. *)
Theorem restaged_pin_is_collected cidOf now data size ci pref exclude olderThan :
  calm ci → keyed ci →
  (now ≤ olderThan)%Z → cidOf data ∉ exclude →
  let c := cidOf data in
  let ci1 := (C0.Pin size c ci).1 in
  let ci2 := (C0.Stage cidOf now data ci1).1 in
  let r := C0.GCStaged pref exclude olderThan ci2 in
  c ∈ C0.pins (C0.ipfs ci1) ∧ c ∈ C0.pins (C0.ipfs ci2) ∧
  r.2.2 = None ∧ c ∈ r.2.1 ∧
  (c ∉ C0.pins (C0.ipfs r.1)) ∧
  (C0.IsPinned c r.1).2 = (false, None).
Proof.
  intros Hc Hk Hle Hne c ci1 ci2 r.
  destruct (Pin0_calm size c ci Hc) as (_ & P1 & _ & K1 & C1).
  fold ci1 in P1, K1, C1.
  assert (keyed ci1) as Hk1.
  { apply (keyed_subseteq ci); [done|]. rewrite K1. apply delete_subseteq. }
  destruct (Stage0_calm cidOf now data ci1 C1) as (_ & P2 & _ & K2 & C2).
  fold c ci2 in P2, K2, C2.
  pose proof (keyed_insert ci1 ci2 c now Hk1 K2) as Hk2.
  destruct (GCStaged0_calm pref exclude olderThan ci2 C2 Hk2)
    as (He & _ & Hin & Hp & Hs & _).
  fold r in He, Hin, Hp, Hs.
  assert (c ∈ r.2.1) as Hc'.
  { apply Hin. exists now. unfold marker. by rewrite K2, lookup_insert_eq. }
  split.
  { rewrite P1. apply elem_of_union. left. by apply elem_of_singleton. }
  split.
  { rewrite P2. apply elem_of_union. left. by apply elem_of_singleton. }
  split; [done|]. split; [done|]. split.
  - rewrite Hp, elem_of_difference, elem_of_list_to_set. tauto.
  - rewrite IsPinned0_pinset, Hs. rewrite bool_decide_eq_false_2; [done|].
    rewrite elem_of_difference, elem_of_list_to_set. tauto.
Qed.

(** X26. Two stages and two collections in the earlier revision, when nothing
    fails and the store starts without markers. After two different Cids were
    staged, [GCStaged] returns, each once, those of the two that are not
    excluded and were staged not after the cutoff, and the node unpins them.
    A following [GCStaged] without exclusion and with a cutoff not before
    both stages returns exactly those of the two that the first one left, so
    that afterwards the node pins neither. *)
Theorem staged_twice_then_GC0 cidOf now1 now2 data1 data2
    pref exclude olderThan pref' olderThan' ci :
  calm ci → P0.kv (P0.ds (C0.ps ci)) = ∅ →
  cidOf data1 ≠ cidOf data2 →
  (now1 ≤ olderThan')%Z → (now2 ≤ olderThan')%Z →
  let c1 := cidOf data1 in
  let c2 := cidOf data2 in
  let ci2 := (C0.Stage cidOf now2 data2 (C0.Stage cidOf now1 data1 ci).1).1 in
  let r := C0.GCStaged pref exclude olderThan ci2 in
  let r' := C0.GCStaged pref' [] olderThan' r.1 in
  (r.2.2 = None ∧ NoDup r.2.1 ∧
   (∀ c, c ∈ r.2.1 ↔
         (c = c1 ∧ (now1 ≤ olderThan)%Z ∧ c1 ∉ exclude) ∨
         (c = c2 ∧ (now2 ≤ olderThan)%Z ∧ c2 ∉ exclude)) ∧
   ∀ c, c ∈ r.2.1 → c ∉ C0.pins (C0.ipfs r.1)) ∧
  (r'.2.2 = None ∧ NoDup r'.2.1 ∧
   (∀ c, c ∈ r'.2.1 ↔ (c = c1 ∨ c = c2) ∧ c ∉ r.2.1) ∧
   (c1 ∉ C0.pins (C0.ipfs r'.1)) ∧ (c2 ∉ C0.pins (C0.ipfs r'.1))).
Proof.
  intros Hc Hempty Hne Hle1 Hle2 c1 c2 ci2 r r'.
  assert (keyed ci) as Hk.
  { intros k v. by rewrite Hempty, lookup_empty. }
  destruct (Stage0_calm cidOf now1 data1 ci Hc) as (_ & _ & _ & K1 & C1).
  fold c1 in K1.
  set (ci1 := (C0.Stage cidOf now1 data1 ci).1) in *.
  pose proof (keyed_insert ci ci1 c1 now1 Hk K1) as Hk1.
  destruct (Stage0_calm cidOf now2 data2 ci1 C1) as (_ & _ & _ & K2 & C2).
  fold c2 ci2 in K2, C2.
  pose proof (keyed_insert ci1 ci2 c2 now2 Hk1 K2) as Hk2.
  assert (∀ c, marker c ci2 =
               if decide (c = c2) then Some (P0.mkPinnedCid c2 now2)
               else if decide (c = c1) then Some (P0.mkPinnedCid c1 now1)
               else None) as Hm.
  { intros c. unfold marker. rewrite K2, K1, Hempty.
    destruct (decide (c = c2)) as [->|H2]; [by rewrite lookup_insert_eq|].
    rewrite lookup_insert_ne by (intros E; by apply makeStagedKey_inj in E).
    destruct (decide (c = c1)) as [->|H1]; [by rewrite lookup_insert_eq|].
    rewrite lookup_insert_ne by (intros E; by apply makeStagedKey_inj in E).
    apply lookup_empty. }
  destruct (GCStaged0_calm pref exclude olderThan ci2 C2 Hk2)
    as (He & Hnd & Hin & Hp & _ & Hmr & Cr & Kr).
  fold r in He, Hnd, Hin, Hp, Hmr, Cr, Kr.
  destruct (GCStaged0_calm pref' [] olderThan' r.1 Cr Kr)
    as (He' & Hnd' & Hin' & Hp' & _).
  fold r' in He', Hnd', Hin', Hp'.
  assert (∀ c, c ∈ r.2.1 ↔
               (c = c1 ∧ (now1 ≤ olderThan)%Z ∧ c1 ∉ exclude) ∨
               (c = c2 ∧ (now2 ≤ olderThan)%Z ∧ c2 ∉ exclude)) as Hiff.
  { intros c. rewrite Hin, Hm. split.
    - intros (t & Hmk & Ht & Hex).
      destruct (decide (c = c2)) as [->|H2]; [right; by simplify_eq|].
      destruct (decide (c = c1)) as [->|H1]; [left; by simplify_eq|done].
    - intros [(-> & Ht & Hex)|(-> & Ht & Hex)].
      + exists now1. rewrite decide_False by done. by rewrite decide_True.
      + exists now2. by rewrite decide_True. }
  assert (∀ c, c ∈ r'.2.1 ↔ (c = c1 ∨ c = c2) ∧ c ∉ r.2.1) as Hiff'.
  { intros c. rewrite Hin', Hmr, Hm. split.
    - intros (t & Hmk & _). destruct (decide (c ∈ r.2.1)); [done|].
      split; [|done].
      destruct (decide (c = c2)); [by right|].
      destruct (decide (c = c1)); [by left|done].
    - intros [[-> | ->] Hni]; rewrite (decide_False _ _ Hni).
      + exists now1. rewrite decide_False by done. rewrite decide_True by done.
        split; [done|]. split; [done|]. apply not_elem_of_nil.
      + exists now2. rewrite decide_True by done.
        split; [done|]. split; [done|]. apply not_elem_of_nil. }
  split.
  - split; [done|]. split; [done|]. split; [done|].
    intros c Hc'. rewrite Hp, elem_of_difference, elem_of_list_to_set. tauto.
  - split; [done|]. split; [done|]. split; [done|].
    assert (∀ c, c = c1 ∨ c = c2 → c ∉ C0.pins (C0.ipfs r'.1)) as Hgone.
    { intros c Hc12. rewrite Hp', Hp, !elem_of_difference, !elem_of_list_to_set.
      intros [[_ Hni] Hni']. apply Hni', Hiff'. by split. }
    split; apply Hgone; [by left|by right].
Qed.

(** ** Concrete runs of the earlier revision *)

Lemma calm_ciNew0 : calm ciNew0.
Proof. split; constructor. Defined.

Lemma keyed_ciNew0 : keyed ciNew0.
Proof.
  intros k v.
  change (P0.kv (P0.ds (C0.ps ciNew0))) with (∅ : gmap string P0.PinnedCid).
  by rewrite lookup_empty.
Defined.

Lemma calm_ciStaged0 : calm ciStaged0.
Proof. split; constructor. Defined.

Lemma keyed_ciStaged0 : keyed ciStaged0.
Proof.
  apply (keyed_insert ciNew0 _ "c" 1 keyed_ciNew0).
  apply (Stage0_calm (λ d, d) 1 "c" ciNew0 calm_ciNew0).
Defined.

Lemma GCStaged0_effect_witness :
  let r := C0.GCStaged [] [] 5 ciStaged0 in
  calm ciStaged0 ∧ keyed ciStaged0 ∧
  r.2.2 = None ∧ "c" ∈ r.2.1 ∧
  C0.pins (C0.ipfs r.1) = C0.pins (C0.ipfs ciStaged0) ∖ list_to_set r.2.1.
Proof.
  intros r. split; [exact calm_ciStaged0|]. split; [exact keyed_ciStaged0|].
  destruct (GCStaged0_effect [] [] 5%Z ciStaged0 calm_ciStaged0 keyed_ciStaged0)
    as (H1 & _ & H3 & H4 & _).
  split; [exact H1|]. split; [|exact H4].
  apply H3. exists 1%Z. split; [reflexivity|]. split; [lia|apply not_elem_of_nil].
Defined.

Lemma GCStaged0_twice_witness :
  let ci1 := (C0.GCStaged [] [] 5 ciStaged0).1 in
  calm ciStaged0 ∧ keyed ciStaged0 ∧ (5 ≤ 5)%Z ∧
  (C0.GCStaged [] [] 5 ci1).2 = ([], None).
Proof.
  intros ci1. assert (5 ≤ 5)%Z as Hle by lia.
  split; [exact calm_ciStaged0|]. split; [exact keyed_ciStaged0|].
  split; [exact Hle|].
  exact (proj1 (GCStaged0_twice [] [] [] 5%Z 5%Z ciStaged0
                  calm_ciStaged0 keyed_ciStaged0 Hle)).
Defined.

Lemma Stage_Pin_Unpin0_witness :
  let s1 := C0.Stage (λ d, d) 1 "c" ciNew0 in
  let s2 := C0.Pin 7 "c" s1.1 in
  let s3 := C0.Unpin "c" s2.1 in
  calm ciNew0 ∧ keyed ciNew0 ∧
  s1.2 = ("c", None) ∧ s2.2 = (7, None) ∧ s3.2 = None ∧
  (C0.IsPinned "c" s3.1).2 = (false, None).
Proof.
  intros s1 s2 s3. split; [exact calm_ciNew0|]. split; [exact keyed_ciNew0|].
  destruct (Stage_Pin_Unpin0 (λ d, d) 1%Z "c" 7 ciNew0 calm_ciNew0 keyed_ciNew0)
    as ((H1 & _) & (H2 & _) & (H3 & _ & H4)).
  split; [exact H1|]. split; [exact H2|]. split; [exact H3|exact H4].
Defined.

Lemma restaged_pin_is_collected_witness :
  let ci1 := (C0.Pin 7 "c" ciNew0).1 in
  let ci2 := (C0.Stage (λ d, d) 1 "c" ci1).1 in
  let r := C0.GCStaged [] [] 5 ci2 in
  calm ciNew0 ∧ keyed ciNew0 ∧ (1 ≤ 5)%Z ∧ ("c" ∉ @nil string) ∧
  "c" ∈ C0.pins (C0.ipfs ci1) ∧ "c" ∈ r.2.1 ∧
  ("c" ∉ C0.pins (C0.ipfs r.1)).
Proof.
  intros ci1 ci2 r.
  assert (1 ≤ 5)%Z as Hle by lia.
  assert ("c" ∉ @nil string) as Hne by apply not_elem_of_nil.
  split; [exact calm_ciNew0|]. split; [exact keyed_ciNew0|].
  split; [exact Hle|]. split; [exact Hne|].
  destruct (restaged_pin_is_collected (λ d, d) 1%Z "c" 7 ciNew0 [] [] 5%Z
              calm_ciNew0 keyed_ciNew0 Hle Hne) as (H1 & _ & _ & H4 & H5 & _).
  split; [exact H1|]. split; [exact H4|exact H5].
Defined.

Lemma staged_twice_then_GC0_witness :
  let ci2 := (C0.Stage (λ d, d) 2 "c2" (C0.Stage (λ d, d) 1 "c1" ciNew0).1).1 in
  let r := C0.GCStaged [] ["c1"] 5 ci2 in
  let r' := C0.GCStaged [] [] 5 r.1 in
  calm ciNew0 ∧ P0.kv (P0.ds (C0.ps ciNew0)) = ∅ ∧ "c1" ≠ "c2" ∧
  (1 ≤ 5)%Z ∧ (2 ≤ 5)%Z ∧
  r.2.2 = None ∧ "c2" ∈ r.2.1 ∧ ("c1" ∉ r.2.1) ∧
  r'.2.2 = None ∧ "c1" ∈ r'.2.1 ∧ ("c1" ∉ C0.pins (C0.ipfs r'.1)).
Proof.
  intros ci2 r r'.
  assert ("c1" ≠ "c2") as Hne by discriminate.
  assert (1 ≤ 5)%Z as H1 by lia. assert (2 ≤ 5)%Z as H2 by lia.
  split; [exact calm_ciNew0|]. split; [reflexivity|]. split; [exact Hne|].
  split; [exact H1|]. split; [exact H2|].
  destruct (staged_twice_then_GC0 (λ d, d) 1%Z 2%Z "c1" "c2" [] ["c1"] 5%Z [] 5%Z
              ciNew0 calm_ciNew0 eq_refl Hne H1 H2)
    as ((E & _ & Hiff & _) & (E' & _ & Hiff' & G1 & _)).
  assert ("c1" ∉ (C0.GCStaged [] ["c1"] 5 ci2).2.1) as Hni.
  { intros Hin. apply Hiff in Hin as [(_ & _ & Hx)|(Hx & _)].
    - apply Hx, list_elem_of_here.
    - by apply Hne. }
  split; [exact E|]. split.
  { apply Hiff. right. split; [reflexivity|]. split; [lia|].
    intros Hin. apply list_elem_of_singleton in Hin. by apply Hne. }
  split; [exact Hni|]. split; [exact E'|]. split; [|exact G1].
  apply Hiff'. split; [by left|exact Hni].
Defined.
